(** * The Istio operator: finalizer state machine, manifest object model,
      diff filters and the apply pipeline, embedded in Rocq.

    Sources embedded here:
    - the set-based controller ([Reconcile] over [sets.String]),
    - the slice-based controller ([Reconcile] with [indexOf]),
    - [cmd/mesh/manifest-common.go] ([genApplyManifests], [ignoreError],
      [fetchInstallPackageFromURL], [makeTreeFromSetList]),
    - the [object] package ([K8sObject], [K8sObjects], [renameResource],
      [filterResourceWithSelectAndIgnore], [manifestDiff], ...).

    Go maps are finite maps ([gmap]); a [range] over a map is a traversal of
    its entries in an order the runtime picks, so every loop over a map takes
    the visiting order as a list and the theorems hold for every order.
    Calls into libraries outside the repository (the cluster client, the
    regular-expression engine, the YAML decoder, [sort.Slice]) are operations
    of an interface the definitions are parametrised by. *)

From Stdlib Require Import ZArith Ascii.
From stdpp Require Import base gmap sets list strings sorting.

Open Scope Z_scope.

(** ** Go values shared by all packages *)

(** A Go call either returns or panics (slice bounds, nil dereference). *)
Inductive Outcome (A : Type) : Type :=
| Done (a : A)
| Panicked.
Arguments Done {A} a.
Arguments Panicked {A}.

(** [s[:hi]] on a slice whose capacity equals its length. *)
Definition slice_to {A} (s : list A) (hi : Z) : Outcome (list A) :=
  if bool_decide (0 ≤ hi ≤ Z.of_nat (length s))
  then Done (take (Z.to_nat hi) s) else Panicked.

(** [s[lo:]]. *)
Definition slice_from {A} (s : list A) (lo : Z) : Outcome (list A) :=
  if bool_decide (0 ≤ lo ≤ Z.of_nat (length s))
  then Done (drop (Z.to_nat lo) s) else Panicked.

(** ** Go strings: byte sequences *)

Definition error : Type := string.

(** [len(s)] *)
Definition len (s : string) : Z := Z.of_nat (String.length s).

(** [s[:hi]] on a string. *)
Definition str_slice_to (s : string) (hi : Z) : Outcome string :=
  if bool_decide (0 ≤ hi ≤ len s)
  then Done (String.substring 0 (Z.to_nat hi) s) else Panicked.

(** [strings.HasPrefix(s, prefix)] *)
Definition strings_HasPrefix (s prefix : string) : bool :=
  String.prefix prefix s.

(** [strings.Join(elems, sep)] *)
Definition strings_Join (elems : list string) (sep : string) : string :=
  String.concat sep elems.

(** [strings.Split(s, sep)] for a non-empty [sep]: cut at every occurrence
    of [sep], left to right, occurrences not overlapping.  [cur] is the piece
    being read, reversed; [skip] counts the bytes of a separator still to be
    passed over. *)
Fixpoint split_go (sep : string) (cur : string) (skip : nat) (s : string)
  : list string :=
  match s with
  | EmptyString => [String.rev cur]
  | String c s' =>
      match skip with
      | S k => split_go sep cur k s'
      | O =>
          if String.prefix sep s
          then String.rev cur :: split_go sep EmptyString (String.length sep - 1) s'
          else split_go sep (String c cur) O s'
      end
  end.

Definition strings_Split (s sep : string) : list string :=
  split_go sep EmptyString O s.

(** [strings.LastIndex(s, substr)]: the byte index of the last occurrence,
    [-1] when there is none. *)
Fixpoint lastIndex_from (i : Z) (s substr : string) (found : Z) : Z :=
  let found := if String.prefix substr s then i else found in
  match s with
  | EmptyString => found
  | String _ s' => lastIndex_from (i + 1) s' substr found
  end.

Definition strings_LastIndex (s substr : string) : Z :=
  lastIndex_from 0 s substr (-1).

(** The UTF-8 encodings of the runes [unicode.IsSpace] accepts: the six ASCII
    ones, U+0085, U+00A0, U+1680, U+2000..U+200A, U+2028, U+2029, U+202F,
    U+205F and U+3000. *)
Definition spaceRunes : list string :=
  let b (n : N) := ascii_of_N n in
  let s1 (x : N) := String (b x) EmptyString in
  let s2 (x y : N) := String (b x) (s1 y) in
  let s3 (x y z : N) := String (b x) (s2 y z) in
  [s1 9; s1 10; s1 11; s1 12; s1 13; s1 32;
   s2 194 133; s2 194 160; s3 225 154 128;
   s3 226 128 128; s3 226 128 129; s3 226 128 130; s3 226 128 131;
   s3 226 128 132; s3 226 128 133; s3 226 128 134; s3 226 128 135;
   s3 226 128 136; s3 226 128 137; s3 226 128 138;
   s3 226 128 168; s3 226 128 169; s3 226 128 175; s3 226 129 159;
   s3 227 128 128]%N.

(** The number of bytes of the white-space rune [s] starts with ([runes] are
    the encodings to look for), [0] when it starts with none. *)
Definition leadingSpace (runes : list string) (s : string) : nat :=
  match filter (λ r, String.prefix r s = true) runes with
  | r :: _ => String.length r
  | [] => O
  end.

Fixpoint trimLeft_go (runes : list string) (skip : nat) (s : string) : string :=
  match s with
  | EmptyString => EmptyString
  | String _ s' =>
      match skip with
      | S k => trimLeft_go runes k s'
      | O =>
          match leadingSpace runes s with
          | O => s
          | S k => trimLeft_go runes k s'
          end
      end
  end.

(** [strings.TrimSpace(s)]: leading white-space runes are dropped reading
    forwards, trailing ones reading backwards. *)
Definition strings_TrimSpace (s : string) : string :=
  let s := trimLeft_go spaceRunes O s in
  String.rev (trimLeft_go (String.rev <$> spaceRunes) O (String.rev s)).

(** [path.Base(path)]: the last element of [path], trailing slashes removed;
    "." for the empty path, "/" for a path of slashes only. *)
Fixpoint stripSlashes_rev (r : string) : string :=
  match r with
  | String "/" r' => stripSlashes_rev r'
  | _ => r
  end.

Fixpoint lastElement_rev (r : string) (acc : string) : string :=
  match r with
  | EmptyString => acc
  | String "/" _ => acc
  | String c r' => lastElement_rev r' (String c acc)
  end.

Definition path_Base (path : string) : string :=
  match path with
  | EmptyString => "."
  | _ =>
      match stripSlashes_rev (String.rev path) with
      | EmptyString => "/"
      | r => lastElement_rev r EmptyString
      end
  end.

(** ** The control-plane resource and the cluster it lives in *)

Definition finalizer : string := "istio-finalizer.install.istio.io".

(** finalizerMaxRetries defines the maximum number of attempts to add
    finalizers. *)
Definition finalizerMaxRetries : nat := 10.

Record Resource (Spec : Type) : Type := mkResource {
  deletionTimestamp : option Z;
  finalizers : list string;
  spec : Spec
}.
Arguments mkResource {Spec}.
Arguments deletionTimestamp {Spec}.
Arguments finalizers {Spec}.
Arguments spec {Spec}.

Definition SetFinalizers {Spec} (o : Resource Spec) (fs : list string)
  : Resource Spec :=
  {| deletionTimestamp := deletionTimestamp o;
     finalizers := fs;
     spec := spec o |}.

Definition SetSpec {Spec} (o : Resource Spec) (sp : Spec) : Resource Spec :=
  {| deletionTimestamp := deletionTimestamp o;
     finalizers := finalizers o;
     spec := sp |}.

(** Everything [Reconcile] reaches through [r.client] and [r.factory]: the
    API server, the per-resource reconciler and the two spec codecs.  [World]
    is the state these collaborators own; each call may change it. *)
Class Cluster : Type := {
  Error : Type;
  World : Type;
  Spec : Type;
  Reconciler : Type;
  IsNotFound : Error → bool;
  IsConflict : Error → bool;
  (** [r.client.Get(ctx, request.NamespacedName, obj)] *)
  client_Get : World → (Error + Resource Spec) * World;
  (** [r.client.Update(ctx, obj)] *)
  client_Update : Resource Spec → World → option Error * World;
  (** [r.factory.New(icp, r.client)] *)
  factory_New : Resource Spec → World → (Error + Reconciler) * World;
  (** [reconciler.Delete()] *)
  reconciler_Delete : Reconciler → World → option Error * World;
  (** [reconciler.Reconcile()] *)
  reconciler_Reconcile : Reconciler → World → option Error * World;
  (** the zero value of the spec of a freshly allocated resource *)
  emptySpec : Spec;
  (** [yaml.Marshal(u.Object["spec"])] *)
  yaml_Marshal : Spec → Error + string;
  (** [util.UnmarshalWithJSONPB(string(os), icp.Spec)] *)
  UnmarshalWithJSONPB : string → Spec → Error + Spec
}.

(** [errors.IsConflict(err)] on a possibly nil error. *)
Definition isConflict `{Cluster} (e : option Error) : bool :=
  match e with Some err => IsConflict err | None => false end.

Section Effects.
Context `{Cluster}.

(** The calls a run makes, with what each one answered. *)
Inductive Event : Type :=
| EvGet (r : Error + Resource Spec)
| EvUpdate (obj : Resource Spec) (r : option Error)
| EvNew (icp : Resource Spec) (r : option Error)
| EvDelete (r : option Error)
| EvReconcile (r : option Error).

(** State passing over the world, recording the calls made. *)
Definition M (A : Type) : Type := World → Outcome A * World * list Event.

Definition ret {A} (a : A) : M A := λ w, (Done a, w, []).

Definition bind {A B} (m : M A) (f : A → M B) : M B := λ w,
  match m w with
  | (Done a, w1, t1) =>
      let '(o, w2, t2) := f a w1 in (o, w2, t1 ++ t2)
  | (Panicked, w1, t1) => (Panicked, w1, t1)
  end.

Definition panic {A} : M A := λ w, (Panicked, w, []).

Definition lift {A} (o : Outcome A) : M A :=
  match o with Done a => ret a | Panicked => panic end.

Definition Get : M (Error + Resource Spec) := λ w,
  let '(r, w') := client_Get w in (Done r, w', [EvGet r]).

Definition Update (obj : Resource Spec) : M (option Error) := λ w,
  let '(r, w') := client_Update obj w in (Done r, w', [EvUpdate obj r]).

Definition New (icp : Resource Spec) : M (Error + Reconciler) := λ w,
  let '(r, w') := factory_New icp w in
  (Done r, w', [EvNew icp (match r with inl e => Some e | inr _ => None end)]).

Definition Delete (rc : Reconciler) : M (option Error) := λ w,
  let '(r, w') := reconciler_Delete rc w in (Done r, w', [EvDelete r]).

Definition DoReconcile (rc : Reconciler) : M (option Error) := λ w,
  let '(r, w') := reconciler_Reconcile rc w in (Done r, w', [EvReconcile r]).
End Effects.

Notation "'call' x ':=' m 'in' k" := (bind m (λ x, k))
  (at level 10, x name, m at level 100, k at level 200, only parsing).

(** ** [k8s.io/apimachinery/pkg/util/sets]: [sets.String] *)

Definition sets_NewString (items : list string) : gset string :=
  list_to_set items.
Definition sets_Has (s : gset string) (item : string) : bool :=
  bool_decide (item ∈ s).
Definition sets_Insert (s : gset string) (item : string) : gset string :=
  {[item]} ∪ s.
Definition sets_Delete (s : gset string) (item : string) : gset string :=
  s ∖ {[item]}.
(** [List] returns the contents as a sorted string slice. *)
Definition sets_List (s : gset string) : list string :=
  merge_sort String.le (elements s).

(** ** The set-based controller *)

Module SetController.
Section Reconcile.
Context `{Cluster}.

(** The [for retryCount := 0; errors.IsConflict(finalizerError) &&
    retryCount < finalizerMaxRetries; retryCount++] loop; [remaining] is
    [finalizerMaxRetries - retryCount]. *)
Fixpoint retryLoop (remaining : nat) (icp : Resource Spec)
    (finalizerError : option Error) : M (option Error) :=
  match remaining with
  | O => ret finalizerError
  | S remaining' =>
      if isConflict finalizerError then
        call r := Get in
        let icp := match r with inr o => o | inl _ => icp end in
        let finalizers := sets_NewString (finalizers icp) in
        let finalizers := sets_Delete finalizers finalizer in
        let icp := SetFinalizers icp (sets_List finalizers) in
        call finalizerError := Update icp in
        retryLoop remaining' icp finalizerError
      else ret finalizerError
  end.

Definition Reconcile : M (option Error) :=
  call r := Get in
  match r with
  | inl err => if IsNotFound err then ret None else ret (Some err)
  | inr icp =>
      let deleted :=
        match deletionTimestamp icp with Some _ => true | None => false end in
      let finalizers := sets_NewString (finalizers icp) in
      if deleted then
        if negb (sets_Has finalizers finalizer) then ret None
        else
          call rc := New icp in
          call err := match rc with
                      | inr reconciler => Delete reconciler
                      | inl e => ret (Some e)
                      end in
          let finalizers := sets_Delete finalizers finalizer in
          let icp := SetFinalizers icp (sets_List finalizers) in
          call finalizerError := Update icp in
          call finalizerError :=
            retryLoop finalizerMaxRetries icp finalizerError in
          match finalizerError with
          | Some e => ret (Some e)
          | None => ret err
          end
      else
        call added :=
          (if negb (sets_Has finalizers finalizer) then
             let finalizers := sets_Insert finalizers finalizer in
             let icp := SetFinalizers icp (sets_List finalizers) in
             call err := Update icp in ret (icp, err)
           else ret (icp, None)) in
        match added.2 with
        | Some e => ret (Some e)
        | None =>
            call rc := New added.1 in
            match rc with
            | inr reconciler => DoReconcile reconciler
            | inl e => ret (Some e)
            end
        end
  end.
End Reconcile.
End SetController.

(** ** The slice-based controller *)

Fixpoint indexOf_from (i : Z) (l : list string) (s : string) : Z :=
  match l with
  | [] => -1
  | elem :: l' => if bool_decide (elem = s) then i else indexOf_from (i + 1) l' s
  end.

Definition indexOf (l : list string) (s : string) : Z := indexOf_from 0 l s.

(** [append(finalizers[:finalizerIndex], finalizers[finalizerIndex+1:]...)] *)
Definition removeAt (finalizers : list string) (finalizerIndex : Z)
  : Outcome (list string) :=
  match slice_to finalizers finalizerIndex with
  | Panicked => Panicked
  | Done front =>
      match slice_from finalizers (finalizerIndex + 1) with
      | Panicked => Panicked
      | Done back => Done (front ++ back)
      end
  end.

Module SliceController.
Section Reconcile.
Context `{Cluster}.

Fixpoint retryLoop (remaining : nat) (u : Resource Spec)
    (finalizerError : option Error) : M (option Error) :=
  match remaining with
  | O => ret finalizerError
  | S remaining' =>
      if isConflict finalizerError then
        call r := Get in
        let u := match r with inr o => o | inl _ => u end in
        let finalizers := finalizers u in
        let finalizerIndex := indexOf finalizers finalizer in
        call finalizers := lift (removeAt finalizers finalizerIndex) in
        let u := SetFinalizers u finalizers in
        call finalizerError := Update u in
        retryLoop remaining' u finalizerError
      else ret finalizerError
  end.

Definition Reconcile : M (option Error) :=
  call r := Get in
  match r with
  | inl err => if IsNotFound err then ret None else ret (Some err)
  | inr u =>
      let deleted :=
        match deletionTimestamp u with Some _ => true | None => false end in
      let finalizers := finalizers u in
      let finalizerIndex := indexOf finalizers finalizer in
      (* read-only icp instance; a failed read is only logged *)
      call r2 := Get in
      let icp := match r2 with
                 | inr o => o
                 | inl _ => mkResource None [] emptySpec
                 end in
      match yaml_Marshal (spec u) with
      | inl err => ret (Some err)
      | inr os =>
          match UnmarshalWithJSONPB os (spec icp) with
          | inl err => ret (Some err)
          | inr sp =>
              let icp := SetSpec icp sp in
              if deleted then
                if bool_decide (finalizerIndex < 0) then ret None
                else
                  call rc := New icp in
                  call err := match rc with
                              | inr reconciler => Delete reconciler
                              | inl e => ret (Some e)
                              end in
                  call finalizers :=
                    lift (removeAt finalizers finalizerIndex) in
                  let u := SetFinalizers u finalizers in
                  call finalizerError := Update u in
                  call finalizerError :=
                    retryLoop finalizerMaxRetries u finalizerError in
                  match finalizerError with
                  | Some e => ret (Some e)
                  | None => ret err
                  end
              else
                call err :=
                  (if bool_decide (finalizerIndex < 0) then
                     let finalizers := finalizers ++ [finalizer] in
                     let u := SetFinalizers u finalizers in
                     Update u
                   else ret None) in
                match err with
                | Some e => ret (Some e)
                | None =>
                    call rc := New icp in
                    match rc with
                    | inr reconciler => DoReconcile reconciler
                    | inl e => ret (Some e)
                    end
                end
          end
      end
  end.
End Reconcile.
End SliceController.


(** ** [cmd/mesh/manifest-common.go] *)

Definition ignoreStdErrList : list string :=
  [ (* TODO: remove when https://github.com/kubernetes/kubernetes/issues/82154 is fixed. *)
    "Warning: kubectl apply should be used on resource created by either kubectl create --save-config or kubectl apply" ].

(** The [for _, ignore := range ignoreStdErrList] loop of [ignoreError]. *)
Fixpoint ignoreError_loop (list : list string) (trimmedStdErr : string)
    (otherwise : bool) : bool :=
  match list with
  | [] => otherwise
  | ignore :: rest =>
      if strings_HasPrefix trimmedStdErr ignore then true
      else ignoreError_loop rest trimmedStdErr otherwise
  end.

Definition ignoreError (stderr : string) : bool :=
  let trimmedStdErr := strings_TrimSpace stderr in
  ignoreError_loop ignoreStdErrList trimmedStdErr
    (bool_decide (trimmedStdErr = EmptyString)).

(** What the logger [l] is asked to print, in order. *)
Inductive LogLine (E : Type) : Type :=
| LogComponentErrors (cn : string)
| LogError (err : E)
| LogComponentInstalled (cn : string)
| LogErrorDetail (stderr : string)
| LogStdout (stdout : string)
| LogErrorsBanner.
Arguments LogComponentErrors {E} cn.
Arguments LogError {E} err.
Arguments LogComponentInstalled {E} cn.
Arguments LogErrorDetail {E} stderr.
Arguments LogStdout {E} stdout.
Arguments LogErrorsBanner {E}.

(** [manifest.ComponentApplyOutput] *)
Record ComponentApplyOutput (E : Type) : Type := mkApplyOutput {
  Stdout : string;
  Stderr : string;
  Err : option E
}.
Arguments mkApplyOutput {E}.
Arguments Stdout {E}.
Arguments Stderr {E}.
Arguments Err {E}.

(** [manifest.InstallOptions] *)
Record InstallOptions : Type := mkInstallOptions {
  DryRun : bool;
  Verbose : bool;
  WaitTimeout : Z;
  Kubeconfig : string;
  Context : string
}.

(** The stages [genApplyManifests] and [genManifests] call and the helpers of
    [fetchInstallPackageFromURL] that live in other packages. *)
Class Pipeline : Type := {
  PErr : Type;
  (** [fmt.Errorf(format, err)] *)
  Errorf : string → PErr → PErr;
  makeTreeFromSetList : list string → bool → PErr + string;
  (** [genManifests]; the manifest map is given in the order [range] visits it *)
  genManifests : string → string → bool → PErr + list (string * string);
  (** [manifest.ApplyAll(manifests, version.OperatorBinaryVersion, opts)] *)
  ApplyAll : list (string * string) → InstallOptions
             → PErr + gmap string (ComponentApplyOutput PErr);
  (** [util.IsHTTPURL] *)
  IsHTTPURL : string → bool;
  URLFetcher : Type;
  (** [helm.NewURLFetcher(url, destDir)] *)
  NewURLFetcher : string → string → PErr + URLFetcher;
  (** [uf.FetchBundles().ToError()] *)
  FetchBundles : URLFetcher → option PErr;
  (** [uf.DestDir()] *)
  DestDir : URLFetcher → string;
  (** [helm.ChartsFilePath] *)
  ChartsFilePath : string;
  (** [filepath.Join(elem...)] *)
  filepath_Join : list string → string
}.

(** [v1alpha2.IstioControlPlaneSpec], of which only the package path is read
    and written here. *)
Record IstioControlPlaneSpec : Type := mkICPS {
  InstallPackagePath : string
}.

Section ManifestCommon.
Context `{Pipeline}.

(** The body of [for cn := range manifests]; [out[cn]] is a pointer, nil
    for a component [out] has no entry for. *)
Fixpoint applyLoop (manifests : list (string * string))
    (out : gmap string (ComponentApplyOutput PErr))
    (gotError : bool) (log : list (LogLine PErr))
  : Outcome (bool * list (LogLine PErr)) :=
  match manifests with
  | [] => Done (gotError, log)
  | (cn, _) :: rest =>
      match out !! cn with
      | None => Panicked
      | Some o =>
          let '(gotError, log) :=
            match Err o with
            | Some e =>
                (true, log ++ [LogComponentErrors cn; LogError e])
            | None => (gotError, log ++ [LogComponentInstalled cn])
            end in
          let '(gotError, log) :=
            if negb (ignoreError (Stderr o))
            then (true, log ++ [LogErrorDetail (Stderr o)])
            else (gotError, log) in
          let log :=
            if negb (ignoreError (Stderr o))
            then log ++ [LogStdout (Stdout o)]
            else log in
          applyLoop rest out gotError log
      end
  end.

(** Returns what the function returns and what it printed. *)
Definition genApplyManifests (setOverlay : list string) (inFilename : string)
    (force dryRun verbose : bool) (kubeConfigPath context : string)
    (waitTimeout : Z) : Outcome (option PErr * list (LogLine PErr)) :=
  match makeTreeFromSetList setOverlay force with
  | inl err =>
      Done (Some (Errorf "failed to generate tree from the set overlay, error: %v" err), [])
  | inr overlayFromSet =>
      match genManifests inFilename overlayFromSet force with
      | inl err => Done (Some (Errorf "failed to generate manifest: %v" err), [])
      | inr manifests =>
          let opts := {| DryRun := dryRun; Verbose := verbose;
                         WaitTimeout := waitTimeout;
                         Kubeconfig := kubeConfigPath;
                         Context := context |} in
          match ApplyAll manifests opts with
          | inl err =>
              Done (Some (Errorf "failed to apply manifest with kubectl client: %v" err), [])
          | inr out =>
              match applyLoop manifests out false [] with
              | Panicked => Panicked
              | Done (gotError, log) =>
                  let log :=
                    if gotError then log ++ [LogErrorsBanner] else log in
                  Done (None, log)
              end
          end
      end
  end.

(** fetchInstallPackageFromURL downloads installation packages from
    specified URL.  The spec is updated in place: the result carries the
    spec as the caller sees it afterwards. *)
Definition fetchInstallPackageFromURL (mergedICPS : IstioControlPlaneSpec)
  : Outcome (option PErr * IstioControlPlaneSpec) :=
  if IsHTTPURL (InstallPackagePath mergedICPS) then
    match NewURLFetcher (InstallPackagePath mergedICPS) EmptyString with
    | inl err => Done (Some err, mergedICPS)
    | inr uf =>
        match FetchBundles uf with
        | Some err => Done (Some err, mergedICPS)
        | None =>
            let isp := path_Base (InstallPackagePath mergedICPS) in
            (* get rid of the suffix, installation package is untared to
               folder name istio-{version}, e.g. istio-1.3.0 *)
            let idx := strings_LastIndex isp "-" in
            match str_slice_to isp idx with
            | Panicked => Panicked
            | Done dir =>
                Done (None,
                      {| InstallPackagePath :=
                           filepath_Join [DestDir uf; dir; ChartsFilePath] |})
            end
        end
    end
  else Done (None, mergedICPS).
End ManifestCommon.

(** ** Package [object]: the manifest object model *)

(** [schema.GroupVersionKind] *)
Record GroupVersionKind : Type := mkGVK {
  gvk_Group : string;
  gvk_Version : string;
  gvk_Kind : string
}.

(** [unstructured.Unstructured] as this package uses it. *)
Class UnstructuredAPI : Type := {
  Unstructured : Type;
  (** [u.GetObjectKind().GroupVersionKind()] *)
  u_GroupVersionKind : Unstructured → GroupVersionKind;
  u_GetName : Unstructured → string;
  u_GetNamespace : Unstructured → string;
  u_GetLabels : Unstructured → gmap string string;
  u_SetLabels : Unstructured → gmap string string → Unstructured
}.

(** [o.object.MarshalJSON()] and [yaml.JSONToYAML]. *)
Class Encoder `{UnstructuredAPI} : Type := {
  u_MarshalJSON : Unstructured → error + string;
  yaml_JSONToYAML : string → error + string
}.

(** [k8syaml.NewYAMLOrJSONDecoder(r, 1024).Decode(out)] on the bytes of one
    document. *)
Class Decoder `{UnstructuredAPI} : Type := {
  decoder_Decode : string → error + Unstructured
}.

(** [regexp.Compile] and [Regexp.MatchString]. *)
Class RegexpEngine : Type := {
  Regexp : Type;
  regexp_Compile : string → error + Regexp;
  MatchString : Regexp → string → bool
}.

(** [sort.Slice(x, less)], with [less] given on elements. *)
Class Sorter : Type := {
  sort_Slice : ∀ A : Type, (A → A → bool) → list A → list A
}.
Arguments sort_Slice {_ A} less x.

(** YAMLSeparator is a separator for multi-document YAML files. *)
Definition YAMLSeparator : string := String "010" ("---" +:+ String "010" "").

Section ObjectModel.
Context `{UnstructuredAPI}.

(** K8sObject is an in-memory representation of a k8s object, used for
    moving between different representations (Unstructured, JSON, YAML)
    with cached rendering.  A nil byte slice is [None]. *)
Record K8sObject : Type := mkK8sObject {
  object : Unstructured;
  Group : string;
  Kind : string;
  Name : string;
  Namespace : string;
  json : option string;
  yaml : option string
}.

(** NewK8sObject creates a new K8sObject and returns a ptr to it. *)
Definition NewK8sObject (u : Unstructured) (json yaml : option string)
  : K8sObject :=
  let gvk := u_GroupVersionKind u in
  {| object := u; json := json; yaml := yaml;
     Group := gvk_Group gvk;
     Kind := gvk_Kind gvk;
     Name := u_GetName u;
     Namespace := u_GetNamespace u |}.

(** Hash returns a unique, insecure hash based on kind, namespace and
    name. *)
Definition Hash (kind namespace name : string) : string :=
  let namespace :=
    if bool_decide (kind = "ClusterRole" ∨ kind = "ClusterRoleBinding")
    then EmptyString else namespace in
  strings_Join [kind; namespace; name] ":".

(** HashNameKind returns a unique, insecure hash based on kind and name. *)
Definition HashNameKind (kind name : string) : string :=
  strings_Join [kind; name] ":".

(** K8sObjectsFromUnstructuredSlice returns an Objects ptr type from a
    slice of Unstructured. *)
Definition K8sObjectsFromUnstructuredSlice (objs : list Unstructured)
  : list K8sObject * option error :=
  ((λ o, NewK8sObject o None None) <$> objs, None).

(** ParseYAMLToK8sObject parses YAML to an Object. *)
Definition ParseYAMLToK8sObject `{!Decoder} (yaml : string)
  : error + K8sObject :=
  match decoder_Decode yaml with
  | inl err => inl ("error decoding object: " +:+ err)
  | inr out => inr (NewK8sObject out None (Some yaml))
  end.

Definition UnstructuredObject (o : K8sObject) : Unstructured := object o.

Definition K8sObject_GroupVersionKind (o : K8sObject) : GroupVersionKind :=
  u_GroupVersionKind (object o).

Definition K8sObject_GroupKind (o : K8sObject) : string * string :=
  let gvk := u_GroupVersionKind (object o) in (gvk_Group gvk, gvk_Kind gvk).

Definition K8sObject_Hash (o : K8sObject) : string :=
  Hash (Kind o) (Namespace o) (Name o).

Definition K8sObject_HashNameKind (o : K8sObject) : string :=
  HashNameKind (Kind o) (Name o).

(** JSON returns a JSON representation of the K8sObject, using an internal
    cache. *)
Definition JSON `{!Encoder} (o : K8sObject) : error + string :=
  match json o with
  | Some j => inr j
  | None => u_MarshalJSON (object o)
  end.

Definition set_json (o : K8sObject) (j : option string) : K8sObject :=
  {| object := object o; Group := Group o; Kind := Kind o; Name := Name o;
     Namespace := Namespace o; json := j; yaml := yaml o |}.

Definition set_yaml (o : K8sObject) (y : option string) : K8sObject :=
  {| object := object o; Group := Group o; Kind := Kind o; Name := Name o;
     Namespace := Namespace o; json := json o; yaml := y |}.

Definition set_object (o : K8sObject) (u : Unstructured) : K8sObject :=
  {| object := u; Group := Group o; Kind := Kind o; Name := Name o;
     Namespace := Namespace o; json := json o; yaml := yaml o |}.

(** YAML returns a YAML representation of the K8sObject, using an internal
    cache.  The receiver is a non-nil pointer; the second component is the
    object after the call. *)
Definition YAML `{!Encoder} (o : K8sObject) : (error + string) * K8sObject :=
  match yaml o with
  | Some y => (inr y, o)
  | None =>
      match JSON o with
      | inl err => (inl err, o)
      | inr oj =>
          let o := set_json o (Some oj) in
          match yaml_JSONToYAML oj with
          | inl err => (inl err, o)
          | inr y => (inr y, set_yaml o (Some y))
          end
      end
  end.

(** YAMLDebugString returns a YAML representation of the K8sObject, or an
    error string if the K8sObject cannot be rendered to YAML. *)
Definition YAMLDebugString `{!Encoder} (o : K8sObject)
  : (error + string) * K8sObject := YAML o.

(** AddLabels adds labels to the K8sObject.  This method will override the
    value if there is already label with the same key. *)
Definition AddLabels (o : K8sObject) (labels : gmap string string)
  : K8sObject :=
  let merged : gmap string string := ∅ in
  let merged :=
    map_fold (λ k v (m : gmap string string), <[k:=v]> m) merged
             (u_GetLabels (object o)) in
  let merged :=
    map_fold (λ k v (m : gmap string string), <[k:=v]> m) merged labels in
  let o := set_object o (u_SetLabels (object o) merged) in
  (* Invalidate cached json *)
  let o := set_json o None in
  set_yaml o None.

(** Valid checks returns true if Kind and Name of K8sObject are both not
    empty. *)
Definition Valid (o : K8sObject) : bool :=
  if bool_decide (Kind o = EmptyString ∨ Name o = EmptyString)
  then false else true.
End ObjectModel.

(** ** Package [object]: object sets, parsing and ordering *)

(** [bufio.MaxScanTokenSize]: a line that does not fit in a buffer of this
    size makes [Scan] return false. *)
Definition MaxScanTokenSize : Z := 64 * 1024.

(** [dropCR] of [bufio.ScanLines], on a reversed line. *)
Definition dropCR_rev (line : string) : string :=
  match line with
  | String "013" r => r
  | _ => line
  end.

(** The tokens [bufio.NewScanner(strings.NewReader(manifest))] yields until
    [Scan] returns false: the lines, without their end-of-line marker.  [cur]
    is the line being read, reversed. *)
Fixpoint scanLines_go (cur : string) (s : string) : list string :=
  match s with
  | EmptyString =>
      if bool_decide (cur = EmptyString) then []
      else if bool_decide (len cur < MaxScanTokenSize)
           then [String.rev (dropCR_rev cur)] else []
  | String c s' =>
      if bool_decide (c = "010"%char) then
        if bool_decide (len cur < MaxScanTokenSize)
        then String.rev (dropCR_rev cur) :: scanLines_go EmptyString s'
        else []
      else scanLines_go (String c cur) s'
  end.

Definition scanLines (manifest : string) : list string :=
  scanLines_go EmptyString manifest.

(** The [for scanner.Scan()] loop and the [append] after it: [b] is the
    buffer, [yamls] the chunks cut so far. *)
Fixpoint splitYAMLs (lines : list string) (b : string) (yamls : list string)
  : list string :=
  match lines with
  | [] => yamls ++ [b]
  | line :: rest =>
      if bool_decide (line = "---")
      then (* yaml separator *) splitYAMLs rest EmptyString (yamls ++ [b])
      else splitYAMLs rest (b +:+ line +:+ String "010" "") yamls
  end.

Fixpoint removeNonYAMLLines_loop (lines : list string) (out : string) : string :=
  match lines with
  | [] => out
  | s :: rest =>
      if strings_HasPrefix s "#" then removeNonYAMLLines_loop rest out
      else removeNonYAMLLines_loop rest (out +:+ s +:+ String "010" "")
  end.

Definition removeNonYAMLLines (yms : string) : string :=
  let out := removeNonYAMLLines_loop (strings_Split yms (String "010" "")) EmptyString in
  (* helm charts sometimes emits blank objects with just a "disabled"
     comment. *)
  strings_TrimSpace out.

Section ObjectSets.
Context `{UnstructuredAPI}.

(** The [for _, yaml := range yamls] loop; [log] collects the messages
    passed to [log.Errorf]. *)
Fixpoint parseYAMLs `{!Decoder} (yamls : list string)
    (objects : list K8sObject) (log : list string)
  : list K8sObject * list string :=
  match yamls with
  | [] => (objects, log)
  | yaml :: rest =>
      let yaml := removeNonYAMLLines yaml in
      if bool_decide (yaml = EmptyString) then parseYAMLs rest objects log
      else
        match ParseYAMLToK8sObject yaml with
        | inl err =>
            parseYAMLs rest objects
              (log ++ ["Failed to parse YAML to a k8s object: " +:+ err])
        | inr o => parseYAMLs rest (objects ++ [o]) log
        end
  end.

(** ParseK8sObjectsFromYAMLManifest returns a K8sObjects represetation of
    manifest: the objects, the error and what was logged. *)
Definition ParseK8sObjectsFromYAMLManifest `{!Decoder} (manifest : string)
  : list K8sObject * option error * list string :=
  let yamls := splitYAMLs (scanLines manifest) EmptyString [] in
  let '(objects, log) := parseYAMLs yamls [] [] in
  (objects, None, log).

(** The [less] closure of [Sort], on the two elements it indexes. *)
Definition less (score : K8sObject → Z) (oi oj : K8sObject) : bool :=
  let iScore := score oi in
  let jScore := score oj in
  (iScore <? jScore)
  || ((iScore =? jScore) && String.ltb (Group oi) (Group oj))
  || ((iScore =? jScore) && bool_decide (Group oi = Group oj)
      && String.ltb (Kind oi) (Kind oj))
  || ((iScore =? jScore) && bool_decide (Group oi = Group oj)
      && bool_decide (Kind oi = Kind oj)
      && String.ltb (Name oi) (Name oj)).

(** Sort will order the items in K8sObjects in order of score, group,
    kind, name.  The intent is to have a deterministic ordering in which
    K8sObjects are applied. *)
Definition Sort `{!Sorter} (os : list K8sObject) (score : K8sObject → Z)
  : list K8sObject :=
  sort_Slice (less score) os.

(** ToMap returns a map of K8sObject hash to K8sObject. *)
Fixpoint ToMap_loop (os : list K8sObject) (ret : gmap string K8sObject)
  : gmap string K8sObject :=
  match os with
  | [] => ret
  | oo :: rest =>
      ToMap_loop rest
        (if Valid oo then <[K8sObject_Hash oo := oo]> ret else ret)
  end.

Definition ToMap (os : list K8sObject) : gmap string K8sObject :=
  ToMap_loop os ∅.

(** ToNameKindMap returns a map of K8sObject name/kind hash to
    K8sObject. *)
Fixpoint ToNameKindMap_loop (os : list K8sObject)
    (ret : gmap string K8sObject) : gmap string K8sObject :=
  match os with
  | [] => ret
  | oo :: rest =>
      ToNameKindMap_loop rest
        (if Valid oo then <[K8sObject_HashNameKind oo := oo]> ret else ret)
  end.

Definition ToNameKindMap (os : list K8sObject) : gmap string K8sObject :=
  ToNameKindMap_loop os ∅.
End ObjectSets.

(** ** Package [object]: the rename, select and ignore filters *)

Fixpoint getObjPathMap_loop (rs : list string) (rm : gmap string string)
  : gmap string string :=
  match rs with
  | [] => rm
  | r :: rest =>
      match strings_Split r ":" with
      | kind :: namespace :: name :: path :: _ =>
          let obj := kind +:+ ":" +:+ namespace +:+ ":" +:+ name in
          getObjPathMap_loop rest (<[obj := path]> rm)
      | _ => getObjPathMap_loop rest (<[r := EmptyString]> rm)
      end
  end.

Definition getObjPathMap (rs : string) : gmap string string :=
  if bool_decide (len rs = 0) then ∅
  else getObjPathMap_loop (strings_Split rs ",") ∅.

Fixpoint getKeyValueMap_loop (rs : list string) (rm : gmap string string)
  : gmap string string :=
  match rs with
  | [] => rm
  | r :: rest =>
      match strings_Split r "->" with
      | [k; v] => getKeyValueMap_loop rest (<[k := v]> rm)
      | _ => getKeyValueMap_loop rest rm
      end
  end.

Definition getKeyValueMap (rs : string) : gmap string string :=
  if bool_decide (len rs = 0) then ∅
  else getKeyValueMap_loop (strings_Split rs ",") ∅.

Definition isWildcard (v : string) : bool :=
  bool_decide (v = EmptyString ∨ v = "*").

Section Filters.
Context `{RegexpEngine}.
Context {V : Type}.

(** buildResourceRegexp translates the resource indicator to regexp. *)
Definition buildResourceRegexp (s : string) : error + Regexp :=
  let hash := strings_Split s ":" in
  let hash := (λ v, if isWildcard v then ".*" else v) <$> hash in
  regexp_Compile (strings_Join hash ":").

(** The block under [if fromRe.MatchString(name)]: the key [name] is
    rewritten to after the pattern [toPat]. *)
Definition renamedKey (name toPat : string) : error + string :=
  let fromList := strings_Split name ":" in
  if bool_decide (length fromList ≠ 3%nat) then
    inl ("failed to split the old name, length != 3: " +:+ name)
  else
    let toList := strings_Split toPat ":" in
    if bool_decide (length toList ≠ 3%nat) then
      inl ("failed to split the rename-to string, length != 3: " +:+ toPat)
    else
      (* Use the old name if toList has "*" or "".  Otherwise, use the
         name in toList *)
      let newList :=
        zip_with (λ from to, if isWildcard to then from else to)
                 fromList toList in
      inr (strings_Join newList ":").

(** The [for fromPat, toPat := range rnm] loop for one entry of [iom];
    [rnm] is the rule map in visiting order. *)
Fixpoint renameRules (name : string) (obj : V)
    (rnm : list (string * string)) (oom : gmap string V) (isRenamed : bool)
  : error + gmap string V * bool :=
  match rnm with
  | [] => inr (oom, isRenamed)
  | (fromPat, toPat) :: rest =>
      match buildResourceRegexp (strings_TrimSpace fromPat) with
      | inl err =>
          inl ("error building the regexp from rename-from string: "
                 +:+ fromPat +:+ ", error: " +:+ err)
      | inr fromRe =>
          if MatchString fromRe name then
            match renamedKey name toPat with
            | inl err => inl err
            | inr tk => renameRules name obj rest (<[tk := obj]> oom) true
            end
          else renameRules name obj rest oom isRenamed
      end
  end.

(** The [for name, obj := range iom] loop; [iom] is the index in visiting
    order. *)
Fixpoint renameResource_loop (iom : list (string * V))
    (rnm : list (string * string)) (oom : gmap string V)
  : error + gmap string V :=
  match iom with
  | [] => inr oom
  | (name, obj) :: rest =>
      match renameRules name obj rnm oom false with
      | inl err => inl err
      | inr (oom, isRenamed) =>
          let oom := if negb isRenamed then <[name := obj]> oom else oom in
          renameResource_loop rest rnm oom
      end
  end.

(** renameResource filter the input resources with selected and ignored
    filter. *)
Definition renameResource (iom : list (string * V))
    (rnm : list (string * string)) : error + gmap string V :=
  renameResource_loop iom rnm ∅.

(** The [for selected := range sm] loop for the entry [ak], [av]. *)
Fixpoint selectLoop (ak : string) (av : V) (sm : list (string * string))
    (aosm : gmap string V) : error + gmap string V :=
  match sm with
  | [] => inr aosm
  | (selected, _) :: rest =>
      match buildResourceRegexp (strings_TrimSpace selected) with
      | inl err => inl ("error building the resource regexp: " +:+ err)
      | inr re =>
          selectLoop ak av rest
            (if MatchString re ak then <[ak := av]> aosm else aosm)
      end
  end.

(** The [for ignored := range im] loop for the entry [ak]. *)
Fixpoint ignoreLoop (ak : string) (im : list (string * string))
    (aosm : gmap string V) : error + gmap string V :=
  match im with
  | [] => inr aosm
  | (ignored, _) :: rest =>
      match buildResourceRegexp (strings_TrimSpace ignored) with
      | inl err => inl ("error building the resource regexp: " +:+ err)
      | inr re =>
          ignoreLoop ak rest
            (if MatchString re ak then delete ak aosm else aosm)
      end
  end.

Fixpoint filterResource_loop (aom : list (string * V))
    (sm im : list (string * string)) (aosm : gmap string V)
  : error + gmap string V :=
  match aom with
  | [] => inr aosm
  | (ak, av) :: rest =>
      match selectLoop ak av sm aosm with
      | inl err => inl err
      | inr aosm =>
          match ignoreLoop ak im aosm with
          | inl err => inl err
          | inr aosm => filterResource_loop rest sm im aosm
          end
      end
  end.

(** filterResourceWithSelectAndIgnore filter the input resources with
    selected and ignored filter. *)
Definition filterResourceWithSelectAndIgnore (aom : list (string * V))
    (sm im : list (string * string)) : error + gmap string V :=
  filterResource_loop aom sm im ∅.
End Filters.

(** ** Instances of the library interfaces, to run the code on inputs *)

(** *** Regular expressions: literals and [.*]

    The patterns [buildResourceRegexp] produces from resource indicators
    without regular-expression operators of their own: a sequence of literal
    ASCII bytes and [.*].  On these patterns the functions below are
    [regexp.Compile] and [MatchString]: a literal matches itself, [.*]
    matches any run of bytes without a newline, and a match may start
    anywhere in the text.  Any other pattern is outside the fragment and is
    refused. *)
Inductive FragItem : Type :=
| FLit (c : ascii)
| FAnyStar.

Definition isMeta (c : ascii) : bool :=
  bool_decide (c ∈ String.list_ascii_of_string "\.+*?()|[]{}^$").

Fixpoint fragParse (s : string) : option (list FragItem) :=
  match s with
  | EmptyString => Some []
  | String "." (String "*" s') => cons FAnyStar <$> fragParse s'
  | String c s' =>
      if isMeta c || negb (N_of_ascii c <? 128)%N then None
      else cons (FLit c) <$> fragParse s'
  end.

Fixpoint fragMatchHere (items : list FragItem) : string → bool :=
  match items with
  | [] => λ _, true
  | FLit c :: rest => λ s,
      match s with
      | String d s' => bool_decide (c = d) && fragMatchHere rest s'
      | EmptyString => false
      end
  | FAnyStar :: rest =>
      fix star (s : string) : bool :=
        fragMatchHere rest s
        || match s with
           | String d s' => negb (bool_decide (d = "010"%char)) && star s'
           | EmptyString => false
           end
  end.

Fixpoint fragSearch (items : list FragItem) (s : string) : bool :=
  fragMatchHere items s
  || match s with
     | String _ s' => fragSearch items s'
     | EmptyString => false
     end.

#[export] Instance fragRegexp : RegexpEngine := {|
  Regexp := list FragItem;
  regexp_Compile s :=
    match fragParse s with
    | Some re => inr re
    | None => inl ("error parsing regexp: " +:+ s)
    end;
  MatchString := fragSearch
|}.

(** *** [sort.Slice] on short slices

    [insertionSort_func], which [sort.Slice] runs on a slice of fewer than
    12 elements: each element moves left while it is less than its left
    neighbour.  [sorted] is the part already in order, last element first. *)
Fixpoint insertLeft {A} (less : A → A → bool) (x : A) (sorted : list A)
  : list A :=
  match sorted with
  | [] => [x]
  | y :: sorted' =>
      if less x y then y :: insertLeft less x sorted' else x :: sorted
  end.

Fixpoint insertionSort_go {A} (less : A → A → bool) (sorted : list A)
    (data : list A) : list A :=
  match data with
  | [] => reverse sorted
  | x :: data' => insertionSort_go less (insertLeft less x sorted) data'
  end.

Definition insertionSort {A} (less : A → A → bool) (data : list A) : list A :=
  insertionSort_go less [] data.

#[export] Instance insertionSorter : Sorter := {|
  sort_Slice A less x := insertionSort less x
|}.

(** *** Unstructured objects as trees, and a decoder for block mappings

    An unstructured object is the tree its JSON form describes; only string
    scalars and nested maps occur in the documents handled here. *)
#[local] Set Warnings "-register-all".
Inductive Value : Type :=
| VString (s : string)
| VMap (fields : list (string * Value)).

Fixpoint assoc {A} (k : string) (l : list (string * A)) : option A :=
  match l with
  | [] => None
  | (k', v) :: l' => if bool_decide (k' = k) then Some v else assoc k l'
  end.

Fixpoint assocSet {A} (k : string) (v : A) (l : list (string * A))
  : list (string * A) :=
  match l with
  | [] => [(k, v)]
  | (k', v') :: l' =>
      if bool_decide (k' = k) then (k, v) :: l' else (k', v') :: assocSet k v l'
  end.

Definition field (k : string) (v : Value) : option Value :=
  match v with
  | VMap fields => assoc k fields
  | VString _ => None
  end.

(** [NestedString]: the empty string when the field is missing or is not a
    string. *)
Definition nestedString (v : Value) (path : list string) : string :=
  match foldl (λ o k, o ≫= field k) (Some v) path with
  | Some (VString s) => s
  | _ => EmptyString
  end.

(** [schema.ParseGroupVersion] followed by [WithKind]; an [apiVersion] with
    more than one slash leaves group and version empty. *)
Definition treeGroupVersionKind (v : Value) : GroupVersionKind :=
  let kind := nestedString v ["kind"] in
  match strings_Split (nestedString v ["apiVersion"]) "/" with
  | [version] => mkGVK EmptyString version kind
  | [group; version] => mkGVK group version kind
  | _ => mkGVK EmptyString EmptyString kind
  end.

Definition stringField (kv : string * Value) : option (string * string) :=
  match kv.2 with
  | VString s => Some (kv.1, s)
  | VMap _ => None
  end.

(** [NestedStringMap(obj, "metadata", "labels")]: no labels unless every
    value is a string. *)
Definition treeGetLabels (v : Value) : gmap string string :=
  match field "metadata" v ≫= field "labels" with
  | Some (VMap fields) =>
      match mapM stringField fields with
      | Some l => list_to_map l
      | None => ∅
      end
  | _ => ∅
  end.

(** [SetNestedStringMap(obj, labels, "metadata", "labels")]; nothing is
    written when [metadata] is present and is not a map. *)
Definition treeSetLabels (v : Value) (labels : gmap string string) : Value :=
  let lv := VMap (prod_map id VString <$> map_to_list labels) in
  match v with
  | VString _ => v
  | VMap fields =>
      match assoc "metadata" fields with
      | None => VMap (assocSet "metadata" (VMap [("labels", lv)]) fields)
      | Some (VMap meta) =>
          VMap (assocSet "metadata" (VMap (assocSet "labels" lv meta)) fields)
      | Some (VString _) => v
      end
  end.

#[export] Instance treeUnstructured : UnstructuredAPI := {|
  Unstructured := Value;
  u_GroupVersionKind := treeGroupVersionKind;
  u_GetName v := nestedString v ["metadata"; "name"];
  u_GetNamespace v := nestedString v ["metadata"; "namespace"];
  u_GetLabels := treeGetLabels;
  u_SetLabels := treeSetLabels
|}.

Definition isAlpha (c : ascii) : bool :=
  let n := N_of_ascii c in
  ((65 <=? n) && (n <=? 90) || (97 <=? n) && (n <=? 122))%N.

Definition isDigit (c : ascii) : bool :=
  let n := N_of_ascii c in ((48 <=? n) && (n <=? 57))%N.

Fixpoint allChars (p : ascii → bool) (s : string) : bool :=
  match s with
  | EmptyString => true
  | String c s' => p c && allChars p s'
  end.

(** A key: a letter followed by letters and digits. *)
Definition plainKey (k : string) : bool :=
  match k with
  | EmptyString => false
  | String c _ => isAlpha c && allChars (λ c, isAlpha c || isDigit c) k
  end.

(** The plain scalars YAML 1.1 resolves to booleans or null. *)
Definition yamlReserved : list string :=
  ["y"; "Y"; "yes"; "Yes"; "YES"; "n"; "N"; "no"; "No"; "NO";
   "true"; "True"; "TRUE"; "false"; "False"; "FALSE";
   "on"; "On"; "ON"; "off"; "Off"; "OFF"; "null"; "Null"; "NULL"].

(** A plain scalar that is a string: a letter followed by letters, digits,
    [-], [.] and [/], not one of the reserved words. *)
Definition plainString (v : string) : bool :=
  match v with
  | EmptyString => false
  | String c _ =>
      isAlpha c
      && allChars (λ c, isAlpha c || isDigit c
                        || bool_decide (c = "-"%char)
                        || bool_decide (c = "."%char)
                        || bool_decide (c = "/"%char)) v
      && negb (bool_decide (v ∈ yamlReserved))
  end.

Fixpoint countIndent (s : string) : nat * string :=
  match s with
  | String " " s' => let '(n, r) := countIndent s' in (S n, r)
  | _ => (O, s)
  end.

(** One line [key: value] or [key:], with its indentation. *)
Definition parseLine (l : string) : option (nat * string * option string) :=
  let '(indent, rest) := countIndent l in
  match strings_Split rest ":" with
  | [k; v] =>
      if plainKey k then
        match v with
        | EmptyString => Some (indent, k, None)
        | String " " v' =>
            if plainString v' then Some (indent, k, Some v') else None
        | _ => None
        end
      else None
  | _ => None
  end.

(** The entries of the mapping indented by [indent] at the head of [lines],
    and the lines after it.  Every call consumes a line, so [fuel] above the
    number of lines is never used up. *)
Fixpoint parseBlock (fuel : nat) (indent : nat)
    (lines : list (nat * string * option string))
  : option (list (string * Value) * list (nat * string * option string)) :=
  match fuel with
  | O => None
  | S fuel' =>
      match lines with
      | [] => Some ([], [])
      | (i, k, v) :: rest =>
          if bool_decide (i < indent)%nat then Some ([], lines)
          else if bool_decide (indent < i)%nat then None
          else
            match v with
            | Some s =>
                '(entries, rem) ← parseBlock fuel' indent rest;
                if bool_decide (k ∈ entries.*1) then None
                else Some ((k, VString s) :: entries, rem)
            | None =>
                match rest with
                | (j, _, _) :: _ =>
                    if bool_decide (i < j)%nat then
                      '(children, rem) ← parseBlock fuel' j rest;
                      '(entries, rem') ← parseBlock fuel' indent rem;
                      if bool_decide (k ∈ entries.*1) then None
                      else Some ((k, VMap children) :: entries, rem')
                    else None
                | [] => None
                end
            end
      end
  end.

(** The decoder on one document: a block mapping of plain keys to plain
    strings or nested block mappings, without duplicate keys.  As the
    Kubernetes decoder does, it refuses an object without [kind]; a document
    outside the fragment is refused too. *)
Definition treeDecode (doc : string) : error + Value :=
  match mapM parseLine (strings_Split doc (String "010" "")) with
  | None => inl "document outside the block-mapping fragment"
  | Some lines =>
      match parseBlock (S (length lines)) O lines with
      | Some (entries, []) =>
          if bool_decide (nestedString (VMap entries) ["kind"] = EmptyString)
          then inl ("Object 'Kind' is missing in '" +:+ doc +:+ "'")
          else inr (VMap entries)
      | _ => inl "document outside the block-mapping fragment"
      end
  end.

#[export] Instance treeDecoder : Decoder := {|
  decoder_Decode := treeDecode
|}.


(** *** A scripted cluster

    The API server answers [Get] and [Update] from two scripts, one answer
    per call; when a script is used up [Get] answers not-found and [Update]
    succeeds.  The factory and the reconciler answer the same way every
    time. *)
Inductive SimError : Type :=
| Conflict
| NotFound
| Failure (msg : string).

Record SimWorld : Type := mkSimWorld {
  getScript : list (SimError + Resource unit);
  updateScript : list (option SimError);
  newAnswer : option SimError;
  deleteAnswer : option SimError;
  reconcileAnswer : option SimError
}.

#[export] Instance simCluster : Cluster := {|
  Error := SimError;
  World := SimWorld;
  Spec := unit;
  Reconciler := unit;
  IsNotFound e := match e with NotFound => true | _ => false end;
  IsConflict e := match e with Conflict => true | _ => false end;
  client_Get w :=
    match getScript w with
    | [] => (inl NotFound, w)
    | r :: rest =>
        (r, mkSimWorld rest (updateScript w) (newAnswer w) (deleteAnswer w)
              (reconcileAnswer w))
    end;
  client_Update _ w :=
    match updateScript w with
    | [] => (None, w)
    | r :: rest =>
        (r, mkSimWorld (getScript w) rest (newAnswer w) (deleteAnswer w)
              (reconcileAnswer w))
    end;
  factory_New _ w :=
    (match newAnswer w with Some e => inl e | None => inr tt end, w);
  reconciler_Delete _ w := (deleteAnswer w, w);
  reconciler_Reconcile _ w := (reconcileAnswer w, w);
  emptySpec := tt;
  yaml_Marshal _ := inr EmptyString;
  UnmarshalWithJSONPB _ _ := inr tt
|}.

(** *** A scripted pipeline

    The stages hand on what they are given: the overlay is the first [--set]
    argument, [genManifests] renders one component per name in
    [componentNames] and [ApplyAll] answers [applyOutputs].  Every URL is
    fetched into [/tmp/istio-install-packages]. *)
Record SimPipeline : Type := mkSimPipeline {
  componentNames : list string;
  applyOutputs : gmap string (ComponentApplyOutput string)
}.

Definition simPipeline (p : SimPipeline) : Pipeline := {|
  PErr := string;
  Errorf format err := format +:+ err;
  makeTreeFromSetList setOverlay _ := inr (default EmptyString (head setOverlay));
  genManifests _ _ _ := inr ((λ cn, (cn, EmptyString)) <$> componentNames p);
  ApplyAll _ _ := inr (applyOutputs p);
  IsHTTPURL path :=
    strings_HasPrefix path "http://" || strings_HasPrefix path "https://";
  URLFetcher := string;
  NewURLFetcher _ destDir :=
    inr (if bool_decide (destDir = EmptyString)
         then "/tmp/istio-install-packages" else destDir);
  FetchBundles _ := None;
  DestDir uf := uf;
  ChartsFilePath := "install/kubernetes/operator/charts";
  filepath_Join elems := strings_Join elems "/"
|}.

(** ** Vocabulary of the statements *)

(** The number of times [x] occurs in [l]. *)
Definition occurrences (x : string) (l : list string) : nat :=
  length (filter (λ y, y = x) l).

Section TraceVocabulary.
Context `{Cluster}.

(** One retry of the finalizer removal: the answer of the re-fetch, the
    object sent to [Update] and the answer of [Update]. *)
Definition Round : Type :=
  (Error + Resource Spec) * Resource Spec * option Error.

Definition roundEvents (r : Round) : list Event :=
  [EvGet r.1.1; EvUpdate r.1.2 r.2].

(** The calls of the delete step: [factory.New], then [Delete] when a
    reconciler was made; [derr] is the error the step leaves in [err]. *)
Inductive DeleteStep (icp : Resource Spec)
  : list Event → option Error → Prop :=
| DeleteStep_new_failed (e : Error) :
    DeleteStep icp [EvNew icp (Some e)] (Some e)
| DeleteStep_deleted (derr : option Error) :
    DeleteStep icp [EvNew icp None; EvDelete derr] derr.

(** The calls of the update step: [factory.New], then [Reconcile] when a
    reconciler was made. *)
Inductive UpdateStep (icp : Resource Spec)
  : list Event → option Error → Prop :=
| UpdateStep_new_failed (e : Error) :
    UpdateStep icp [EvNew icp (Some e)] (Some e)
| UpdateStep_reconciled (rerr : option Error) :
    UpdateStep icp [EvNew icp None; EvReconcile rerr] rerr.

Definition isUpdateEvent (e : Event) : bool :=
  match e with EvUpdate _ _ => true | _ => false end.

Definition isReconcileEvent (e : Event) : bool :=
  match e with EvReconcile _ => true | _ => false end.
End TraceVocabulary.

(** A resource being deleted that still holds the token, and the same
    resource after another actor has removed the token. *)
Definition deletingResource : Resource unit :=
  {| deletionTimestamp := Some 1; finalizers := [finalizer]; spec := tt |}.

Definition strippedResource : Resource unit :=
  {| deletionTimestamp := Some 1; finalizers := []; spec := tt |}.

(** The first [Update] meets a conflict, and the re-fetch then returns the
    resource without the token. *)
Definition racyWorld : SimWorld :=
  {| getScript := [inr deletingResource; inr deletingResource;
                   inr strippedResource];
     updateScript := [Some Conflict];
     newAnswer := None; deleteAnswer := None; reconcileAnswer := None |}.

(** The delete step fails and the first [Update] meets a conflict; the
    retry succeeds. *)
Definition conflictWorld : SimWorld :=
  {| getScript := [inr deletingResource; inr deletingResource];
     updateScript := [Some Conflict; None];
     newAnswer := None;
     deleteAnswer := Some (Failure "render failed");
     reconcileAnswer := None |}.

(** Every [Update] meets a conflict. *)
Definition stubbornWorld : SimWorld :=
  {| getScript := replicate 12 (inr deletingResource);
     updateScript := replicate 20 (Some Conflict);
     newAnswer := None;
     deleteAnswer := Some (Failure "render failed");
     reconcileAnswer := None |}.

(** A fresh resource: no deletion marker, no finalizers. *)
Definition freshResource : Resource unit :=
  {| deletionTimestamp := None; finalizers := ["other"]; spec := tt |}.

Definition freshWorld (updateAnswer : option SimError) : SimWorld :=
  {| getScript := [inr freshResource; inr freshResource];
     updateScript := [updateAnswer];
     newAnswer := None; deleteAnswer := None; reconcileAnswer := None |}.

Definition afterGets (n : nat) (w : SimWorld) : SimWorld :=
  {| getScript := drop n (getScript w);
     updateScript := updateScript w;
     newAnswer := newAnswer w; deleteAnswer := deleteAnswer w;
     reconcileAnswer := reconcileAnswer w |}.

(** A component failed: its error is not nil or its standard error is not
    ignorable. *)
Definition componentFailed {E} (o : ComponentApplyOutput E) : bool :=
  bool_decide (is_Some (Err o)) || negb (ignoreError (Stderr o)).

(** What is printed for one component. *)
Definition componentLog {E} (cn : string) (o : ComponentApplyOutput E)
  : list (LogLine E) :=
  match Err o with
  | Some e => [LogComponentErrors cn; LogError e]
  | None => [LogComponentInstalled cn]
  end
  ++ (if ignoreError (Stderr o) then []
      else [LogErrorDetail (Stderr o); LogStdout (Stdout o)]).

(** The bytes of a string. *)
Definition bytes (s : string) : list ascii := String.list_ascii_of_string s.

(** One component, whose apply returned an error with empty standard error
    after printing to standard output. *)
Definition failingRun : SimPipeline :=
  {| componentNames := ["Pilot"];
     applyOutputs :=
       {[ "Pilot" := mkApplyOutput "deployment.apps/istio-pilot created"
                                   EmptyString (Some "timed out") ]} |}.

(** One component, applied without error, with the benign kubectl warning
    on standard error. *)
Definition cleanRun : SimPipeline :=
  {| componentNames := ["Pilot"];
     applyOutputs :=
       {[ "Pilot" := mkApplyOutput "deployment.apps/istio-pilot created"
            "Warning: kubectl apply should be used on resource created by either kubectl create --save-config or kubectl apply"
            None ]} |}.

Section Methods.
Context `{UnstructuredAPI} `{!Encoder}.

(** The methods of [K8sObject]. *)
Inductive Method : Type :=
| mUnstructuredObject
| mGroupKind
| mGroupVersionKind
| mHash
| mHashNameKind
| mJSON
| mYAML
| mYAMLDebugString
| mAddLabels (labels : gmap string string)
| mValid.

(** The object a method call leaves behind: [YAML] fills the caches,
    [AddLabels] merges the labels and clears them, the other methods only
    read. *)
Definition afterMethod (m : Method) (o : K8sObject) : K8sObject :=
  match m with
  | mYAML => (YAML o).2
  | mYAMLDebugString => (YAMLDebugString o).2
  | mAddLabels labels => AddLabels o labels
  | mUnstructuredObject | mGroupKind | mGroupVersionKind | mHash
  | mHashNameKind | mJSON | mValid => o
  end.

(** Group, kind, name and namespace of an object. *)
Definition identityOf (o : K8sObject) : string * string * string * string :=
  (Group o, Kind o, Name o, Namespace o).
End Methods.

(** The lines between the separator lines: a new group starts after every
    line that is exactly [---]. *)
Fixpoint groupsOf (lines : list string) : list (list string) :=
  match lines with
  | [] => [[]]
  | line :: rest =>
      if bool_decide (line = "---") then [] :: groupsOf rest
      else match groupsOf rest with
           | g :: gs => (line :: g) :: gs
           | [] => [[line]]
           end
  end.

(** The groups put back together, a separator line between two groups. *)
Fixpoint ungroup (groups : list (list string)) : list string :=
  match groups with
  | [] => []
  | [g] => g
  | g :: gs => g ++ "---" :: ungroup gs
  end.

(** The text of a group of lines, each line ended by a newline. *)
Definition unlines (lines : list string) : string :=
  String.concat EmptyString ((λ l, l +:+ String "010" "") <$> lines).

Section ChunkVocabulary.
Context `{UnstructuredAPI} `{!Decoder}.

(** What becomes of a chunk. *)
Inductive ChunkFate : Type :=
| Blank
| Rejected (err : error)
| Parsed (o : K8sObject).

Definition fateOf (chunk : string) : ChunkFate :=
  let yaml := removeNonYAMLLines chunk in
  if bool_decide (yaml = EmptyString) then Blank
  else match ParseYAMLToK8sObject yaml with
       | inl err => Rejected err
       | inr o => Parsed o
       end.

Definition parsedOf (chunk : string) : option K8sObject :=
  match fateOf chunk with Parsed o => Some o | _ => None end.

Definition reportOf (chunk : string) : option string :=
  match fateOf chunk with
  | Rejected err => Some ("Failed to parse YAML to a k8s object: " +:+ err)
  | _ => None
  end.

Definition isSkipped (chunk : string) : bool :=
  match fateOf chunk with Parsed _ => false | _ => true end.
End ChunkVocabulary.

(** The manifest of the scenario: a Deployment named [x], then a chunk with
    only a comment. *)
Definition scenarioManifest : string :=
  "kind: Deployment" +:+ String "010" (
  "metadata:" +:+ String "010" (
  "  name: x" +:+ String "010" (
  "---" +:+ String "010" (
  "# disabled" +:+ String "010" "")))).

(** What Go asks of the [less] passed to [sort.Slice]: a strict weak
    order. *)
Definition StrictWeak {A} (less : A → A → bool) : Prop :=
  (∀ a, less a a = false)
  ∧ (∀ a b c, less a b = true → less b c = true → less a c = true)
  ∧ (∀ a b c, less a b = false → less b c = false → less a c = false).

(** In order: no element is less than one before it. *)
Definition InOrder {A} (less : A → A → bool) (l : list A) : Prop :=
  StronglySorted (λ a b, less b a = false) l.

(** What [sort.Slice] promises for such a [less]: the elements are kept and
    end up in order.  It does not promise to keep equal elements in their
    original order. *)
Definition SortContract (S : Sorter) : Prop :=
  ∀ (A : Type) (less : A → A → bool) (l : list A),
    StrictWeak less →
    sort_Slice less l ≡ₚ l ∧ InOrder less (sort_Slice less l).

(** A sorter within the contract that is not stable: it sorts the slice
    read backwards. *)
Definition reversingSorter : Sorter := {|
  sort_Slice A less x := insertionSort less (reverse x)
|}.

Section SortVocabulary.
Context `{UnstructuredAPI}.

(** What [less] compares. *)
Definition sortKey (score : K8sObject → Z) (o : K8sObject)
  : Z * string * string * string :=
  (score o, Group o, Kind o, Name o).
End SortVocabulary.

(** Two config maps of the same name in two namespaces. *)
Definition configMapIn (namespace : string) : Value :=
  VMap [("apiVersion", VString "v1"); ("kind", VString "ConfigMap");
        ("metadata", VMap [("name", VString "istio");
                           ("namespace", VString namespace)])].

(** A strict total order, as a boolean test. *)
Definition StrictTotal {A} (lt : A → A → bool) : Prop :=
  (∀ a, lt a a = false)
  ∧ (∀ a b c, lt a b = true → lt b c = true → lt a c = true)
  ∧ (∀ a b, lt a b = false → lt b a = false → a = b).

(** First by [ltA], then by [ltB]. *)
Definition lexLt {A B} `{EqDecision A} (ltA : A → A → bool)
    (ltB : B → B → bool) (x y : A * B) : bool :=
  ltA x.1 y.1 || (bool_decide (x.1 = y.1) && ltB x.2 y.2).

(** The order of [less] on keys: score, then group, then kind, then name. *)
Definition keyLt : Z * (string * (string * string))
                 → Z * (string * (string * string)) → bool :=
  lexLt Z.ltb (lexLt String.ltb (lexLt String.ltb String.ltb)).

Definition nestKey (k : Z * string * string * string)
  : Z * (string * (string * string)) :=
  (k.1.1.1, (k.1.1.2, (k.1.2, k.2))).

Definition configMapObject (namespace : string)
  : @K8sObject treeUnstructured :=
  NewK8sObject (H := treeUnstructured) (configMapIn namespace) None None.

(** A deployment without namespace. *)
Definition deploymentNamed (name : string) : @K8sObject treeUnstructured :=
  NewK8sObject (H := treeUnstructured)
    (VMap [("apiVersion", VString "apps/v1"); ("kind", VString "Deployment");
           ("metadata", VMap [("name", VString name)])])
    None None.

(** Every object has the same score. *)
Definition flatScore (o : @K8sObject treeUnstructured) : Z := 0.

Section FilterVocabulary.
Context `{RegexpEngine}.

(** The pattern, trimmed and compiled, matches the key. *)
Definition patternMatches (pattern key : string) : bool :=
  match buildResourceRegexp (strings_TrimSpace pattern) with
  | inr re => MatchString re key
  | inl _ => false
  end.

Definition patternCompiles (pattern : string) : Prop :=
  ∃ re, buildResourceRegexp (strings_TrimSpace pattern) = inr re.

(** Some pattern of the list matches the key. *)
Definition anyMatches (patterns : list string) (key : string) : bool :=
  existsb (λ p, patternMatches p key) patterns.

(** A rule of [rnm] matches [name] and rewrites it to [tk]. *)
Definition rewrites (rnm : list (string * string)) (name tk : string)
  : Prop :=
  ∃ fromPat toPat,
    (fromPat, toPat) ∈ rnm
    ∧ patternMatches fromPat name = true
    ∧ renamedKey name toPat = inr tk.

(** No rule of [rnm] matches [name]. *)
Definition unmatched (rnm : list (string * string)) (name : string) : Prop :=
  ∀ fromPat toPat,
    (fromPat, toPat) ∈ rnm → patternMatches fromPat name = false.

(** The reading of C3: the rules are tried in order and only the first
    that matches rewrites the key. *)
Fixpoint firstMatchKey (name : string) (rnm : list (string * string))
  : error + string :=
  match rnm with
  | [] => inr name
  | (fromPat, toPat) :: rest =>
      if patternMatches fromPat name then renamedKey name toPat
      else firstMatchKey name rest
  end.
End FilterVocabulary.

(** A key of three components. *)
Definition threeComponents (s : string) : Prop :=
  length (strings_Split s ":") = 3%nat.

(** An identity index of three objects, named by their role. *)
Definition sampleIndex : list (string * string) :=
  [("Deployment:istio-system:pilot", "pilot deployment");
   ("Deployment:istio-system:galley", "galley deployment");
   ("Service:istio-system:pilot", "pilot service")].

Section RenameVocabulary.
Context `{RegexpEngine}.

(** The key [name] of the index puts the key [k] in the output: a
    matching rule rewrites [name] to [k], or no rule matches and [k] is
    [name]. *)
Definition contributes (rnm : list (string * string)) (name k : string)
  : Prop :=
  rewrites rnm name k ∨ (unmatched rnm name ∧ k = name).

(** The component of the new key: the old one under a wildcard. *)
Definition pick (from to : string) : string :=
  if isWildcard to then from else to.
End RenameVocabulary.

(** Two rules that both match [Deployment:ns:old]. *)
Definition overlappingRules : list (string * string) :=
  [("Deployment:*:old", "Deployment:*:new"); ("*:ns:*", "*:other:*")].

(** ** Vocabulary of the further properties *)

Section RunVocabulary.
Context `{Cluster}.

Definition isGetEvent (e : Event) : bool :=
  match e with EvGet _ => true | _ => false end.

Definition isDeleteEvent (e : Event) : bool :=
  match e with EvDelete _ => true | _ => false end.

Definition isNewEvent (e : Event) : bool :=
  match e with EvNew _ _ => true | _ => false end.

(** How many events of a kind a run made. *)
Definition countEvents (p : Event → bool) (tr : list Event) : nat :=
  length (filter (λ e, p e = true) tr).

Definition isDeleting (icp : Resource Spec) : bool :=
  match deletionTimestamp icp with Some _ => true | None => false end.

(** The runs of the set-based [Reconcile]: the calls made and the result. *)
Inductive SetRun : list Event → option Error → Prop :=
| SetRun_fetch_failed (err : Error) :
    SetRun [EvGet (inl err)] (if IsNotFound err then None else Some err)
| SetRun_finalized (icp : Resource Spec) :
    isDeleting icp = true → finalizer ∉ finalizers icp →
    SetRun [EvGet (inr icp)] None
| SetRun_finalize (icp u0 : Resource Spec) (steps : list Event)
    (err e0 : option Error) (rounds : list Round) :
    isDeleting icp = true → finalizer ∈ finalizers icp →
    DeleteStep icp steps err →
    (length rounds ≤ finalizerMaxRetries)%nat →
    Forall (λ u, finalizer ∉ finalizers u) (u0 :: rounds.*1.*2) →
    SetRun (EvGet (inr icp) :: steps ++ EvUpdate u0 e0
              :: concat (roundEvents <$> rounds))
           (match List.last (rounds.*2) e0 with
            | Some e => Some e
            | None => err
            end)
| SetRun_add_failed (icp u : Resource Spec) (e : Error) :
    isDeleting icp = false → finalizer ∉ finalizers icp →
    occurrences finalizer (finalizers u) = 1%nat →
    SetRun [EvGet (inr icp); EvUpdate u (Some e)] (Some e)
| SetRun_added (icp u : Resource Spec) (steps : list Event)
    (result : option Error) :
    isDeleting icp = false → finalizer ∉ finalizers icp →
    occurrences finalizer (finalizers u) = 1%nat →
    UpdateStep u steps result →
    SetRun (EvGet (inr icp) :: EvUpdate u None :: steps) result
| SetRun_updated (icp : Resource Spec) (steps : list Event)
    (result : option Error) :
    isDeleting icp = false → finalizer ∈ finalizers icp →
    UpdateStep icp steps result →
    SetRun (EvGet (inr icp) :: steps) result.
End RunVocabulary.

(** ** Package [object]: the rest of the package *)

(** [util.YAMLDiff] and [compare.YAMLCmpWithIgnore]. *)
Class Differ : Type := {
  util_YAMLDiff : string → string → string;
  compare_YAMLCmpWithIgnore : string → string → list string → string
}.

(** The order in which [range] visits a map: some order of its entries.
    The functions that range over the maps they build themselves take it
    from here; the loops take the order as a list, and the lemmas on them
    hold for every list. *)
Class MapOrder : Type := {
  rangeOf : ∀ V : Type, gmap string V → list (string * V);
  rangeOf_Permutation : ∀ (V : Type) (m : gmap string V),
    rangeOf V m ≡ₚ map_to_list m
}.
Arguments rangeOf {_ V} m.

Section Manifests.
Context `{UnstructuredAPI} `{!Encoder}.

(** The [for i, item := range os] loop of [JSONManifest]; [b] is the
    buffer, [i] the index. *)
Fixpoint JSONManifest_loop (os : list K8sObject) (first : bool) (b : string)
  : error + string :=
  match os with
  | [] => inr b
  | item :: rest =>
      let b := if first then b else b +:+ String "010" (String "010" "") in
      (* We build a JSON manifest because conversion to yaml is harder (and
         we've lost line numbers anyway if we applied any transforms) *)
      match JSON item with
      | inl err => inl ("error building json: " +:+ err)
      | inr json => JSONManifest_loop rest false (b +:+ json)
      end
  end.

(** JSONManifest returns a JSON representation of K8sObjects os. *)
Definition JSONManifest (os : list K8sObject) : error + string :=
  JSONManifest_loop os true EmptyString.

(** The loop of [YAMLManifest]; [done] holds the items already rendered, as
    [YAML] left them. *)
Fixpoint YAMLManifest_loop (os : list K8sObject) (first : bool) (b : string)
    (done : list K8sObject) : (error + string) * list K8sObject :=
  match os with
  | [] => (inr b, done)
  | item :: rest =>
      let b := if first then b else b +:+ String "010" (String "010" "") in
      match YAML item with
      | (inl err, item) =>
          (inl ("error building yaml: " +:+ err), done ++ item :: rest)
      | (inr ym, item) =>
          YAMLManifest_loop rest false (b +:+ ym +:+ YAMLSeparator)
            (done ++ [item])
      end
  end.

(** YAMLManifest returns a YAML representation of K8sObjects os; the second
    component is the set after the call. *)
Definition YAMLManifest (os : list K8sObject)
  : (error + string) * list K8sObject :=
  YAMLManifest_loop os true EmptyString [].
End Manifests.

Section Diff.
Context `{UnstructuredAPI} `{!Encoder} `{!Decoder} `{RegexpEngine}
        `{Differ} `{MapOrder}.

(** The [for obj, path := range im] loop of [objectIgnorePaths]. *)
Fixpoint objectIgnorePaths_loop (objectName : string)
    (im : list (string * string)) (ignorePaths : list string) : list string :=
  match im with
  | [] => ignorePaths
  | (obj, path) :: rest =>
      if bool_decide (path = EmptyString)
      then objectIgnorePaths_loop objectName rest ignorePaths
      else
        match buildResourceRegexp (strings_TrimSpace obj) with
        | inl _ => objectIgnorePaths_loop objectName rest ignorePaths
        | inr re =>
            objectIgnorePaths_loop objectName rest
              (if MatchString re objectName then ignorePaths ++ [path]
               else ignorePaths)
        end
  end.

Definition objectIgnorePaths (objectName : string)
    (im : list (string * string)) : list string :=
  objectIgnorePaths_loop objectName im [].

Definition missingInB (ak : string) : string :=
  String "010" (String "010" ("Object " +:+ ak +:+ " is missing in B:"
    +:+ String "010" (String "010" ""))).

Definition missingInA (bk : string) : string :=
  String "010" (String "010" ("Object " +:+ bk +:+ " is missing in A:"
    +:+ String "010" (String "010" ""))).

Definition hasDiffs (ak diff : string) : string :=
  String "010" (String "010" ("Object " +:+ ak +:+ " has diffs:"
    +:+ String "010" (String "010" diff))).

(** The [for ak, av := range aom] loop of [manifestDiff]; [aom] is the index
    in visiting order.  [YAML] fills the caches of the objects it renders,
    which changes none of its later answers. *)
Fixpoint manifestDiff_loopA (aom : list (string * K8sObject))
    (bom : gmap string K8sObject) (im : list (string * string))
    (verbose : bool) (out : gmap string string) : error + gmap string string :=
  match aom with
  | [] => inr out
  | (ak, av) :: rest =>
      match (YAML av).1 with
      | inl err => inl err
      | inr ay =>
          match bom !! ak with
          | None =>
              manifestDiff_loopA rest bom im verbose
                (<[ak := missingInB ak]> out)
          | Some bo =>
              match (YAML bo).1 with
              | inl err => inl err
              | inr by_ =>
                  let diff :=
                    if verbose then util_YAMLDiff ay by_
                    else
                      let ignorePaths := objectIgnorePaths ak im in
                      compare_YAMLCmpWithIgnore ay by_ ignorePaths in
                  manifestDiff_loopA rest bom im verbose
                    (if bool_decide (diff ≠ EmptyString)
                     then <[ak := hasDiffs ak diff]> out else out)
              end
          end
      end
  end.

(** The [for bk := range bom] loop. *)
Fixpoint manifestDiff_loopB (bom : list (string * K8sObject))
    (aom : gmap string K8sObject) (out : gmap string string)
  : gmap string string :=
  match bom with
  | [] => out
  | (bk, _) :: rest =>
      manifestDiff_loopB rest aom
        (match aom !! bk with
         | None => <[bk := missingInA bk]> out
         | Some _ => out
         end)
  end.

(** The reports of [manifestDiff], by key. *)
Definition manifestDiff_reports (aom bom : gmap string K8sObject)
    (im : list (string * string)) (verbose : bool)
  : error + gmap string string :=
  match manifestDiff_loopA (rangeOf aom) bom im verbose ∅ with
  | inl err => inl err
  | inr out => inr (manifestDiff_loopB (rangeOf bom) aom out)
  end.

(** [sort.Strings(keys)] *)
Definition sort_Strings (keys : list string) : list string :=
  merge_sort String.le keys.

(** manifestDiff an internal function to compare the manifests difference
    specified in the input. *)
Definition manifestDiff (aom bom : gmap string K8sObject)
    (im : list (string * string)) (verbose : bool) : error + string :=
  match manifestDiff_reports aom bom im verbose with
  | inl err => inl err
  | inr out =>
      let keys := sort_Strings (rangeOf out).*1 in
      inr (foldl (λ sb k, sb +:+ default EmptyString (out !! k))
                 EmptyString keys)
  end.

Definition ManifestDiff (a b : string) (verbose : bool) : error + string :=
  let '(ao, _, _) := ParseK8sObjectsFromYAMLManifest a in
  let '(bo, _, _) := ParseK8sObjectsFromYAMLManifest b in
  let aom := ToMap ao in
  let bom := ToMap bo in
  manifestDiff aom bom [] verbose.

(** ManifestDiffWithSelect checks the manifest differences with selected and
    ignored resources.  The selected filter will apply before the ignored
    filter. *)
Definition ManifestDiffWithRenameSelectIgnore
    (a b renameResources selectResources ignoreResources : string)
    (verbose : bool) : error + string :=
  let rnm := getKeyValueMap renameResources in
  let sm := getObjPathMap selectResources in
  let im := getObjPathMap ignoreResources in
  let '(ao, _, _) := ParseK8sObjectsFromYAMLManifest a in
  let aom := ToMap ao in
  let '(bo, _, _) := ParseK8sObjectsFromYAMLManifest b in
  let bom := ToMap bo in
  match (if bool_decide (size rnm ≠ 0%nat)
         then renameResource (rangeOf aom) (rangeOf rnm)
         else inr aom) with
  | inl err => inl err
  | inr aom =>
      match filterResourceWithSelectAndIgnore
              (rangeOf aom) (rangeOf sm) (rangeOf im) with
      | inl err => inl err
      | inr aosm =>
          match filterResourceWithSelectAndIgnore
                  (rangeOf bom) (rangeOf sm) (rangeOf im) with
          | inl err => inl err
          | inr bosm => manifestDiff aosm bosm (rangeOf im) verbose
          end
      end
  end.
End Diff.

(** *** A renderer for trees

    Compact JSON and block YAML with the keys in byte order, as
    [encoding/json] and [yaml.Marshal] write a map of strings, for the
    trees whose strings need no escaping and no quoting; the others are
    refused. *)
Definition sortByKey {A : Type} (l : list (string * A)) : list (string * A) :=
  merge_sort (λ a b : string * A, String.le a.1 b.1) l.

(** The bytes [encoding/json] copies unchanged into a string. *)
Definition jsonPlain (c : ascii) : bool :=
  let n := N_of_ascii c in
  ((32 <=? n) && (n <=? 126))%N
  && negb (bool_decide (c = "034"%char)) && negb (bool_decide (c = "\"%char))
  && negb (bool_decide (c = "<"%char)) && negb (bool_decide (c = ">"%char))
  && negb (bool_decide (c = "&"%char)).

Definition quoted (s : string) : string :=
  String "034" (s +:+ String "034" "").

Fixpoint jsonOf (v : Value) : option string :=
  match v with
  | VString s => if allChars jsonPlain s then Some (quoted s) else None
  | VMap fields =>
      let fix members (l : list (string * Value))
        : option (list (string * string)) :=
        match l with
        | [] => Some []
        | (k, x) :: l' =>
            sx ← jsonOf x;
            rest ← members l';
            if allChars jsonPlain k
            then Some ((k, quoted k +:+ ":" +:+ sx) :: rest) else None
        end in
      ms ← members fields;
      Some ("{" +:+ strings_Join (sortByKey ms).*2 "," +:+ "}")
  end.

(** The encoder ends its output with a newline. *)
Definition treeMarshalJSON (v : Value) : error + string :=
  match jsonOf v with
  | Some s => inr (s +:+ String "010" "")
  | None => inl "json: string outside the plain fragment"
  end.

(** The string up to the closing quote, and what follows it; [acc] is the
    string read so far, reversed. *)
Fixpoint jsonString (s : string) (acc : string) : option (string * string) :=
  match s with
  | EmptyString => None
  | String c s' =>
      if bool_decide (c = "034"%char) then Some (String.rev acc, s')
      else if jsonPlain c then jsonString s' (String c acc) else None
  end.

(** A value of compact JSON at the head of [s], and what follows it.  Every
    call consumes a byte, so [fuel] above the length is never used up. *)
Fixpoint jsonValue (fuel : nat) (s : string) : option (Value * string) :=
  match fuel with
  | O => None
  | S fuel' =>
      match s with
      | String "034" s' =>
          '(str, r) ← jsonString s' EmptyString; Some (VString str, r)
      | String "{" (String "}" r) => Some (VMap [], r)
      | String "{" s' =>
          '(fields, r) ← jsonMembers fuel' s'; Some (VMap fields, r)
      | _ => None
      end
  end
with jsonMembers (fuel : nat) (s : string)
  : option (list (string * Value) * string) :=
  match fuel with
  | O => None
  | S fuel' =>
      match s with
      | String "034" s' =>
          '(k, r) ← jsonString s' EmptyString;
          match r with
          | String ":" r' =>
              '(v, r'') ← jsonValue fuel' r';
              match r'' with
              | String "," r3 =>
                  '(rest, r4) ← jsonMembers fuel' r3; Some ((k, v) :: rest, r4)
              | String "}" r3 => Some ([(k, v)], r3)
              | _ => None
              end
          | _ => None
          end
      | _ => None
      end
  end.

(** The lines of a block mapping, each entry indented by [indent]. *)
Fixpoint yamlLines (indent : string) (v : Value) : option (list string) :=
  match v with
  | VString s => if plainString s then Some [indent +:+ s] else None
  | VMap fields =>
      let fix entries (l : list (string * Value))
        : option (list (string * list string)) :=
        match l with
        | [] => Some []
        | (k, x) :: l' =>
            block ← match x with
                    | VString s =>
                        if plainString s
                        then Some [indent +:+ k +:+ ": " +:+ s] else None
                    | VMap [] => Some [indent +:+ k +:+ ": {}"]
                    | VMap _ =>
                        sub ← yamlLines ("  " +:+ indent) x;
                        Some ((indent +:+ k +:+ ":") :: sub)
                    end;
            rest ← entries l';
            if plainKey k then Some ((k, block) :: rest) else None
        end in
      es ← entries fields;
      Some (concat (sortByKey es).*2)
  end.

Definition treeJSONToYAML (j : string) : error + string :=
  match jsonValue (S (String.length j)) j with
  | Some (v, rest) =>
      if bool_decide (rest = EmptyString ∨ rest = String "010" "") then
        match v with
        | VMap [] => inr ("{}" +:+ String "010" "")
        | _ =>
            match yamlLines EmptyString v with
            | Some lines =>
                inr (foldr (λ l r, l +:+ String "010" r) EmptyString lines)
            | None => inl "yaml: value outside the plain fragment"
            end
        end
      else inl "yaml: input outside the compact JSON fragment"
  | None => inl "yaml: input outside the compact JSON fragment"
  end.

#[export] Instance treeEncoder : Encoder := {|
  u_MarshalJSON := treeMarshalJSON;
  yaml_JSONToYAML := treeJSONToYAML
|}.

(** *** A differ and a map order

    The differ reports two texts that are not the same, whatever the paths
    to ignore; [range] visits a map in the order of its list of entries. *)
#[export] Instance textDiffer : Differ := {|
  util_YAMLDiff a b :=
    if bool_decide (a = b) then EmptyString
    else "- " +:+ a +:+ String "010" ("+ " +:+ b);
  compare_YAMLCmpWithIgnore a b _ :=
    if bool_decide (a = b) then EmptyString
    else "- " +:+ a +:+ String "010" ("+ " +:+ b)
|}.

#[export] Instance listMapOrder : MapOrder := {|
  rangeOf V m := map_to_list m;
  rangeOf_Permutation V m := reflexivity (map_to_list m)
|}.

(** ** Vocabulary of the properties of package [object] *)

(** A document of the fragment: a Deployment named [pilot]. *)
Definition deploymentText : string :=
  "kind: Deployment" +:+ String "010" (
  "metadata:" +:+ String "010" "  name: pilot").

(** A component without a colon. *)
Definition colonFree (s : string) : Prop := ":"%char ∉ bytes s.

(** The namespace that [Hash] uses. *)
Definition hashNamespace (kind namespace : string) : string :=
  if bool_decide (kind = "ClusterRole" ∨ kind = "ClusterRoleBinding")
  then EmptyString else namespace.

Section DiffVocabulary.
Context `{UnstructuredAPI} `{!Encoder} `{RegexpEngine} `{Differ}.

(** The object can be rendered. *)
Definition renders (o : K8sObject) : Prop := ∃ y, (YAML o).1 = inr y.

(** What [manifestDiff] reports under the key [k], for the objects the two
    indexes hold there. *)
Definition reportFor (k : string) (im : list (string * string))
    (verbose : bool) (a b : option K8sObject) : option string :=
  match a, b with
  | None, None => None
  | Some _, None => Some (missingInB k)
  | None, Some _ => Some (missingInA k)
  | Some av, Some bo =>
      match (YAML av).1, (YAML bo).1 with
      | inr ay, inr by_ =>
          let diff :=
            if verbose then util_YAMLDiff ay by_
            else compare_YAMLCmpWithIgnore ay by_ (objectIgnorePaths k im) in
          if bool_decide (diff ≠ EmptyString)
          then Some (hasDiffs k diff) else None
      | _, _ => None
      end
  end.

(** The differ finds no difference between a text and itself. *)
Definition reflexiveDiffer : Prop :=
  (∀ y, util_YAMLDiff y y = EmptyString)
  ∧ (∀ y paths, compare_YAMLCmpWithIgnore y y paths = EmptyString).
End DiffVocabulary.

(** The differ that is never given a path to ignore. *)
Definition withoutPaths (D : Differ) : Differ := {|
  util_YAMLDiff := @util_YAMLDiff D;
  compare_YAMLCmpWithIgnore a b _ := @compare_YAMLCmpWithIgnore D a b []
|}.

(** Two manifests of one Deployment that differ in the number of
    replicas. *)
Definition replicasManifest (n : string) : string :=
  "kind: Deployment" +:+ String "010" (
  "metadata:" +:+ String "010" (
  "  name: pilot" +:+ String "010" (
  "spec:" +:+ String "010" (
  "  replicas: " +:+ n +:+ String "010" "")))).

(** The key and the path one entry of a select or ignore expression
    stands for. *)
Definition objEntry (r : string) : string * string :=
  match strings_Split r ":" with
  | kind :: namespace :: name :: path :: _ =>
      (kind +:+ ":" +:+ namespace +:+ ":" +:+ name, path)
  | _ => (r, EmptyString)
  end.

(** The rule one entry of a rename expression stands for, if any. *)
Definition ruleEntry (r : string) : option (string * string) :=
  match strings_Split r "->" with
  | [k; v] => Some (k, v)
  | _ => None
  end.

(** ** Package [mesh]: the overlay built from [--set] arguments *)

Module SetOverlay.

(** What [makeTreeFromSetList] calls outside this file: the tree writer of
    [tpath], the value and path parsers of [util], [yaml.Marshal], the
    unmarshaller and the validator of the control-plane spec. *)
Class API : Type := {
  Tree : Type;
  Path : Type;
  Node : Type;
  ICPS : Type;
  (** [make(map[string]interface{})] *)
  emptyTree : Tree;
  (** a string as a tree value *)
  stringNode : string → Node;
  util_PathFromString : string → Path;
  util_ParseValue : string → Node;
  (** [tpath.WriteNode(tree, path, value)]: the tree after the call *)
  tpath_WriteNode : Tree → Path → Node → error + Tree;
  yaml_Marshal : Tree → error + string;
  (** [util.UnmarshalWithJSONPB(y, &v1alpha2.IstioControlPlaneSpec{})] *)
  util_UnmarshalWithJSONPB : string → error + ICPS;
  (** [validate.CheckIstioControlPlaneSpec(icps, true)] *)
  validate_CheckIstioControlPlaneSpec : ICPS → bool → list error;
  (** [util.Errors] printed with [%s] *)
  Errors_String : list error → string
}.

Section SetList.
Context `{API}.

(** The [for _, kv := range setOverlay] loop; [log] is what was passed to
    [l.logAndError]. *)
Fixpoint setLoop (setOverlay : list string) (force : bool) (tree : Tree)
    (log : list string) : (error + Tree) * list string :=
  match setOverlay with
  | [] => (inr tree, log)
  | kv :: rest =>
      match strings_Split kv "=" with
      | [k; v] =>
          let v := util_ParseValue v in
          match tpath_WriteNode tree (util_PathFromString k) v with
          | inl err => (inl err, log)
          | inr tree =>
              (* To make errors more user friendly, test the path and error
                 out immediately if we cannot unmarshal. *)
              match yaml_Marshal tree with
              | inl err => (inl err, log)
              | inr testTree =>
                  match util_UnmarshalWithJSONPB testTree with
                  | inl _ => (inl ("bad path=value: " +:+ kv), log)
                  | inr icps =>
                      let errs :=
                        validate_CheckIstioControlPlaneSpec icps true in
                      if bool_decide (length errs ≠ 0%nat) && negb force
                      then
                        (inl ("bad path=value (" +:+ kv +:+ "): "
                                +:+ Errors_String errs),
                         log ++ ["Run the command with the --force flag if you want to ignore the validation error and proceed."])
                      else setLoop rest force tree log
                  end
              end
          end
      | _ =>
          (inl ("bad argument " +:+ kv +:+ ": expect format key=value"), log)
      end
  end.

(** makeTreeFromSetList creates a YAML tree from a string slice containing
    key-value pairs in the format key=value. *)
Definition makeTreeFromSetList (setOverlay : list string) (force : bool)
  : (error + string) * list string :=
  if bool_decide (length setOverlay = 0%nat) then (inr EmptyString, [])
  else
    (* Populate a default namespace for convenience, otherwise most --set
       commands will error out. *)
    match tpath_WriteNode emptyTree (util_PathFromString "defaultNamespace")
            (stringNode "istio-system") with
    | inl err => (inl err, [])
    | inr tree =>
        match setLoop setOverlay force tree [] with
        | (inl err, log) => (inl err, log)
        | (inr tree, log) =>
            match yaml_Marshal tree with
            | inl err => (inl err, log)
            | inr out => (inr out, log)
            end
        end
    end.

(** The tree after the writes of the entries, when every entry is
    [key=value] and every write succeeds. *)
Fixpoint writes (setOverlay : list string) (tree : Tree) : option Tree :=
  match setOverlay with
  | [] => Some tree
  | kv :: rest =>
      match strings_Split kv "=" with
      | [k; v] =>
          match tpath_WriteNode tree (util_PathFromString k)
                  (util_ParseValue v) with
          | inr tree => writes rest tree
          | inl _ => None
          end
      | _ => None
      end
  end.
End SetList.

(** A flat tree of strings: every write succeeds, the tree is marshalled
    one [key: value] line per entry, and the validator objects to the key
    [bad]. *)
Definition flatAPI : API := {|
  Tree := list (string * string);
  Path := string;
  Node := string;
  ICPS := list string;
  emptyTree := [];
  stringNode s := s;
  util_PathFromString s := s;
  util_ParseValue s := s;
  tpath_WriteNode tree path v := inr (assocSet path v tree);
  yaml_Marshal tree :=
    inr (String.concat EmptyString
           ((λ kv, kv.1 +:+ ": " +:+ kv.2 +:+ String "010" "") <$> tree));
  util_UnmarshalWithJSONPB y := inr (strings_Split y (String "010" ""));
  validate_CheckIstioControlPlaneSpec icps _ :=
    if bool_decide (Exists (λ l, strings_HasPrefix l "bad:" = true) icps)
    then ["unknown field bad"] else [];
  Errors_String errs := strings_Join errs ", "
|}.

End SetOverlay.

(** A line of [MaxScanTokenSize] bytes, and the warning of
    [ignoreStdErrList] followed by an error message. *)
Definition longLine : string :=
  String.string_of_list_ascii
    (replicate (Z.to_nat MaxScanTokenSize) "a"%char).

Definition warningThenError : string :=
  "Warning: kubectl apply should be used on resource created by either kubectl create --save-config or kubectl apply"
  +:+ String "010" "error: unable to recognize the manifest".

(** ** Vocabulary of the retries *)

Section RetryVocabulary.
Context `{Cluster}.

(** The resource with the removal of the token computed on it, as the
    set-based controller does: the other fields are kept. *)
Definition withoutToken (icp : Resource Spec) : Resource Spec :=
  SetFinalizers icp
    (sets_List (sets_Delete (sets_NewString (finalizers icp)) finalizer)).

(** The resource in hand after a re-fetch: the one fetched, or, the error
    of the re-fetch being dropped, the one in hand before. *)
Definition inHand (prev : Resource Spec) (g : Error + Resource Spec)
  : Resource Spec :=
  match g with inr o => o | inl _ => prev end.

(** Every round sends the resource its own re-fetch left in hand, with the
    removal recomputed on it; [prev] is the resource sent before the first
    round. *)
Fixpoint Recomputed (prev : Resource Spec) (rounds : list Round) : Prop :=
  match rounds with
  | [] => True
  | r :: rest =>
      r.1.2 = withoutToken (inHand prev r.1.1) ∧ Recomputed r.1.2 rest
  end.
End RetryVocabulary.

(** The resource as another actor has changed it meanwhile, and a cluster
    in which the first [Update] meets a conflict and the re-fetch answers
    the changed resource. *)
Definition changedResource : Resource unit :=
  {| deletionTimestamp := Some 1; finalizers := [finalizer; "other"];
     spec := tt |}.

Definition refreshedWorld : SimWorld :=
  {| getScript := [inr deletingResource; inr changedResource];
     updateScript := [Some Conflict; None];
     newAnswer := None; deleteAnswer := None; reconcileAnswer := None |}.

(** A resource being deleted that holds the token twice, among other
    finalizers out of order, and a cluster that answers it. *)
Definition doubledResource : Resource unit :=
  {| deletionTimestamp := Some 1;
     finalizers := ["b"; finalizer; "a"; finalizer; "a"];
     spec := tt |}.

Definition doubledWorld : SimWorld :=
  {| getScript := [inr doubledResource; inr doubledResource];
     updateScript := [None];
     newAnswer := None; deleteAnswer := None; reconcileAnswer := None |}.
(** * Properties *)

(** ** Finalizer sets *)

Lemma elem_of_sets_List (s : gset string) (x : string) :
  x ∈ sets_List s ↔ x ∈ s.
Proof.
  unfold sets_List. rewrite merge_sort_Permutation. apply elem_of_elements.
Qed.

Lemma NoDup_sets_List (s : gset string) : NoDup (sets_List s).
Proof.
  unfold sets_List. rewrite merge_sort_Permutation. apply NoDup_elements.
Qed.

Lemma sets_Has_NewString (l : list string) (x : string) :
  sets_Has (sets_NewString l) x = bool_decide (x ∈ l).
Proof.
  unfold sets_Has, sets_NewString. apply bool_decide_ext.
  apply elem_of_list_to_set.
Qed.

Lemma sets_List_Delete_absent (s : gset string) (x : string) :
  x ∉ sets_List (sets_Delete s x).
Proof.
  rewrite elem_of_sets_List. unfold sets_Delete.
  rewrite elem_of_difference, elem_of_singleton. tauto.
Qed.

Lemma sets_List_Insert_present (s : gset string) (x : string) :
  x ∈ sets_List (sets_Insert s x).
Proof.
  rewrite elem_of_sets_List. unfold sets_Insert.
  rewrite elem_of_union, elem_of_singleton. tauto.
Qed.

Lemma occurrences_absent (x : string) (l : list string) :
  x ∉ l → occurrences x l = 0%nat.
Proof.
  unfold occurrences. induction l as [|y l IH]; intros Hx; [done|].
  apply not_elem_of_cons in Hx as [Hne Hx].
  rewrite filter_cons_False by (intros ->; done). auto.
Qed.

Lemma occurrences_NoDup (x : string) (l : list string) :
  NoDup l → x ∈ l → occurrences x l = 1%nat.
Proof.
  induction 1 as [|y l Hy Hnd IH]; intros Hin.
  - by apply elem_of_nil in Hin.
  - unfold occurrences in *. apply elem_of_cons in Hin as [->|Hin].
    + rewrite filter_cons_True by done. simpl. f_equal.
      by apply occurrences_absent.
    + rewrite filter_cons_False by (intros ->; done). auto.
Qed.


(** ** The set-based controller *)

Section SetControllerFacts.
Context `{Cluster}.

Lemma last_cons_default {A} (x d : A) (l : list A) :
  List.last (x :: l) d = List.last l x.
Proof.
  revert x d. induction l as [|y l IH]; intros x d; [done|].
  change (List.last (x :: y :: l) d) with (List.last (y :: l) d).
  rewrite IH. symmetry. apply IH.
Qed.

(** The retry loop stops after at most [n] rounds; it goes round only
    after a conflict, ends on a conflict only when the rounds are used up,
    and every object it sends lacks the token. *)
Lemma set_retryLoop_rounds (n : nat) (icp : Resource Spec)
    (finalizerError : option Error) (w : World) :
  ∃ (rounds : list Round) (w' : World),
    SetController.retryLoop n icp finalizerError w
      = (Done (List.last (rounds.*2) finalizerError), w',
         concat (roundEvents <$> rounds))
    ∧ (length rounds ≤ n)%nat
    ∧ Forall (λ e, isConflict e = true)
             (List.removelast (finalizerError :: rounds.*2))
    ∧ (isConflict (List.last (rounds.*2) finalizerError) = true
       → length rounds = n)
    ∧ Forall (λ r : Round, finalizer ∉ finalizers r.1.2) rounds
    ∧ Recomputed icp rounds.
Proof.
  revert icp finalizerError w.
  induction n as [|n IH]; intros icp ferr w; simpl.
  { exists [], w. simpl. repeat split; auto. }
  destruct (isConflict ferr) eqn:Hc.
  2: { exists [], w. simpl. repeat split; auto; [lia|congruence]. }
  unfold bind at 1. unfold Get at 1.
  destruct (client_Get w) as [g w1] eqn:Hg.
  set (icp1 := SetFinalizers (match g with inr o => o | inl _ => icp end)
                 (sets_List (sets_Delete
                    (sets_NewString
                       (finalizers (match g with inr o => o | inl _ => icp end)))
                    finalizer))).
  unfold bind at 1. unfold Update at 1.
  destruct (client_Update icp1 w1) as [e w2] eqn:Hu.
  destruct (IH icp1 e w2)
    as (rounds & w' & Hrun & Hlen & Hconf & Hlast & Hfin & Hrec).
  rewrite Hrun.
  exists ((g, icp1, e) :: rounds), w'.
  split; [|split; [|split; [|split; [|split]]]].
  - rewrite fmap_cons. cbn [snd]. by rewrite last_cons_default.
  - simpl. lia.
  - rewrite fmap_cons. cbn [snd].
    change (List.removelast (ferr :: e :: rounds.*2))
      with (ferr :: List.removelast (e :: rounds.*2)).
    by constructor.
  - rewrite fmap_cons. cbn [snd]. rewrite last_cons_default.
    intros Hc'. simpl. f_equal. by apply Hlast.
  - constructor; [|done]. simpl. apply sets_List_Delete_absent.
  - by split.
Qed.

(** The persistence part of the deletion path: the first [Update], the
    retries and the choice of the result. *)
Lemma set_persist_removal (u0 : Resource Spec) (err : option Error)
    (w : World) :
  ∃ (e0 : option Error) (rounds : list Round) (w' : World),
    let finalizerError := List.last (rounds.*2) e0 in
    bind (Update u0) (λ finalizerError,
      bind (SetController.retryLoop finalizerMaxRetries u0 finalizerError)
        (λ finalizerError,
           match finalizerError with
           | Some e => ret (Some e)
           | None => ret err
           end)) w
      = (Done (match finalizerError with Some e => Some e | None => err end),
         w', EvUpdate u0 e0 :: concat (roundEvents <$> rounds))
    ∧ Forall (λ u, finalizer ∉ finalizers u) (rounds.*1.*2)
    ∧ (length rounds ≤ finalizerMaxRetries)%nat
    ∧ Forall (λ e, isConflict e = true) (List.removelast (e0 :: rounds.*2))
    ∧ (isConflict finalizerError = true
       → length rounds = finalizerMaxRetries)
    ∧ Recomputed u0 rounds.
Proof.
  unfold bind at 1. unfold Update at 1.
  destruct (client_Update u0 w) as [e0 w1] eqn:Hupd.
  destruct (set_retryLoop_rounds finalizerMaxRetries u0 e0 w1)
    as (rounds & w' & Hrun & Hlen & Hconf & Hlast & Hfin & Hrec).
  unfold bind at 1. rewrite Hrun.
  exists e0, rounds, w'. cbn zeta.
  split; [|split; [|split; [|split; [|split]]]]; try done.
  - destruct (List.last (rounds.*2) e0); unfold ret; simpl;
      by rewrite ?app_nil_r.
  - rewrite <-list_fmap_compose. by apply Forall_fmap.
Qed.


(** The update step: [factory.New], then [Reconcile] when a reconciler
    was made; never an [Update]. *)
Lemma updateStep_run (icp : Resource Spec) (w : World) :
  ∃ (steps : list Event) (result : option Error) (w' : World),
    bind (New icp) (λ rc,
      match rc with
      | inr reconciler => DoReconcile reconciler
      | inl e => ret (Some e)
      end) w = (Done result, w', steps)
    ∧ UpdateStep icp steps result.
Proof.
  unfold bind, New.
  destruct (factory_New icp w) as [[e|rc] w1].
  - exists [EvNew icp (Some e)], (Some e), w1. split; [done|constructor].
  - unfold DoReconcile.
    destruct (reconciler_Reconcile rc w1) as [rerr w2].
    exists [EvNew icp None; EvReconcile rerr], rerr, w2.
    split; [done|constructor].
Qed.

End SetControllerFacts.

(** ** The slice-based controller *)

Lemma indexOf_from_absent (l : list string) (s : string) (i : Z) :
  s ∉ l → indexOf_from i l s = -1.
Proof.
  revert i. induction l as [|x l IH]; intros i Hs; [done|].
  apply not_elem_of_cons in Hs as [Hne Hs]. simpl.
  rewrite bool_decide_false by congruence. by apply IH.
Qed.

Lemma indexOf_from_present (l : list string) (s : string) (i : Z) :
  s ∈ l →
  ∃ k : nat, indexOf_from i l s = i + Z.of_nat k
             ∧ l !! k = Some s ∧ s ∉ take k l.
Proof.
  revert i. induction l as [|x l IH]; intros i Hs.
  { by apply elem_of_nil in Hs. }
  simpl. destruct (decide (x = s)) as [->|Hne].
  - rewrite bool_decide_true by done. exists O. simpl.
    split; [lia|]. split; [done|]. apply not_elem_of_nil.
  - rewrite bool_decide_false by done.
    apply elem_of_cons in Hs as [?|Hs]; [congruence|].
    destruct (IH (i + 1) Hs) as (k & Hk & Hl & Ht).
    exists (S k). simpl. split; [lia|]. split; [done|].
    apply not_elem_of_cons. split; [congruence|done].
Qed.

Lemma indexOf_absent (l : list string) (s : string) :
  s ∉ l → indexOf l s = -1.
Proof. apply indexOf_from_absent. Qed.

Lemma indexOf_negative (l : list string) (s : string) :
  indexOf l s < 0 ↔ s ∉ l.
Proof.
  split.
  - intros Hneg Hin.
    destruct (indexOf_from_present l s 0 Hin) as (k & Hk & _).
    unfold indexOf in Hneg. lia.
  - intros Hs. rewrite indexOf_absent by done. lia.
Qed.

(** With the index of a token that is present, the slice expressions are in
    range and drop the first occurrence. *)
Lemma removeAt_present (l : list string) (s : string) :
  s ∈ l →
  ∃ k : nat, l !! k = Some s ∧ (s ∉ take k l)
             ∧ removeAt l (indexOf l s) = Done (take k l ++ drop (S k) l).
Proof.
  intros Hin.
  destruct (indexOf_from_present l s 0 Hin) as (k & Hk & Hl & Ht).
  exists k. split; [done|]. split; [done|].
  unfold indexOf. rewrite Hk.
  apply lookup_lt_Some in Hl.
  unfold removeAt, slice_to, slice_from.
  rewrite !bool_decide_true by lia.
  repeat f_equal; lia.
Qed.

(** With the index [-1] of an absent token, [finalizers[:finalizerIndex]]
    is out of range. *)
Lemma removeAt_absent (l : list string) (s : string) :
  s ∉ l → removeAt l (indexOf l s) = Panicked.
Proof.
  intros Hs. rewrite indexOf_absent by done.
  unfold removeAt, slice_to. by rewrite bool_decide_false by lia.
Qed.

Section SliceControllerFacts.
Context `{Cluster}.



(** When every re-fetch of a run answers with a resource that holds the
    token, the retry loop returns. *)
Lemma slice_retryLoop_safe (n : nat) (u : Resource Spec)
    (finalizerError : option Error) (w w' : World)
    (out : Outcome (option Error)) (tr : list Event) :
  SliceController.retryLoop n u finalizerError w = (out, w', tr) →
  (∀ g, EvGet g ∈ tr → ∃ o, g = inr o ∧ finalizer ∈ finalizers o) →
  ∃ r, out = Done r.
Proof.
  revert u finalizerError w w' out tr.
  induction n as [|n IH]; intros u ferr w w' out tr; simpl.
  { unfold ret. intros [= <- <- <-] _. eauto. }
  destruct (isConflict ferr).
  2: { unfold ret. intros [= <- <- <-] _. eauto. }
  unfold bind at 1. unfold Get at 1.
  destruct (client_Get w) as [g w1].
  destruct (bind (lift _) _ w1) as [[o2 w2] t2] eqn:Hrest.
  intros [= <- <- <-] Hpre.
  destruct (Hpre g) as (o & -> & Htok); [by left|].
  destruct (removeAt_present _ _ Htok) as (k & _ & _ & Hrm).
  rewrite Hrm in Hrest. unfold lift, bind at 1, ret at 1 in Hrest.
  unfold bind at 1, Update at 1 in Hrest.
  destruct (client_Update _ w1) as [e w3].
  destruct (SliceController.retryLoop n _ e w3) as [[o4 w4] t4] eqn:Hloop.
  injection Hrest as <- <- <-.
  eapply IH; [exact Hloop|].
  intros g Hg. apply Hpre. simpl. right. by right.
Qed.

(** After a conflict, when the resource in hand after the re-fetch lacks
    the token (the fetched one, or the one already stripped when the fetch
    failed), [finalizers[:finalizerIndex]] is evaluated with index [-1]. *)
Lemma slice_retryLoop_panics (n : nat) (u : Resource Spec)
    (finalizerError : option Error) (w w1 : World)
    (g : Error + Resource Spec) :
  isConflict finalizerError = true →
  client_Get w = (g, w1) →
  finalizer ∉ finalizers (match g with inr o => o | inl _ => u end) →
  SliceController.retryLoop (S n) u finalizerError w
    = (Panicked, w1, [EvGet g]).
Proof.
  intros Hc Hget Htok. simpl. rewrite Hc.
  unfold bind at 1. unfold Get at 1. rewrite Hget.
  rewrite removeAt_absent by done. done.
Qed.
End SliceControllerFacts.

(** C9.  The retry loop of the slice-based [Reconcile] recomputes
    [finalizerIndex] after the re-fetch and slices with it unchecked.  A run
    all of whose re-fetches answer with a resource holding the token
    returns; as soon as the resource in hand after a re-fetch lacks the
    token, the loop body panics on the slice bound; and such a run exists:
    in [racyWorld] the first [Update] conflicts, another actor has removed
    the token before the re-fetch, and [Reconcile] panics. *)
Theorem slice_retry_index_unchecked :
  (∀ (C : Cluster) (n : nat) (u : Resource Spec)
     (finalizerError : option Error) (w w' : World)
     (out : Outcome (option Error)) (tr : list Event),
     SliceController.retryLoop n u finalizerError w = (out, w', tr) →
     (∀ g, EvGet g ∈ tr → ∃ o, g = inr o ∧ finalizer ∈ finalizers o) →
     ∃ r, out = Done r)
  ∧ (∀ (C : Cluster) (n : nat) (u : Resource Spec)
       (finalizerError : option Error) (w w1 : World)
       (g : Error + Resource Spec),
       isConflict finalizerError = true →
       client_Get w = (g, w1) →
       finalizer ∉ finalizers (match g with inr o => o | inl _ => u end) →
       SliceController.retryLoop (S n) u finalizerError w
         = (Panicked, w1, [EvGet g]))
  ∧ SliceController.Reconcile racyWorld
      = (Panicked,
         {| getScript := []; updateScript := [];
            newAnswer := None; deleteAnswer := None;
            reconcileAnswer := None |},
         [EvGet (inr deletingResource); EvGet (inr deletingResource);
          EvNew deletingResource None; EvDelete None;
          EvUpdate strippedResource (Some Conflict);
          EvGet (inr strippedResource)]).
Proof.
  split; [|split].
  - intros C. apply slice_retryLoop_safe.
  - intros C. apply slice_retryLoop_panics.
  - vm_compute. reflexivity.
Qed.

(** *** Runs in the scripted cluster *)


(** The delete step failed, one conflict was retried, the removal was then
    persisted: the delete step's error is the result. *)
Example set_Reconcile_conflict_then_success :
  (SetController.Reconcile conflictWorld).1.1
    = Done (Some (Failure "render failed"))
  ∧ (SetController.Reconcile conflictWorld).2
    = [EvGet (inr deletingResource);
       EvNew deletingResource None; EvDelete (Some (Failure "render failed"));
       EvUpdate strippedResource (Some Conflict);
       EvGet (inr deletingResource);
       EvUpdate strippedResource None].
Proof. split; vm_compute; reflexivity. Qed.

(** The re-fetch answers a resource another actor has changed: the retry
    sends that resource without the token, not the one sent before. *)
Example set_Reconcile_retry_sends_refetched :
  SetController.Reconcile refreshedWorld
  = (Done None, afterGets 2 (mkSimWorld [] [] None None None),
     [EvGet (inr deletingResource);
      EvNew deletingResource None; EvDelete None;
      EvUpdate strippedResource (Some Conflict);
      EvGet (inr changedResource);
      EvUpdate (SetFinalizers changedResource ["other"]) None]).
Proof. vm_compute. reflexivity. Qed.

(** Conflicts without end: one [Update] and ten retries, and the conflict,
    not the delete step's error, is the result. *)
Example set_Reconcile_retries_exhausted :
  (SetController.Reconcile stubbornWorld).1.1 = Done (Some Conflict)
  ∧ length (filter (λ e, isUpdateEvent e = true)
                   (SetController.Reconcile stubbornWorld).2) = 11%nat.
Proof. split; vm_compute; reflexivity. Qed.


(** A fresh resource whose [Update] succeeds: the token is persisted once
    and the update step runs. *)
Example set_Reconcile_fresh_success :
  SetController.Reconcile (freshWorld None)
    = (Done None,
       {| getScript := [inr freshResource]; updateScript := [];
          newAnswer := None; deleteAnswer := None; reconcileAnswer := None |},
       [EvGet (inr freshResource);
        EvUpdate (SetFinalizers freshResource [finalizer; "other"]) None;
        EvNew (SetFinalizers freshResource [finalizer; "other"]) None;
        EvReconcile None]).
Proof. vm_compute. reflexivity. Qed.

Lemma slice_retry_index_unchecked_witness :
  ∃ r, (Done None : Outcome (option SimError)) = Done r.
Proof.
  apply (proj1 slice_retry_index_unchecked simCluster 10%nat
           strippedResource (Some Conflict)
           (mkSimWorld [inr deletingResource] [] None None None)
           (mkSimWorld [] [] None None None)
           (Done None)
           [@EvGet simCluster (inr deletingResource);
            @EvUpdate simCluster strippedResource None]).
  - vm_compute. reflexivity.
  - intros g Hg. exists deletingResource.
    apply elem_of_cons in Hg as [Hg|Hg].
    + injection Hg as ->. split; [reflexivity|apply list_elem_of_here].
    + apply list_elem_of_singleton in Hg. discriminate Hg.
Defined.

(** ** [cmd/mesh/manifest-common.go] *)

Lemma elem_of_concat {A} (x : A) (ls : list (list A)) :
  x ∈ concat ls ↔ ∃ l, x ∈ l ∧ l ∈ ls.
Proof.
  induction ls as [|l ls IH]; simpl.
  - split; [by intros ?%elem_of_nil|]. by intros (l & _ & ?%elem_of_nil).
  - rewrite elem_of_app, IH. split.
    + intros [Hx|(l' & Hx & Hl')].
      * exists l. split; [done|by left].
      * exists l'. split; [done|by right].
    + intros (l' & Hx & Hl'). apply elem_of_cons in Hl' as [->|Hl'].
      * by left.
      * right. by exists l'.
Qed.

Lemma ignoreError_loop_true (list : list string) (t : string) (b : bool) :
  ignoreError_loop list t b = true
  ↔ (∃ p, p ∈ list ∧ strings_HasPrefix t p = true) ∨ b = true.
Proof.
  induction list as [|p list IH]; simpl.
  - split; [by right|]. intros [(p & Hp & _)|?]; [|done].
    by apply elem_of_nil in Hp.
  - destruct (strings_HasPrefix t p) eqn:Hp.
    + split; [|done]. intros _. left. exists p. split; [by left|done].
    + rewrite IH. split.
      * intros [(q & Hq & Hpre)|?]; [|by right].
        left. exists q. split; [by right|done].
      * intros [(q & Hq & Hpre)|?]; [|by right].
        apply elem_of_cons in Hq as [->|Hq]; [congruence|].
        left. by exists q.
Qed.

(** Standard error is ignorable iff it is empty after trimming or its
    trimmed form begins with an entry of the allow-list. *)
Lemma ignoreError_iff (stderr : string) :
  ignoreError stderr = true
  ↔ strings_TrimSpace stderr = EmptyString
    ∨ ∃ p, p ∈ ignoreStdErrList
           ∧ strings_HasPrefix (strings_TrimSpace stderr) p = true.
Proof.
  unfold ignoreError. rewrite ignoreError_loop_true.
  rewrite bool_decide_eq_true. tauto.
Qed.

Section ManifestCommonFacts.
Context `{Pipeline}.

Lemma applyLoop_run (manifests : list (string * string))
    (out : gmap string (ComponentApplyOutput PErr))
    (gotError : bool) (log : list (LogLine PErr)) :
  (∀ cn, cn ∈ manifests.*1 → is_Some (out !! cn)) →
  ∃ outs : list (string * ComponentApplyOutput PErr),
    outs.*1 = manifests.*1
    ∧ Forall (λ co, out !! co.1 = Some co.2) outs
    ∧ applyLoop manifests out gotError log
      = Done (gotError || existsb (λ co, componentFailed co.2) outs,
              log ++ concat ((λ co, componentLog co.1 co.2) <$> outs)).
Proof.
  revert gotError log.
  induction manifests as [|[cn m] manifests IH]; intros gotError log Hcov.
  { exists []. simpl. rewrite orb_false_r, app_nil_r. done. }
  destruct (Hcov cn) as [o Ho]; [by left|].
  simpl. rewrite Ho.
  set (g1 := match Err o with Some _ => true | None => gotError end).
  set (l1 := log ++ match Err o with
                    | Some e => [LogComponentErrors cn; LogError e]
                    | None => [LogComponentInstalled cn]
                    end).
  set (g2 := if negb (ignoreError (Stderr o)) then true else g1).
  set (l2 := l1 ++ (if ignoreError (Stderr o) then []
                    else [LogErrorDetail (Stderr o); LogStdout (Stdout o)])).
  destruct (IH g2 l2) as (outs & Hnames & Hlook & Hrun).
  { intros cn' Hcn'. apply Hcov. by right. }
  exists ((cn, o) :: outs). split; [by rewrite !fmap_cons, Hnames|].
  split; [by constructor|].
  transitivity (applyLoop manifests out g2 l2).
  { unfold g2, l2, g1, l1.
    destruct (Err o), (ignoreError (Stderr o)); simpl;
      rewrite <-?app_assoc, ?app_nil_r; reflexivity. }
  rewrite Hrun. f_equal. f_equal.
  - unfold g2, g1, componentFailed. simpl.
    destruct (Err o) eqn:He, (ignoreError (Stderr o)), gotError; simpl;
      try reflexivity;
      rewrite ?(bool_decide_true (is_Some (Some _))) by eauto;
      rewrite ?(bool_decide_false (is_Some None)) by (by intros [? ?]);
      reflexivity.
  - unfold l2, l1, componentLog. simpl. by rewrite <-!app_assoc.
Qed.

Lemma componentLog_no_banner (cn : string)
    (o : ComponentApplyOutput PErr) :
  LogErrorsBanner ∉ componentLog cn o.
Proof.
  unfold componentLog. intros Hin. apply elem_of_app in Hin as [Hin|Hin].
  - destruct (Err o); repeat (apply elem_of_cons in Hin as [Hin|Hin];
      [discriminate Hin|]); by apply elem_of_nil in Hin.
  - destruct (ignoreError (Stderr o));
      repeat (apply elem_of_cons in Hin as [Hin|Hin];
              [discriminate Hin|]); by apply elem_of_nil in Hin.
Qed.

Lemma componentLog_members (cn : string) (o : ComponentApplyOutput PErr) :
  (∀ s, LogStdout s ∈ componentLog cn o
        ↔ ignoreError (Stderr o) = false ∧ Stdout o = s)
  ∧ (∀ s, LogErrorDetail s ∈ componentLog cn o
          ↔ ignoreError (Stderr o) = false ∧ Stderr o = s)
  ∧ (∀ e, LogError e ∈ componentLog cn o ↔ Err o = Some e).
Proof.
  unfold componentLog.
  split; [|split]; intros x; rewrite elem_of_app;
    destruct (Err o) as [e|], (ignoreError (Stderr o));
    rewrite ?elem_of_cons, ?elem_of_nil; split;
    try (intros [?|?]; intuition congruence);
    try (intros [? ?]; intuition congruence);
    try (intros ?; intuition congruence).
Qed.

(** C2, as the code has it.  When the three stages succeed and
    [ApplyAll] answers for every component, the loop sets [gotError]
    exactly when some component has a non-nil error or a standard error
    that is not ignorable (ignorable: empty after trimming, or beginning
    with an entry of [ignoreStdErrList]).  The flag stays local:
    [genApplyManifests] returns a nil error either way and prints the
    banner exactly when the flag is set, after the messages of the
    components.  Those messages are exactly, component by component in the
    order of the loop: the header and the error value when the error is
    not nil, the success header otherwise; then standard error and
    standard output when standard error is not ignorable, and nothing
    when it is.  So an error value is printed exactly when a component
    has it, and a standard error or a standard output exactly when it is
    that of a component whose standard error is not ignorable. *)
Theorem genApplyManifests_marks_errors (setOverlay : list string)
    (inFilename : string) (force dryRun verbose : bool)
    (kubeConfigPath context : string) (waitTimeout : Z)
    (overlayFromSet : string) (manifests : list (string * string))
    (out : gmap string (ComponentApplyOutput PErr)) :
  makeTreeFromSetList setOverlay force = inr overlayFromSet →
  genManifests inFilename overlayFromSet force = inr manifests →
  ApplyAll manifests
    {| DryRun := dryRun; Verbose := verbose; WaitTimeout := waitTimeout;
       Kubeconfig := kubeConfigPath; Context := context |} = inr out →
  (∀ cn, cn ∈ manifests.*1 → is_Some (out !! cn)) →
  ∃ (gotError : bool) (log : list (LogLine PErr))
    (outs : list (string * ComponentApplyOutput PErr)),
    applyLoop manifests out false [] = Done (gotError, log)
    ∧ (gotError = true
       ↔ ∃ cn o, cn ∈ manifests.*1 ∧ out !! cn = Some o
                 ∧ (is_Some (Err o) ∨ ignoreError (Stderr o) = false))
    ∧ genApplyManifests setOverlay inFilename force dryRun verbose
        kubeConfigPath context waitTimeout
      = Done (None, if gotError then log ++ [LogErrorsBanner] else log)
    ∧ (LogErrorsBanner ∉ log)
    ∧ (∀ cn o, cn ∈ manifests.*1 → out !! cn = Some o →
         (∀ e, Err o = Some e → LogError e ∈ log)
         ∧ (ignoreError (Stderr o) = false →
              (LogErrorDetail (Stderr o) ∈ log) ∧ LogStdout (Stdout o) ∈ log))
    ∧ (∀ stderr, ignoreError stderr = true
         ↔ strings_TrimSpace stderr = EmptyString
           ∨ ∃ p, p ∈ ignoreStdErrList
                  ∧ strings_HasPrefix (strings_TrimSpace stderr) p = true)
    ∧ outs.*1 = manifests.*1
    ∧ Forall (λ co, out !! co.1 = Some co.2) outs
    ∧ log = concat ((λ co, componentLog co.1 co.2) <$> outs)
    ∧ (∀ s, LogStdout s ∈ log
            ↔ ∃ cn o, cn ∈ manifests.*1 ∧ out !! cn = Some o
                      ∧ ignoreError (Stderr o) = false ∧ Stdout o = s)
    ∧ (∀ s, LogErrorDetail s ∈ log
            ↔ ∃ cn o, cn ∈ manifests.*1 ∧ out !! cn = Some o
                      ∧ ignoreError (Stderr o) = false ∧ Stderr o = s)
    ∧ (∀ e, LogError e ∈ log
            ↔ ∃ cn o, cn ∈ manifests.*1 ∧ out !! cn = Some o
                      ∧ Err o = Some e).
Proof.
  intros Htree Hgen Happly Hcov.
  destruct (applyLoop_run manifests out false [] Hcov)
    as (outs & Hnames & Hlook & Hrun).
  simpl in Hrun.
  eexists _, _, outs. split; [exact Hrun|].
  assert (Hmem : ∀ cn o, cn ∈ manifests.*1 → out !! cn = Some o →
                         (cn, o) ∈ outs).
  { intros cn o Hcn Ho. rewrite <-Hnames in Hcn.
    apply list_elem_of_fmap in Hcn as ([cn' o'] & -> & Hin).
    rewrite Forall_forall in Hlook. specialize (Hlook _ Hin).
    simpl in *. by simplify_eq. }
  assert (Hmem' : ∀ cn o, (cn, o) ∈ outs →
                          cn ∈ manifests.*1 ∧ out !! cn = Some o).
  { intros cn o Hin. split.
    - rewrite <-Hnames. apply list_elem_of_fmap. by exists (cn, o).
    - rewrite Forall_forall in Hlook. by apply (Hlook (cn, o)). }
  assert (Hlog : ∀ (x : LogLine PErr) (P : ComponentApplyOutput PErr → Prop),
            (∀ cn o, x ∈ componentLog cn o ↔ P o) →
            x ∈ concat ((λ co, componentLog co.1 co.2) <$> outs)
            ↔ ∃ cn o, cn ∈ manifests.*1 ∧ out !! cn = Some o ∧ P o).
  { intros x P HP. rewrite elem_of_concat. split.
    - intros (l & Hx & Hl).
      apply list_elem_of_fmap in Hl as ([cn o] & -> & Hin).
      exists cn, o. destruct (Hmem' cn o Hin) as [? ?].
      split; [done|]. split; [done|]. by apply (HP cn o).
    - intros (cn & o & Hcn & Ho & Hp). exists (componentLog cn o).
      split; [by apply HP|]. apply list_elem_of_fmap.
      exists (cn, o). split; [done|]. by apply Hmem. }
  split; [|split; [|split; [|split; [|split; [|split; [|split;
    [|split; [|split; [|split]]]]]]]]].
  - rewrite existsb_exists. split.
    + intros ([cn o] & Hin & Hfail). exists cn, o.
      split; [rewrite <-Hnames; apply list_elem_of_fmap; by exists (cn, o);
              split; [|apply list_elem_of_In]|].
      rewrite Forall_forall in Hlook.
      split; [apply (Hlook (cn, o)); by apply list_elem_of_In|].
      unfold componentFailed in Hfail. simpl in Hfail.
      apply orb_true_iff in Hfail as [Hf|Hf].
      * left. by apply bool_decide_eq_true in Hf.
      * right. by apply negb_true_iff in Hf.
    + intros (cn & o & Hcn & Ho & Hfail). exists (cn, o).
      split; [apply list_elem_of_In; by apply Hmem|].
      unfold componentFailed. simpl. apply orb_true_iff.
      destruct Hfail as [Hf|Hf].
      * left. by apply bool_decide_eq_true.
      * right. by apply negb_true_iff.
  - unfold genApplyManifests. rewrite Htree, Hgen, Happly, Hrun. done.
  - intros Hin. apply elem_of_concat in Hin as (l & Hin & Hl).
    apply list_elem_of_fmap in Hl as ([cn o] & -> & _).
    by apply componentLog_no_banner in Hin.
  - intros cn o Hcn Ho. specialize (Hmem _ _ Hcn Ho).
    assert (Hsub : ∀ x, x ∈ componentLog cn o →
              x ∈ concat ((λ co, componentLog co.1 co.2) <$> outs)).
    { intros x Hx. apply elem_of_concat. exists (componentLog cn o).
      split; [done|]. apply list_elem_of_fmap. by exists (cn, o). }
    split.
    + intros e He. apply Hsub. unfold componentLog. rewrite He.
      apply elem_of_app. left. right. by left.
    + intros Hign. unfold componentLog in Hsub. rewrite Hign in Hsub.
      split; apply Hsub, elem_of_app; right; [by left|right; by left].
  - apply ignoreError_iff.
  - done.
  - done.
  - done.
  - intros s. apply (Hlog _ (λ o, ignoreError (Stderr o) = false
                                  ∧ Stdout o = s)).
    intros cn o. apply componentLog_members.
  - intros s. apply (Hlog _ (λ o, ignoreError (Stderr o) = false
                                  ∧ Stderr o = s)).
    intros cn o. apply componentLog_members.
  - intros e. apply (Hlog _ (λ o, Err o = Some e)).
    intros cn o. apply componentLog_members.
Qed.
End ManifestCommonFacts.

(** C2 as stated fails: in [failingRun] the component's apply returned an
    error, yet the caller of [genApplyManifests] receives the nil error, the
    very value it receives from [cleanRun]; no aggregate boolean reaches it.
    Nor is the detail of the failed component complete: its standard output
    is not printed, because its standard error is ignorable. *)
Lemma genApplyManifests_failure_not_returned :
  (∃ o, applyOutputs failingRun !! "Pilot" = Some o
        ∧ Err o = Some "timed out"
        ∧ Stdout o = "deployment.apps/istio-pilot created")
  ∧ genApplyManifests (H := simPipeline failingRun)
      [] EmptyString false false false EmptyString EmptyString 0
    = Done (None,
            [LogComponentErrors "Pilot"; LogError "timed out";
             LogErrorsBanner])
  ∧ genApplyManifests (H := simPipeline cleanRun)
      [] EmptyString false false false EmptyString EmptyString 0
    = Done (None, [LogComponentInstalled "Pilot"]).
Proof.
  split; [|split].
  - eexists. split; [vm_compute; reflexivity|]. split; reflexivity.
  - vm_compute. reflexivity.
  - vm_compute. reflexivity.
Qed.

Lemma genApplyManifests_marks_errors_witness :
  ∃ (gotError : bool) (log : list (LogLine string))
    (outs : list (string * ComponentApplyOutput string)),
    applyLoop (H := simPipeline failingRun)
      [("Pilot", EmptyString)] (applyOutputs failingRun) false []
      = Done (gotError, log)
    ∧ (gotError = true
       ↔ ∃ cn o, cn ∈ [("Pilot", EmptyString)].*1
                 ∧ applyOutputs failingRun !! cn = Some o
                 ∧ (is_Some (Err o) ∨ ignoreError (Stderr o) = false))
    ∧ genApplyManifests (H := simPipeline failingRun)
        [] EmptyString false false false EmptyString EmptyString 0
      = Done (None, if gotError then log ++ [LogErrorsBanner] else log)
    ∧ (LogErrorsBanner ∉ log)
    ∧ (∀ cn o, cn ∈ [("Pilot", EmptyString)].*1 →
         applyOutputs failingRun !! cn = Some o →
         (∀ e, Err o = Some e → LogError e ∈ log)
         ∧ (ignoreError (Stderr o) = false →
              (LogErrorDetail (Stderr o) ∈ log) ∧ LogStdout (Stdout o) ∈ log))
    ∧ (∀ stderr, ignoreError stderr = true
         ↔ strings_TrimSpace stderr = EmptyString
           ∨ ∃ p, p ∈ ignoreStdErrList
                  ∧ strings_HasPrefix (strings_TrimSpace stderr) p = true)
    ∧ outs.*1 = [("Pilot", EmptyString)].*1
    ∧ Forall (λ co, applyOutputs failingRun !! co.1 = Some co.2) outs
    ∧ log = concat ((λ co, componentLog co.1 co.2) <$> outs)
    ∧ (∀ s, LogStdout s ∈ log
            ↔ ∃ cn o, cn ∈ [("Pilot", EmptyString)].*1
                      ∧ applyOutputs failingRun !! cn = Some o
                      ∧ ignoreError (Stderr o) = false ∧ Stdout o = s)
    ∧ (∀ s, LogErrorDetail s ∈ log
            ↔ ∃ cn o, cn ∈ [("Pilot", EmptyString)].*1
                      ∧ applyOutputs failingRun !! cn = Some o
                      ∧ ignoreError (Stderr o) = false ∧ Stderr o = s)
    ∧ (∀ e, LogError e ∈ log
            ↔ ∃ cn o, cn ∈ [("Pilot", EmptyString)].*1
                      ∧ applyOutputs failingRun !! cn = Some o
                      ∧ Err o = Some e).
Proof.
  apply (genApplyManifests_marks_errors (H := simPipeline failingRun)
           [] EmptyString false false false EmptyString EmptyString 0
           EmptyString [("Pilot", EmptyString)] (applyOutputs failingRun)).
  - reflexivity.
  - reflexivity.
  - reflexivity.
  - intros cn Hcn. apply list_elem_of_singleton in Hcn as ->.
    vm_compute. eauto.
Defined.

(** *** [strings.LastIndex] of a byte *)

Lemma prefix_empty (s : string) : String.prefix EmptyString s = true.
Proof. by destruct s. Qed.

Lemma prefix_dash_cons (c : ascii) (s : string) :
  String.prefix "-" (String c s) = bool_decide ("-"%char = c).
Proof.
  change (String.prefix "-" (String c s))
    with (match ascii_dec "-" c with
          | left _ => String.prefix EmptyString s
          | right _ => false
          end).
  destruct (ascii_dec "-" c) as [Heq|Hne].
  - rewrite prefix_empty. by rewrite bool_decide_true.
  - by rewrite bool_decide_false.
Qed.

Lemma lastIndex_from_dash (s : string) (i found : Z) :
  let r := lastIndex_from i s "-" found in
  ("-"%char ∉ bytes s → r = found)
  ∧ ("-"%char ∈ bytes s → i ≤ r < i + len s).
Proof.
  revert i found. induction s as [|c s IH]; intros i found.
  - simpl. split; [done|]. by intros ?%elem_of_nil.
  - cbn zeta. cbn [lastIndex_from]. rewrite prefix_dash_cons.
    unfold bytes in *. cbn [String.list_ascii_of_string].
    unfold len in *. cbn [String.length].
    destruct (decide ("-"%char = c)) as [<-|Hne].
    + rewrite bool_decide_true by done.
      destruct (IH (i + 1) i) as [Habs Hpre]. cbn zeta in *.
      split; [intros Hn; exfalso; apply Hn; by left|].
      intros _.
      destruct (decide ("-"%char ∈ String.list_ascii_of_string s))
        as [Hin|Hnin].
      * specialize (Hpre Hin). lia.
      * rewrite (Habs Hnin). lia.
    + rewrite bool_decide_false by done.
      destruct (IH (i + 1) found) as [Habs Hpre]. cbn zeta in *.
      split.
      * intros Hn. apply Habs. intros Hin. apply Hn. by right.
      * intros Hin. apply elem_of_cons in Hin as [?|Hin]; [congruence|].
        specialize (Hpre Hin). lia.
Qed.

Lemma strings_LastIndex_absent (s : string) :
  "-"%char ∉ bytes s → strings_LastIndex s "-" = -1.
Proof.
  intros Hn. destruct (lastIndex_from_dash s 0 (-1)) as [Ha _].
  by apply Ha.
Qed.

Lemma strings_LastIndex_present (s : string) :
  "-"%char ∈ bytes s → 0 ≤ strings_LastIndex s "-" < len s.
Proof.
  intros Hin. destruct (lastIndex_from_dash s 0 (-1)) as [_ Hp].
  specialize (Hp Hin). unfold strings_LastIndex. lia.
Qed.

Section FetchFacts.
Context `{Pipeline}.

Lemma fetch_not_url (mergedICPS : IstioControlPlaneSpec) :
  IsHTTPURL (InstallPackagePath mergedICPS) = false →
  fetchInstallPackageFromURL mergedICPS = Done (None, mergedICPS).
Proof. unfold fetchInstallPackageFromURL. by intros ->. Qed.

Lemma fetch_total_with_dash (mergedICPS : IstioControlPlaneSpec) :
  "-"%char ∈ bytes (path_Base (InstallPackagePath mergedICPS)) →
  ∃ r, fetchInstallPackageFromURL mergedICPS = Done r.
Proof.
  intros Hdash. unfold fetchInstallPackageFromURL.
  destruct (IsHTTPURL _); [|eauto].
  destruct (NewURLFetcher _ _) as [e|uf]; [eauto|].
  destruct (FetchBundles uf); [eauto|].
  apply strings_LastIndex_present in Hdash.
  unfold str_slice_to. rewrite bool_decide_true by lia. eauto.
Qed.

Lemma fetch_rewrites (mergedICPS : IstioControlPlaneSpec)
    (uf : URLFetcher) :
  IsHTTPURL (InstallPackagePath mergedICPS) = true →
  NewURLFetcher (InstallPackagePath mergedICPS) EmptyString = inr uf →
  FetchBundles uf = None →
  "-"%char ∈ bytes (path_Base (InstallPackagePath mergedICPS)) →
  let isp := path_Base (InstallPackagePath mergedICPS) in
  let idx := strings_LastIndex isp "-" in
  0 ≤ idx < len isp
  ∧ fetchInstallPackageFromURL mergedICPS
    = Done (None,
            {| InstallPackagePath :=
                 filepath_Join
                   [DestDir uf; String.substring 0 (Z.to_nat idx) isp;
                    ChartsFilePath] |}).
Proof.
  intros Hurl Hnew Hfetch Hdash isp idx.
  apply strings_LastIndex_present in Hdash. split; [done|].
  unfold fetchInstallPackageFromURL. rewrite Hurl, Hnew, Hfetch.
  fold isp. fold idx. unfold str_slice_to.
  by rewrite bool_decide_true by (fold isp idx in Hdash; lia).
Qed.

Lemma fetch_panics_without_dash (mergedICPS : IstioControlPlaneSpec)
    (uf : URLFetcher) :
  IsHTTPURL (InstallPackagePath mergedICPS) = true →
  NewURLFetcher (InstallPackagePath mergedICPS) EmptyString = inr uf →
  FetchBundles uf = None →
  "-"%char ∉ bytes (path_Base (InstallPackagePath mergedICPS)) →
  strings_LastIndex (path_Base (InstallPackagePath mergedICPS)) "-" = -1
  ∧ fetchInstallPackageFromURL mergedICPS = Panicked.
Proof.
  intros Hurl Hnew Hfetch Hdash.
  apply strings_LastIndex_absent in Hdash. split; [done|].
  unfold fetchInstallPackageFromURL. rewrite Hurl, Hnew, Hfetch, Hdash.
  unfold str_slice_to. by rewrite bool_decide_false by lia.
Qed.
End FetchFacts.

(** C10.  [fetchInstallPackageFromURL] returns nil and leaves the spec as it
    is when [InstallPackagePath] is not an HTTP URL.  For a URL whose base
    name contains [-] it returns: an error of the fetch, or nil with the
    path rewritten to [DestDir/isp[:idx]/ChartsFilePath], [idx] being the
    index of the last [-].  For a URL that was fetched and whose base name
    contains no [-], [strings.LastIndex] is [-1] and [isp[:idx]] is out of
    range: the call panics, as it does on
    [https://example.com/charts.tar.gz]. *)
Theorem fetchInstallPackageFromURL_total_iff_dash :
  (∀ (P : Pipeline) (mergedICPS : IstioControlPlaneSpec),
     IsHTTPURL (InstallPackagePath mergedICPS) = false →
     fetchInstallPackageFromURL mergedICPS = Done (None, mergedICPS))
  ∧ (∀ (P : Pipeline) (mergedICPS : IstioControlPlaneSpec),
       "-"%char ∈ bytes (path_Base (InstallPackagePath mergedICPS)) →
       ∃ r, fetchInstallPackageFromURL mergedICPS = Done r)
  ∧ (∀ (P : Pipeline) (mergedICPS : IstioControlPlaneSpec) (uf : URLFetcher),
       IsHTTPURL (InstallPackagePath mergedICPS) = true →
       NewURLFetcher (InstallPackagePath mergedICPS) EmptyString = inr uf →
       FetchBundles uf = None →
       "-"%char ∈ bytes (path_Base (InstallPackagePath mergedICPS)) →
       let isp := path_Base (InstallPackagePath mergedICPS) in
       let idx := strings_LastIndex isp "-" in
       0 ≤ idx < len isp
       ∧ fetchInstallPackageFromURL mergedICPS
         = Done (None,
                 {| InstallPackagePath :=
                      filepath_Join
                        [DestDir uf; String.substring 0 (Z.to_nat idx) isp;
                         ChartsFilePath] |}))
  ∧ (∀ (P : Pipeline) (mergedICPS : IstioControlPlaneSpec) (uf : URLFetcher),
       IsHTTPURL (InstallPackagePath mergedICPS) = true →
       NewURLFetcher (InstallPackagePath mergedICPS) EmptyString = inr uf →
       FetchBundles uf = None →
       "-"%char ∉ bytes (path_Base (InstallPackagePath mergedICPS)) →
       strings_LastIndex (path_Base (InstallPackagePath mergedICPS)) "-" = -1
       ∧ fetchInstallPackageFromURL mergedICPS = Panicked)
  ∧ fetchInstallPackageFromURL (H := simPipeline cleanRun)
      {| InstallPackagePath := "https://example.com/charts.tar.gz" |}
    = Panicked.
Proof.
  split; [|split; [|split; [|split]]].
  - intros P. apply fetch_not_url.
  - intros P. apply fetch_total_with_dash.
  - intros P. apply fetch_rewrites.
  - intros P. apply fetch_panics_without_dash.
  - vm_compute. reflexivity.
Qed.

Lemma fetchInstallPackageFromURL_total_iff_dash_witness :
  fetchInstallPackageFromURL (H := simPipeline cleanRun)
    {| InstallPackagePath := "/var/lib/istio/charts" |}
    = Done (None, {| InstallPackagePath := "/var/lib/istio/charts" |})
  ∧ fetchInstallPackageFromURL (H := simPipeline cleanRun)
      {| InstallPackagePath :=
           "https://github.com/istio/istio/releases/download/1.3.0/istio-1.3.0-linux.tar.gz" |}
    = Done (None,
            {| InstallPackagePath :=
                 "/tmp/istio-install-packages/istio-1.3.0/install/kubernetes/operator/charts" |})
  ∧ fetchInstallPackageFromURL (H := simPipeline cleanRun)
      {| InstallPackagePath := "https://example.com/charts.tar.gz" |}
    = Panicked.
Proof.
  destruct fetchInstallPackageFromURL_total_iff_dash
    as (Hnot & _ & Hrw & Hpanic & _).
  split; [|split].
  - apply (Hnot (simPipeline cleanRun)). reflexivity.
  - apply (Hrw (simPipeline cleanRun)
             {| InstallPackagePath :=
                  "https://github.com/istio/istio/releases/download/1.3.0/istio-1.3.0-linux.tar.gz" |}
             "/tmp/istio-install-packages").
    + reflexivity.
    + reflexivity.
    + reflexivity.
    + apply (bool_decide_unpack _). vm_compute. exact I.
  - apply (Hpanic (simPipeline cleanRun)
             {| InstallPackagePath := "https://example.com/charts.tar.gz" |}
             "/tmp/istio-install-packages").
    + reflexivity.
    + reflexivity.
    + reflexivity.
    + apply (bool_decide_unpack _). vm_compute. exact I.
Defined.

(** ** Package [object]: cached renderings *)

Section ObjectModelFacts.
Context `{UnstructuredAPI} `{!Encoder}.

(** Copying a map entry by entry into [m0] gives the map, over [m0]. *)
Lemma map_fold_insert_union (m m0 : gmap string string) :
  map_fold (λ k v (acc : gmap string string), <[k:=v]> acc) m0 m = m ∪ m0.
Proof.
  apply (map_fold_weak_ind (λ r m, r = m ∪ m0)).
  - symmetry. apply (left_id_L ∅ (∪)).
  - intros i x m' r _ ->. apply insert_union_l.
Qed.

(** The labels [AddLabels] writes: the new ones, and the old ones under
    the other keys. *)
Lemma AddLabels_object (o : K8sObject) (labels : gmap string string) :
  object (AddLabels o labels)
  = u_SetLabels (object o) (labels ∪ u_GetLabels (object o)).
Proof.
  unfold AddLabels. simpl. rewrite !map_fold_insert_union.
  by rewrite (right_id_L ∅ (∪)).
Qed.

Lemma YAML_identity (o : K8sObject) : identityOf (YAML o).2 = identityOf o.
Proof.
  unfold YAML. destruct (yaml o); [done|].
  destruct (JSON o); [done|].
  destruct (yaml_JSONToYAML _); reflexivity.
Qed.

(** C8.  [AddLabels] clears both cached renderings, so that [JSON] and
    [YAML] called next render the object with the merged labels (the new
    labels, and the old ones under the other keys) instead of returning a
    stale cache; and no method, [AddLabels] included, changes group, kind,
    name or namespace. *)
Theorem AddLabels_invalidates_caches (o : K8sObject)
    (labels : gmap string string) :
  let merged := labels ∪ u_GetLabels (object o) in
  let o' := AddLabels o labels in
  json o' = None
  ∧ yaml o' = None
  ∧ object o' = u_SetLabels (object o) merged
  ∧ (∀ k, merged !! k = match labels !! k with
                        | Some v => Some v
                        | None => u_GetLabels (object o) !! k
                        end)
  ∧ JSON o' = u_MarshalJSON (u_SetLabels (object o) merged)
  ∧ (YAML o').1 = match u_MarshalJSON (u_SetLabels (object o) merged) with
                  | inl err => inl err
                  | inr oj => yaml_JSONToYAML oj
                  end
  ∧ ∀ m : Method, identityOf (afterMethod m o) = identityOf o.
Proof.
  cbn zeta. pose proof (AddLabels_object o labels) as Hobj.
  split; [done|]. split; [done|]. split; [done|].
  split.
  { intros k. rewrite lookup_union.
    destruct (labels !! k), (u_GetLabels (object o) !! k); done. }
  assert (HJ : JSON (AddLabels o labels)
               = u_MarshalJSON
                   (u_SetLabels (object o)
                      (labels ∪ u_GetLabels (object o)))).
  { unfold JSON. rewrite <-Hobj. done. }
  split; [done|]. split.
  - unfold YAML. rewrite HJ.
    change (yaml (AddLabels o labels)) with (@None string). cbn iota.
    destruct (u_MarshalJSON _); [done|].
    by destruct (yaml_JSONToYAML _).
  - intros [ | | | | | | | | l | ]; try done.
    + apply YAML_identity.
    + apply YAML_identity.
Qed.
End ObjectModelFacts.

(** ** Package [object]: parsing a multi-document manifest *)

Lemma String_append_cons (x : ascii) (a b : string) :
  String x a +:+ b = String x (a +:+ b).
Proof. reflexivity. Qed.

Lemma String_append_empty_l (a : string) : EmptyString +:+ a = a.
Proof. reflexivity. Qed.

Lemma String_append_assoc (a b c : string) :
  (a +:+ b) +:+ c = a +:+ (b +:+ c).
Proof.
  induction a as [|x a IH]; [done|].
  by rewrite !String_append_cons, IH.
Qed.

Lemma String_append_empty_r (a : string) : a +:+ EmptyString = a.
Proof.
  induction a as [|x a IH]; [done|]. by rewrite String_append_cons, IH.
Qed.

Lemma unlines_cons (line : string) (lines : list string) :
  unlines (line :: lines) = line +:+ String "010" "" +:+ unlines lines.
Proof.
  unfold unlines. rewrite fmap_cons.
  destruct lines as [|l lines].
  - cbn [fmap list_fmap String.concat]. by rewrite String_append_empty_r.
  - rewrite fmap_cons. cbn [String.concat].
    by rewrite String_append_empty_l, String_append_assoc.
Qed.

Lemma groupsOf_nonempty (lines : list string) : groupsOf lines ≠ [].
Proof.
  induction lines as [|l lines IH]; simpl; [done|].
  case_bool_decide; [done|]. by destruct (groupsOf lines).
Qed.

(** Cutting at the separator lines loses nothing but the separators. *)
Lemma ungroup_groupsOf (lines : list string) : ungroup (groupsOf lines) = lines.
Proof.
  induction lines as [|l lines IH]; simpl; [done|].
  pose proof (groupsOf_nonempty lines) as Hne.
  case_bool_decide as Hsep.
  - subst l. simpl. destruct (groupsOf lines) as [|g gs]; [done|].
    by rewrite IH.
  - destruct (groupsOf lines) as [|g gs]; [done|].
    destruct gs as [|g' gs]; simpl in *; by rewrite <-IH.
Qed.

(** No group contains a separator line. *)
Lemma groupsOf_no_separator (lines : list string) :
  Forall (λ g, "---" ∉ g) (groupsOf lines).
Proof.
  induction lines as [|l lines IH]; simpl.
  - constructor; [apply not_elem_of_nil|constructor].
  - case_bool_decide as Hsep.
    + constructor; [apply not_elem_of_nil|done].
    + destruct (groupsOf lines) as [|g gs].
      * constructor; [|constructor].
        apply not_elem_of_cons. split; [congruence|apply not_elem_of_nil].
      * inversion IH; subst. constructor; [|done].
        apply not_elem_of_cons. split; [congruence|done].
Qed.

(** The chunks are the groups of lines between the separator lines. *)
Lemma splitYAMLs_groups (lines : list string) (b : string)
    (yamls : list string) :
  splitYAMLs lines b yamls
  = yamls ++ match groupsOf lines with
             | g :: gs => (b +:+ unlines g) :: (unlines <$> gs)
             | [] => []
             end.
Proof.
  revert b yamls. induction lines as [|l lines IH]; intros b yamls; simpl.
  - unfold unlines. simpl. by rewrite String_append_empty_r.
  - case_bool_decide as Hsep.
    + rewrite IH. rewrite <-app_assoc. simpl.
      pose proof (groupsOf_nonempty lines) as Hne.
      destruct (groupsOf lines) as [|g gs]; [done|].
      unfold unlines at 1. simpl. by rewrite String_append_empty_r.
    + rewrite IH.
      pose proof (groupsOf_nonempty lines) as Hne.
      destruct (groupsOf lines) as [|g gs]; [done|].
      do 2 f_equal. rewrite unlines_cons.
      by rewrite !String_append_assoc.
Qed.

Lemma removeNonYAMLLines_loop_filter (lines : list string) (out : string) :
  removeNonYAMLLines_loop lines out
  = out +:+ unlines (filter (λ s, strings_HasPrefix s "#" = false) lines).
Proof.
  revert out. induction lines as [|s lines IH]; intros out; simpl.
  - unfold unlines. simpl. by rewrite String_append_empty_r.
  - destruct (strings_HasPrefix s "#") eqn:Hp.
    + rewrite filter_cons_False by congruence. apply IH.
    + rewrite filter_cons_True by done. rewrite IH, unlines_cons.
      by rewrite !String_append_assoc.
Qed.

(** Stripping a chunk: the lines beginning with [#] are dropped, then the
    text is trimmed. *)
Lemma removeNonYAMLLines_filter (yms : string) :
  removeNonYAMLLines yms
  = strings_TrimSpace
      (unlines (filter (λ s, strings_HasPrefix s "#" = false)
                       (strings_Split yms (String "010" "")))).
Proof.
  unfold removeNonYAMLLines. by rewrite removeNonYAMLLines_loop_filter.
Qed.

Section ParsingFacts.
Context `{UnstructuredAPI} `{!Decoder}.

Lemma parseYAMLs_fates (yamls : list string) (objects : list K8sObject)
    (log : list string) :
  parseYAMLs yamls objects log
  = (objects ++ omap parsedOf yamls, log ++ omap reportOf yamls).
Proof.
  revert objects log.
  induction yamls as [|y yamls IH]; intros objects log; simpl.
  { by rewrite !app_nil_r. }
  unfold parsedOf, reportOf, fateOf.
  case_bool_decide as Hblank; [apply IH|].
  destruct (ParseYAMLToK8sObject (removeNonYAMLLines y)) as [err|o].
  - rewrite IH. by rewrite <-app_assoc.
  - rewrite IH. by rewrite <-app_assoc.
Qed.

Lemma ParseK8sObjectsFromYAMLManifest_fates (manifest : string) :
  ParseK8sObjectsFromYAMLManifest manifest
  = (omap parsedOf (unlines <$> groupsOf (scanLines manifest)),
     None,
     omap reportOf (unlines <$> groupsOf (scanLines manifest))).
Proof.
  unfold ParseK8sObjectsFromYAMLManifest.
  rewrite splitYAMLs_groups, parseYAMLs_fates. simpl.
  pose proof (groupsOf_nonempty (scanLines manifest)) as Hne.
  destruct (groupsOf (scanLines manifest)) as [|g gs]; [done|].
  done.
Qed.
End ParsingFacts.

(** C6, as the code has it.  The manifest is cut at the lines that are
    exactly [---] (no line is lost, no chunk holds a separator); each chunk
    is stripped of its [#]-prefixed lines and trimmed; a chunk that is then
    blank is dropped without a message, a chunk that fails to parse is
    dropped with one logged message, every other chunk gives one object, in
    order; the returned error is always nil.  The scenario text gives
    exactly one object, valid, with [kind:name] identity [Deployment:x]
    (identity-index key [Deployment::x]); its second chunk is blank after
    stripping and gives no object, no error and no message. *)
Theorem ParseK8sObjectsFromYAMLManifest_skips :
  (∀ (U : UnstructuredAPI) (D : Decoder) (manifest : string),
     let groups := groupsOf (scanLines manifest) in
     let chunks := unlines <$> groups in
     ungroup groups = scanLines manifest
     ∧ Forall (λ g, "---" ∉ g) groups
     ∧ ParseK8sObjectsFromYAMLManifest manifest
       = (omap parsedOf chunks, None, omap reportOf chunks)
     ∧ (∀ chunk,
          removeNonYAMLLines chunk
          = strings_TrimSpace
              (unlines (filter (λ s, strings_HasPrefix s "#" = false)
                               (strings_Split chunk (String "010" ""))))
          ∧ (fateOf chunk = Blank ↔ removeNonYAMLLines chunk = EmptyString)
          ∧ (∀ err, fateOf chunk = Rejected err
               ↔ removeNonYAMLLines chunk ≠ EmptyString
                 ∧ ParseYAMLToK8sObject (removeNonYAMLLines chunk) = inl err)))
  ∧ (∃ o : K8sObject,
       ParseK8sObjectsFromYAMLManifest scenarioManifest = ([o], None, [])
       ∧ Valid o = true
       ∧ K8sObject_HashNameKind o = "Deployment:x"
       ∧ K8sObject_Hash o = "Deployment::x"
       ∧ unlines <$> groupsOf (scanLines scenarioManifest)
         = [ "kind: Deployment" +:+ String "010" (
             "metadata:" +:+ String "010" ("  name: x" +:+ String "010" ""));
             "# disabled" +:+ String "010" "" ]
       ∧ fateOf ("# disabled" +:+ String "010" "") = Blank).
Proof.
  split.
  - intros U D manifest groups chunks.
    split; [apply ungroup_groupsOf|].
    split; [apply groupsOf_no_separator|].
    split; [apply ParseK8sObjectsFromYAMLManifest_fates|].
    intros chunk. split; [apply removeNonYAMLLines_filter|].
    unfold fateOf. split.
    + case_bool_decide as Hb; [done|].
      destruct (ParseYAMLToK8sObject _); split; done.
    + intros err. case_bool_decide as Hb.
      * split; [done|]. by intros [? _].
      * destruct (ParseYAMLToK8sObject _) as [e|o]; split.
        -- intros [= ->]. done.
        -- intros [_ [= ->]]. done.
        -- done.
        -- by intros [_ ?].
  - eexists. split; [vm_compute; reflexivity|].
    repeat split; vm_compute; reflexivity.
Qed.

(** C6 as stated fails on "reporting each skip individually": the second
    chunk of the scenario text is skipped, and nothing is logged. *)
Lemma blank_chunk_skipped_silently :
  let chunks := unlines <$> groupsOf (scanLines scenarioManifest) in
  filter (λ c, isSkipped c = true) chunks = ["# disabled" +:+ String "010" ""]
  ∧ (ParseK8sObjectsFromYAMLManifest scenarioManifest).2 = [].
Proof. split; vm_compute; reflexivity. Qed.

(** A chunk the decoder refuses is skipped with one message, and the chunks
    after it are still parsed. *)
Example rejected_chunk_logged :
  let manifest :=
    "metadata:" +:+ String "010" (
    "  name: nokind" +:+ String "010" (
    "---" +:+ String "010" (
    "kind: Service" +:+ String "010" (
    "metadata:" +:+ String "010" (
    "  name: web" +:+ String "010" ""))))) in
  K8sObject_HashNameKind <$> (ParseK8sObjectsFromYAMLManifest manifest).1.1
    = ["Service:web"]
  ∧ (ParseK8sObjectsFromYAMLManifest manifest).1.2 = None
  ∧ length (ParseK8sObjectsFromYAMLManifest manifest).2 = 1%nat.
Proof. repeat split; vm_compute; reflexivity. Qed.

(** ** Package [object]: the apply order *)

(** *** The order of Go strings *)

Lemma String_compare_refl (s : string) : (s ?= s)%string = Eq.
Proof.
  induction s as [|c s IH]; simpl; [done|].
  unfold Ascii.compare. by rewrite N.compare_refl.
Qed.

Lemma String_ltb_irrefl (s : string) : String.ltb s s = false.
Proof. unfold String.ltb. by rewrite String_compare_refl. Qed.

Lemma String_ltb_le (a b : string) :
  String.ltb a b = true ↔ String.le a b ∧ a ≠ b.
Proof.
  unfold String.ltb, String.le, String.leb.
  destruct (a ?= b)%string eqn:Hc.
  - apply String.compare_eq_iff in Hc as ->. split; [done|]. by intros [_ ?].
  - split; [|done]. intros _. split; [done|]. intros ->.
    rewrite String_compare_refl in Hc. discriminate Hc.
  - split; [done|]. by intros [? _].
Qed.

Lemma String_ltb_trans (a b c : string) :
  String.ltb a b = true → String.ltb b c = true → String.ltb a c = true.
Proof.
  rewrite !String_ltb_le. intros [Hab Hne1] [Hbc Hne2]. split.
  - by etrans.
  - intros ->. apply Hne1. by apply (anti_symm String.le).
Qed.

Lemma String_ltb_total (a b : string) :
  String.ltb a b = false → String.ltb b a = false → a = b.
Proof.
  intros Hab Hba. destruct (decide (a = b)) as [|Hne]; [done|].
  destruct (total String.le a b) as [Hle|Hle].
  - assert (String.ltb a b = true) by (by apply String_ltb_le). congruence.
  - assert (String.ltb b a = true) by (by apply String_ltb_le). congruence.
Qed.

Lemma String_ltb_asym (a b : string) :
  String.ltb a b = true → String.ltb b a = false.
Proof.
  intros Hab. destruct (String.ltb b a) eqn:Hba; [|done].
  pose proof (String_ltb_trans _ _ _ Hab Hba) as Haa.
  by rewrite String_ltb_irrefl in Haa.
Qed.

(** *** Lexicographic orders *)

Lemma StrictTotal_Z : StrictTotal Z.ltb.
Proof.
  split; [|split].
  - intros a. apply Z.ltb_irrefl.
  - intros a b c ?%Z.ltb_lt ?%Z.ltb_lt. apply Z.ltb_lt. lia.
  - intros a b ?%Z.ltb_ge ?%Z.ltb_ge. lia.
Qed.

Lemma StrictTotal_string : StrictTotal String.ltb.
Proof.
  split; [|split].
  - apply String_ltb_irrefl.
  - apply String_ltb_trans.
  - apply String_ltb_total.
Qed.

Lemma StrictTotal_asym {A} (lt : A → A → bool) (a b : A) :
  StrictTotal lt → lt a b = true → lt b a = false.
Proof.
  intros (Hirr & Htrans & _) Hab.
  destruct (lt b a) eqn:Hba; [|done].
  pose proof (Htrans _ _ _ Hab Hba) as Haa. by rewrite Hirr in Haa.
Qed.

Lemma StrictTotal_lexLt {A B} `{EqDecision A} (ltA : A → A → bool)
    (ltB : B → B → bool) :
  StrictTotal ltA → StrictTotal ltB → StrictTotal (lexLt ltA ltB).
Proof.
  intros HA HB.
  pose proof HA as (HirrA & HtransA & HtotA).
  pose proof HB as (HirrB & HtransB & HtotB).
  unfold lexLt. split; [|split].
  - intros [a b]. simpl. by rewrite HirrA, HirrB, andb_false_r.
  - intros [a1 b1] [a2 b2] [a3 b3]. simpl.
    rewrite !orb_true_iff, !andb_true_iff, !bool_decide_eq_true.
    intros [H12|[-> H12]] [H23|[-> H23]].
    + left. by eapply HtransA.
    + by left.
    + by left.
    + right. split; [done|]. by eapply HtransB.
  - intros [a1 b1] [a2 b2]. simpl.
    rewrite !orb_false_iff, !andb_false_iff, !bool_decide_eq_false.
    intros [H12 H12'] [H21 H21'].
    assert (a1 = a2) as -> by (by apply HtotA).
    destruct H12' as [?|H12']; [done|]. destruct H21' as [?|H21']; [done|].
    f_equal. by apply HtotB.
Qed.

Lemma StrictTotal_keyLt : StrictTotal keyLt.
Proof.
  unfold keyLt.
  repeat apply StrictTotal_lexLt;
    auto using StrictTotal_Z, StrictTotal_string.
Qed.

(** A strict total order on keys, read through a key function, is a strict
    weak order. *)
Lemma StrictWeak_through_key {A K} (lt : K → K → bool) (key : A → K) :
  StrictTotal lt → StrictWeak (λ a b, lt (key a) (key b)).
Proof.
  intros Hst. pose proof Hst as (Hirr & Htrans & Htot).
  split; [|split].
  - intros a. apply Hirr.
  - intros a b c. apply Htrans.
  - intros a b c Hab Hbc.
    destruct (lt (key a) (key c)) eqn:Hac; [|done].
    destruct (lt (key b) (key a)) eqn:Hba.
    + pose proof (Htrans _ _ _ Hba Hac). congruence.
    + assert (key a = key b) as Heq by (by apply Htot).
      rewrite Heq in Hac. congruence.
Qed.

(** *** The insertion sort is within the contract of [sort.Slice] *)

Lemma StrictWeak_asym {A} (less : A → A → bool) (a b : A) :
  StrictWeak less → less a b = true → less b a = false.
Proof.
  intros (Hirr & Htrans & _) Hab.
  destruct (less b a) eqn:Hba; [|done].
  pose proof (Htrans _ _ _ Hab Hba) as Haa. by rewrite Hirr in Haa.
Qed.

Lemma insertLeft_Permutation {A} (less : A → A → bool) (x : A)
    (sorted : list A) :
  insertLeft less x sorted ≡ₚ x :: sorted.
Proof.
  induction sorted as [|y sorted IH]; simpl; [done|].
  destruct (less x y); [|done]. rewrite IH. apply perm_swap.
Qed.

Lemma insertLeft_sorted {A} (less : A → A → bool) (x : A)
    (sorted : list A) :
  StrictWeak less →
  StronglySorted (λ a b, less a b = false) sorted →
  StronglySorted (λ a b, less a b = false) (insertLeft less x sorted).
Proof.
  intros Hsw. pose proof Hsw as (Hirr & Htrans & Hneg).
  induction 1 as [|y sorted Hs IH Hy]; simpl.
  { repeat constructor. }
  destruct (less x y) eqn:Hxy.
  - constructor; [exact IH|].
    rewrite insertLeft_Permutation. constructor; [|done].
    by apply StrictWeak_asym.
  - constructor; [by constructor|]. constructor; [done|].
    eapply Forall_impl; [exact Hy|]. intros z Hyz. by eapply Hneg.
Qed.

Lemma insertionSort_go_Permutation {A} (less : A → A → bool)
    (sorted data : list A) :
  insertionSort_go less sorted data ≡ₚ sorted ++ data.
Proof.
  revert sorted. induction data as [|x data IH]; intros sorted; simpl.
  - by rewrite reverse_Permutation, app_nil_r.
  - rewrite IH, insertLeft_Permutation. simpl. apply Permutation_middle.
Qed.

Lemma StronglySorted_reverse {A} (R : relation A) (l : list A) :
  StronglySorted R l → StronglySorted (flip R) (reverse l).
Proof.
  induction 1 as [|x l Hs IH Hx]; [constructor|].
  rewrite reverse_cons. apply StronglySorted_app_2.
  - intros a b Ha ->%list_elem_of_singleton. unfold flip.
    rewrite Forall_forall in Hx. apply Hx. by apply elem_of_reverse.
  - done.
  - repeat constructor.
Qed.

Lemma insertionSort_go_sorted {A} (less : A → A → bool)
    (sorted data : list A) :
  StrictWeak less →
  StronglySorted (λ a b, less a b = false) sorted →
  InOrder less (insertionSort_go less sorted data).
Proof.
  intros Hsw. revert sorted.
  induction data as [|x data IH]; intros sorted Hs; simpl.
  - by apply (StronglySorted_reverse _ _ Hs).
  - apply IH. by apply insertLeft_sorted.
Qed.

Lemma insertionSorter_contract : SortContract insertionSorter.
Proof.
  intros A less l Hsw. split.
  - apply insertionSort_go_Permutation.
  - apply insertionSort_go_sorted; [done|constructor].
Qed.

Lemma reversingSorter_contract : SortContract reversingSorter.
Proof.
  intros A less l Hsw. split.
  - simpl. unfold insertionSort.
    by rewrite insertionSort_go_Permutation, reverse_Permutation.
  - apply insertionSort_go_sorted; [done|constructor].
Qed.

Section SortFacts.
Context `{UnstructuredAPI}.

(** [less] is the lexicographic order on (score, group, kind, name). *)
Lemma less_keyLt (score : K8sObject → Z) (a b : K8sObject) :
  less score a b
  = keyLt (nestKey (sortKey score a)) (nestKey (sortKey score b)).
Proof.
  unfold less, keyLt, lexLt, nestKey, sortKey. simpl.
  assert (bool_decide (score a = score b) = (score a =? score b)) as ->.
  { destruct (Z.eqb_spec (score a) (score b));
      [by rewrite bool_decide_true|by rewrite bool_decide_false]. }
  destruct (score a <? score b), (score a =? score b),
           (String.ltb (Group a) (Group b)),
           (bool_decide (Group a = Group b)),
           (String.ltb (Kind a) (Kind b)),
           (bool_decide (Kind a = Kind b)),
           (String.ltb (Name a) (Name b)); reflexivity.
Qed.

Lemma StrictWeak_less (score : K8sObject → Z) : StrictWeak (less score).
Proof.
  pose proof (StrictWeak_through_key keyLt
                (λ o, nestKey (sortKey score o)) StrictTotal_keyLt)
    as (Hirr & Htrans & Hneg).
  split; [|split].
  - intros a. rewrite less_keyLt. apply Hirr.
  - intros a b c. rewrite !less_keyLt. apply Htrans.
  - intros a b c. rewrite !less_keyLt. apply Hneg.
Qed.

(** Objects that [less] does not tell apart have the same score, group,
    kind and name, and conversely. *)
Lemma less_incomparable (score : K8sObject → Z) (a b : K8sObject) :
  less score a b = false ∧ less score b a = false
  ↔ sortKey score a = sortKey score b.
Proof.
  rewrite !less_keyLt.
  destruct StrictTotal_keyLt as (Hirr & _ & Htot). split.
  - intros [Hab Hba]. specialize (Htot _ _ Hab Hba).
    unfold nestKey, sortKey in *. simpl in Htot.
    injection Htot as -> -> -> ->. reflexivity.
  - intros ->. by rewrite Hirr.
Qed.

(** Among objects with pairwise distinct keys there is one sequence in
    order. *)
Lemma InOrder_unique (score : K8sObject → Z) (l1 l2 : list K8sObject) :
  (∀ a b, a ∈ l1 → b ∈ l1 → sortKey score a = sortKey score b → a = b) →
  InOrder (less score) l1 → InOrder (less score) l2 →
  l1 ≡ₚ l2 → l1 = l2.
Proof.
  intros Hkeys Hs1 Hs2 Hperm.
  apply (StronglySorted_unique_strong (λ a b, less score b a = false));
    [|done..].
  intros a b Ha Hb Hba Hab. apply Hkeys; [done|by rewrite Hperm|].
  by apply less_incomparable.
Qed.

(** C7, as the code has it.  The order of [Sort] (score, then group, then
    kind, then name) is a strict weak order: two objects are left
    unordered exactly when they agree on all four.  On a set whose
    distinct objects differ in score, group, kind or name it is total,
    there is one sequence in order, and [Sort] is idempotent: sorting a
    set that is in order gives the same sequence, whatever [sort.Slice]
    does within its contract. *)
Theorem Sort_order_and_idempotence `{!Sorter} (score : K8sObject → Z)
    (os : list K8sObject) :
  SortContract _ →
  StrictWeak (less score)
  ∧ (∀ a b, less score a b = false ∧ less score b a = false
            ↔ sortKey score a = sortKey score b)
  ∧ ((∀ a b, a ∈ os → b ∈ os →
             sortKey score a = sortKey score b → a = b) →
     (∀ a b, a ∈ os → b ∈ os → a ≠ b →
             less score a b = true ∨ less score b a = true)
     ∧ (InOrder (less score) os → Sort os score = os)
     ∧ Sort (Sort os score) score = Sort os score).
Proof.
  intros Hcontract.
  split; [apply StrictWeak_less|]. split; [apply less_incomparable|].
  intros Hkeys.
  assert (Hsort : ∀ l, Sort l score ≡ₚ l ∧ InOrder (less score) (Sort l score)).
  { intros l. apply Hcontract, StrictWeak_less. }
  split; [|split].
  - intros a b Ha Hb Hne.
    destruct (less score a b) eqn:Hab; [by left|].
    destruct (less score b a) eqn:Hba; [by right|].
    exfalso. apply Hne, Hkeys; [done..|]. by apply less_incomparable.
  - intros Hord. destruct (Hsort os) as [Hperm Hs].
    symmetry. by apply (InOrder_unique score).
  - destruct (Hsort os) as [Hperm Hs].
    destruct (Hsort (Sort os score)) as [Hperm2 Hs2].
    symmetry. apply (InOrder_unique score); [|done..].
    intros a b Ha Hb. rewrite Hperm in Ha, Hb. by apply Hkeys.
Qed.
End SortFacts.

(** C7 as stated fails on "a total order on the set's elements": two config
    maps of the same name in two namespaces are different objects with
    different identity keys, and [less] orders them neither way. *)
Lemma less_not_total :
  let a := configMapObject "istio-system" in
  let b := configMapObject "default" in
  a ≠ b
  ∧ Valid a = true ∧ Valid b = true
  ∧ K8sObject_Hash a ≠ K8sObject_Hash b
  ∧ less flatScore a b = false
  ∧ less flatScore b a = false.
Proof.
  cbn zeta. split; [|split; [|split; [|split; [|split]]]];
    try (vm_compute; reflexivity); intros Heq; vm_compute in Heq;
    discriminate Heq.
Qed.

Lemma Sort_order_and_idempotence_witness :
  let os := [deploymentNamed "pilot"; deploymentNamed "citadel"] in
  (∀ a b, a ∈ os → b ∈ os → a ≠ b →
          less flatScore a b = true ∨ less flatScore b a = true)
  ∧ (InOrder (less flatScore) os → Sort os flatScore = os)
  ∧ Sort (Sort os flatScore) flatScore = Sort os flatScore.
Proof.
  cbn zeta.
  apply (Sort_order_and_idempotence (H := treeUnstructured)
           (H0 := insertionSorter) flatScore
           [deploymentNamed "pilot"; deploymentNamed "citadel"]
           insertionSorter_contract).
  intros a b Ha Hb Hkey.
  apply elem_of_cons in Ha as [->|Ha%list_elem_of_singleton];
    apply elem_of_cons in Hb as [->|Hb%list_elem_of_singleton];
    subst; try reflexivity; vm_compute in Hkey; discriminate Hkey.
Defined.

(** On a set with two objects [less] leaves unordered, a sorter within the
    contract of [sort.Slice] need not be idempotent. *)
Example Sort_ties_not_idempotent :
  let a := configMapObject "istio-system" in
  let b := configMapObject "default" in
  SortContract reversingSorter
  ∧ Sort (H0 := reversingSorter) [a; b] flatScore = [b; a]
  ∧ Sort (H0 := reversingSorter)
         (Sort (H0 := reversingSorter) [a; b] flatScore) flatScore = [a; b].
Proof.
  cbn zeta. split; [apply reversingSorter_contract|].
  split; vm_compute; reflexivity.
Qed.

(** Three deployments out of order: the insertion sort puts them in order
    of name, and sorting again changes nothing. *)
Example Sort_by_name :
  let os := Sort (H0 := insertionSorter)
              [deploymentNamed "pilot"; deploymentNamed "citadel";
               deploymentNamed "galley"] flatScore in
  Name <$> os = ["citadel"; "galley"; "pilot"]
  ∧ Sort (H0 := insertionSorter) os flatScore = os.
Proof. cbn zeta. split; vm_compute; reflexivity. Qed.

(** ** Package [object]: select and ignore *)

Section FilterFacts.
Context `{RegexpEngine}.
Context {V : Type}.

Lemma selectLoop_run (ak : string) (av : V) (sm : list (string * string))
    (aosm : gmap string V) :
  Forall patternCompiles sm.*1 →
  selectLoop ak av sm aosm
  = inr (if anyMatches sm.*1 ak then <[ak := av]> aosm else aosm).
Proof.
  revert aosm. induction sm as [|[selected path] sm IH]; intros aosm Hc.
  { done. }
  rewrite fmap_cons in Hc. apply Forall_cons in Hc as [[re Hre] Hc].
  simpl. unfold patternMatches. simpl in Hre. rewrite Hre.
  rewrite IH by done. fold (anyMatches sm.*1 ak).
  destruct (MatchString re ak); simpl; [|done].
  destruct (anyMatches sm.*1 ak); [|done]. by rewrite insert_insert_eq.
Qed.

Lemma ignoreLoop_run (ak : string) (im : list (string * string))
    (aosm : gmap string V) :
  Forall patternCompiles im.*1 →
  ignoreLoop ak im aosm
  = inr (if anyMatches im.*1 ak then delete ak aosm else aosm).
Proof.
  revert aosm. induction im as [|[ignored path] im IH]; intros aosm Hc.
  { done. }
  rewrite fmap_cons in Hc. apply Forall_cons in Hc as [[re Hre] Hc].
  simpl. unfold patternMatches. simpl in Hre. rewrite Hre.
  rewrite IH by done. fold (anyMatches im.*1 ak).
  destruct (MatchString re ak); simpl; [|done].
  destruct (anyMatches im.*1 ak); [|done]. by rewrite delete_delete_eq.
Qed.

Lemma filterResource_loop_run (aom : list (string * V))
    (sm im : list (string * string)) (aosm : gmap string V) :
  Forall patternCompiles sm.*1 →
  Forall patternCompiles im.*1 →
  NoDup aom.*1 →
  ∃ aosm',
    filterResource_loop aom sm im aosm = inr aosm'
    ∧ ∀ k, aosm' !! k
           = match assoc k aom with
             | Some v =>
                 if anyMatches im.*1 k then None
                 else if anyMatches sm.*1 k then Some v else aosm !! k
             | None => aosm !! k
             end.
Proof.
  intros Hsm Him. revert aosm.
  induction aom as [|[ak av] aom IH]; intros aosm Hnd.
  { exists aosm. by split. }
  rewrite fmap_cons in Hnd. apply NoDup_cons in Hnd as [Hak Hnd].
  simpl. rewrite selectLoop_run, ignoreLoop_run by done.
  set (a1 := if anyMatches sm.*1 ak then <[ak := av]> aosm else aosm).
  set (a2 := if anyMatches im.*1 ak then delete ak a1 else a1).
  destruct (IH a2 Hnd) as (aosm' & Hrun & Hlook).
  exists aosm'. split; [done|].
  intros k. rewrite Hlook. case_bool_decide as Hk.
  - subst k.
    assert (assoc ak aom = None) as ->.
    { clear -Hak. induction aom as [|[k' v'] aom IH]; [done|].
      simpl. rewrite fmap_cons in Hak.
      apply not_elem_of_cons in Hak as [Hne Hak].
      rewrite bool_decide_false by done. by apply IH. }
    unfold a2, a1.
    destruct (anyMatches im.*1 ak), (anyMatches sm.*1 ak);
      by rewrite ?lookup_delete_eq, ?lookup_insert_eq.
  - assert (a2 !! k = aosm !! k) as ->; [|done].
    unfold a2, a1.
    destruct (anyMatches im.*1 ak), (anyMatches sm.*1 ak);
      by rewrite ?lookup_delete_ne, ?lookup_insert_ne by done.
Qed.

Lemma assoc_elem_of (k : string) (v : V) (l : list (string * V)) :
  NoDup l.*1 → assoc k l = Some v ↔ (k, v) ∈ l.
Proof.
  induction l as [|[k' v'] l IH]; intros Hnd; simpl.
  { split; [done|]. by intros ?%elem_of_nil. }
  rewrite fmap_cons in Hnd. apply NoDup_cons in Hnd as [Hk' Hnd].
  case_bool_decide as Hk.
  - subst k'. split.
    + intros [= ->]. by left.
    + intros Hin. apply elem_of_cons in Hin as [[= ->]|Hin]; [done|].
      exfalso. apply Hk'. apply list_elem_of_fmap. by exists (k, v).
  - rewrite IH by done. split.
    + intros Hin. by right.
    + intros Hin. apply elem_of_cons in Hin as [[= -> ->]|Hin]; done.
Qed.

(** C4, as the code has it.  When the patterns compile the filter
    returns, and a key is in the result, with its object, exactly when it
    is in the index, matches at least one select pattern and matches no
    ignore pattern: a key that is both selected and ignored is removed.
    Nothing is ever retained without a matching select pattern, so with
    no select pattern the result is empty, whatever the ignore patterns
    are. *)
Theorem filterResourceWithSelectAndIgnore_keys (aom : list (string * V))
    (sm im : list (string * string)) :
  Forall patternCompiles sm.*1 →
  Forall patternCompiles im.*1 →
  NoDup aom.*1 →
  ∃ aosm,
    filterResourceWithSelectAndIgnore aom sm im = inr aosm
    ∧ (∀ k v, aosm !! k = Some v
              ↔ (k, v) ∈ aom
                ∧ (∃ s, s ∈ sm.*1 ∧ patternMatches s k = true)
                ∧ ¬ (∃ i, i ∈ im.*1 ∧ patternMatches i k = true))
    ∧ (sm = [] → aosm = ∅).
Proof.
  intros Hsm Him Hnd.
  destruct (filterResource_loop_run aom sm im ∅ Hsm Him Hnd)
    as (aosm & Hrun & Hlook).
  exists aosm. split; [done|].
  assert (Hany : ∀ ps k, anyMatches ps k = true
                         ↔ ∃ p, p ∈ ps ∧ patternMatches p k = true).
  { intros ps k. unfold anyMatches. rewrite existsb_exists.
    by setoid_rewrite list_elem_of_In. }
  assert (Hchar : ∀ k v, aosm !! k = Some v
              ↔ (k, v) ∈ aom
                ∧ (∃ s, s ∈ sm.*1 ∧ patternMatches s k = true)
                ∧ ¬ (∃ i, i ∈ im.*1 ∧ patternMatches i k = true)).
  { intros k v. rewrite Hlook, lookup_empty.
    rewrite <-assoc_elem_of by done.
    destruct (assoc k aom) as [v'|] eqn:Ha.
    2: { split; [done|]. by intros [? _]. }
    destruct (anyMatches im.*1 k) eqn:Hi.
    { split; [done|]. intros (_ & _ & Hn). exfalso. apply Hn.
      by apply Hany. }
    destruct (anyMatches sm.*1 k) eqn:Hs.
    - split.
      + intros [= ->]. split; [done|]. split; [by apply Hany|].
        intros Hc%Hany. congruence.
      + by intros [? _].
    - split; [done|]. intros (_ & Hc%Hany & _). congruence. }
  split; [done|].
  intros ->. apply map_eq. intros k. rewrite lookup_empty.
  destruct (aosm !! k) as [v|] eqn:Hk; [|done].
  apply Hchar in Hk as (_ & (s & Hs & _) & _). by apply elem_of_nil in Hs.
Qed.
End FilterFacts.

(** C4 as stated fails on the empty select set: the result is not the index
    less the ignored keys, it is empty. *)
Lemma filter_without_select_is_empty :
  filterResourceWithSelectAndIgnore (H := fragRegexp) sampleIndex [] []
    = inr ∅
  ∧ filterResourceWithSelectAndIgnore (H := fragRegexp) sampleIndex []
      [("Service:*:*", EmptyString)]
    = inr ∅
  ∧ (list_to_map sampleIndex : gmap string string) ≠ ∅.
Proof.
  split; [vm_compute; reflexivity|]. split; [vm_compute; reflexivity|].
  intros Heq.
  assert ((list_to_map sampleIndex : gmap string string)
            !! "Service:istio-system:pilot" = Some "pilot service") as Hl
    by (vm_compute; reflexivity).
  rewrite Heq in Hl. by rewrite lookup_empty in Hl.
Qed.

Lemma filterResourceWithSelectAndIgnore_keys_witness :
  ∃ aosm,
    filterResourceWithSelectAndIgnore (H := fragRegexp) sampleIndex
      [("Deployment:*:*", EmptyString)] [("*:*:galley", EmptyString)]
      = inr aosm
    ∧ (∀ k v, aosm !! k = Some v
              ↔ (k, v) ∈ sampleIndex
                ∧ (∃ s, s ∈ [("Deployment:*:*", EmptyString)].*1
                        ∧ patternMatches s k = true)
                ∧ ¬ (∃ i, i ∈ [("*:*:galley", EmptyString)].*1
                          ∧ patternMatches i k = true))
    ∧ ([("Deployment:*:*", EmptyString)] = [] → aosm = ∅).
Proof.
  apply (filterResourceWithSelectAndIgnore_keys (H := fragRegexp)
           sampleIndex [("Deployment:*:*", EmptyString)]
           [("*:*:galley", EmptyString)]).
  - repeat constructor. eexists. vm_compute. reflexivity.
  - repeat constructor. eexists. vm_compute. reflexivity.
  - apply (bool_decide_unpack _). vm_compute. exact I.
Defined.

(** Select the deployments, ignore galley: the pilot deployment is what is
    left. *)
Example filter_select_then_ignore :
  filterResourceWithSelectAndIgnore (H := fragRegexp) sampleIndex
    [("Deployment:*:*", EmptyString)] [("*:*:galley", EmptyString)]
  = inr {[ "Deployment:istio-system:pilot" := "pilot deployment" ]}.
Proof. vm_compute. reflexivity. Qed.

(** ** Package [object]: rename *)

Section RenameFacts.
Context `{RegexpEngine}.
Context {V : Type}.

Lemma renamedKey_components (name toPat k ns n k' ns' n' : string) :
  strings_Split name ":" = [k; ns; n] →
  strings_Split toPat ":" = [k'; ns'; n'] →
  renamedKey name toPat
  = inr (strings_Join [pick k k'; pick ns ns'; pick n n'] ":").
Proof. unfold renamedKey. by intros -> ->. Qed.

Lemma renamedKey_total (name toPat : string) :
  threeComponents name → threeComponents toPat →
  ∃ tk, renamedKey name toPat = inr tk.
Proof.
  unfold threeComponents, renamedKey. intros -> ->.
  rewrite !bool_decide_false by (intros Hne; by apply Hne). eauto.
Qed.

Lemma rewrites_cons_matching (fromPat toPat : string)
    (rnm : list (string * string)) (name tk k : string) :
  patternMatches fromPat name = true →
  renamedKey name toPat = inr tk →
  rewrites ((fromPat, toPat) :: rnm) name k ↔ k = tk ∨ rewrites rnm name k.
Proof.
  intros Hm Hk. unfold rewrites. split.
  - intros (f & t & Hin & Hfm & Hr).
    apply elem_of_cons in Hin as [[= -> ->]|Hin].
    + left. congruence.
    + right. by exists f, t.
  - intros [->|(f & t & Hin & Hfm & Hr)].
    + exists fromPat, toPat. split; [by left|done].
    + exists f, t. split; [by right|done].
Qed.

Lemma rewrites_cons_other (fromPat toPat : string)
    (rnm : list (string * string)) (name k : string) :
  patternMatches fromPat name = false →
  rewrites ((fromPat, toPat) :: rnm) name k ↔ rewrites rnm name k.
Proof.
  intros Hm. unfold rewrites. split.
  - intros (f & t & Hin & Hfm & Hr).
    apply elem_of_cons in Hin as [[= -> ->]|Hin]; [congruence|].
    by exists f, t.
  - intros (f & t & Hin & Hfm & Hr). exists f, t. split; [by right|done].
Qed.

Lemma anyMatches_cons (p : string) (ps : list string) (k : string) :
  anyMatches (p :: ps) k = patternMatches p k || anyMatches ps k.
Proof. reflexivity. Qed.

(** The rule loop for one key: every key a matching rule rewrites [name]
    to is bound to [obj], the other keys are as before, and [isRenamed]
    tells whether a rule matched. *)
Lemma renameRules_run (name : string) (obj : V)
    (rnm : list (string * string)) (oom oom' : gmap string V)
    (isRenamed isRenamed' : bool) :
  renameRules name obj rnm oom isRenamed = inr (oom', isRenamed') →
  (∀ k, (rewrites rnm name k ∧ oom' !! k = Some obj)
        ∨ (¬ rewrites rnm name k ∧ oom' !! k = oom !! k))
  ∧ isRenamed' = isRenamed || anyMatches rnm.*1 name
  ∧ (anyMatches rnm.*1 name = true → ∃ k, rewrites rnm name k).
Proof.
  revert oom isRenamed.
  induction rnm as [|[fromPat toPat] rnm IH]; intros oom b.
  { simpl. intros [= <- <-]. split; [|split].
    - intros k. right. split; [|done].
      intros (f & t & Hin & _). by apply elem_of_nil in Hin.
    - by rewrite orb_false_r.
    - done. }
  cbn [renameRules]. rewrite fmap_cons. cbn [fst].
  rewrite anyMatches_cons.
  destruct (buildResourceRegexp (strings_TrimSpace fromPat))
    as [err|fromRe] eqn:Hre; [done|].
  assert (patternMatches fromPat name = MatchString fromRe name) as Hpm.
  { unfold patternMatches. by rewrite Hre. }
  rewrite Hpm.
  destruct (MatchString fromRe name) eqn:Hm.
  - destruct (renamedKey name toPat) as [err|tk] eqn:Htk; [done|].
    intros Hrun. destruct (IH _ _ Hrun) as (Hlook & Hb & Hex).
    split; [|split].
    + intros k. destruct (Hlook k) as [[Hr Hk]|[Hr Hk]].
      * left. split; [|done]. apply (rewrites_cons_matching _ _ _ _ tk);
          [done..|by right].
      * destruct (decide (k = tk)) as [->|Hne].
        -- left. split.
           ++ apply (rewrites_cons_matching _ _ _ _ tk); [done..|by left].
           ++ by rewrite Hk, lookup_insert_eq.
        -- right. split.
           ++ intros Hc.
              apply (rewrites_cons_matching _ _ _ _ tk) in Hc
                as [?|?]; done.
           ++ by rewrite Hk, lookup_insert_ne.
    + rewrite Hb. by rewrite !orb_true_r.
    + intros _. exists tk.
      apply (rewrites_cons_matching _ _ _ _ tk); [done..|by left].
  - intros Hrun. destruct (IH _ _ Hrun) as (Hlook & Hb & Hex).
    split; [|split].
    + intros k. rewrite rewrites_cons_other by done. apply Hlook.
    + done.
    + cbn [orb]. intros Hany. destruct (Hex Hany) as [k Hk]. exists k.
      by apply rewrites_cons_other.
Qed.

Lemma anyMatches_false_unmatched (rnm : list (string * string))
    (name : string) :
  anyMatches rnm.*1 name = false ↔ unmatched rnm name.
Proof.
  unfold unmatched. induction rnm as [|[f t] rnm IH].
  { split; [|done]. intros _ ?? Hin. by apply elem_of_nil in Hin. }
  rewrite fmap_cons, anyMatches_cons, orb_false_iff, IH. simpl. split.
  - intros [Hf Hrest] f' t' Hin.
    apply elem_of_cons in Hin as [[= -> ->]|Hin]; [done|]. by eapply Hrest.
  - intros Hall. split; [apply (Hall f t); by left|].
    intros f' t' Hin. apply (Hall f' t'). by right.
Qed.

Lemma unmatched_no_rewrite (rnm : list (string * string))
    (name k : string) :
  unmatched rnm name → ¬ rewrites rnm name k.
Proof.
  intros Hun (f & t & Hin & Hm & _). rewrite (Hun f t Hin) in Hm.
  discriminate Hm.
Qed.

(** The index loop: what is bound at the end was bound at the start or is
    put there by an entry of the index. *)
Lemma renameResource_loop_run (iom : list (string * V))
    (rnm : list (string * string)) (oom oom' : gmap string V) :
  renameResource_loop iom rnm oom = inr oom' →
  (∀ k, is_Some (oom' !! k)
        ↔ is_Some (oom !! k)
          ∨ ∃ name obj, (name, obj) ∈ iom ∧ contributes rnm name k)
  ∧ (∀ k v, oom' !! k = Some v →
            oom !! k = Some v
            ∨ ∃ name, (name, v) ∈ iom ∧ contributes rnm name k).
Proof.
  revert oom. induction iom as [|[name obj] iom IH]; intros oom; simpl.
  { intros [= <-]. split.
    - intros k. split; [by left|].
      intros [?|(n & o & Hin & _)]; [done|]. by apply elem_of_nil in Hin.
    - intros k v ?. by left. }
  destruct (renameRules name obj rnm oom false) as [err|[oom1 b1]] eqn:Hr;
    [done|].
  apply renameRules_run in Hr as (Hlook & Hb & Hex). simpl in Hb.
  set (oom2 := if negb b1 then <[name := obj]> oom1 else oom1).
  assert (Hstep : ∀ k, (contributes rnm name k ∧ oom2 !! k = Some obj)
                       ∨ (¬ contributes rnm name k ∧ oom2 !! k = oom !! k)).
  { intros k. unfold oom2, contributes. destruct b1; simpl.
    - symmetry in Hb. destruct (Hlook k) as [[Hrw Hk]|[Hrw Hk]].
      + left. split; [by left|done].
      + right. split; [|done]. intros [?|[Hun _]]; [done|].
        apply anyMatches_false_unmatched in Hun. congruence.
    - symmetry in Hb. apply anyMatches_false_unmatched in Hb.
      destruct (Hlook k) as [[Hrw Hk]|[Hrw Hk]].
      { by apply unmatched_no_rewrite in Hrw. }
      destruct (decide (k = name)) as [->|Hne].
      + left. split; [by right|]. by rewrite lookup_insert_eq.
      + right. split.
        * intros [?|[_ ?]]; done.
        * by rewrite lookup_insert_ne. }
  intros Hrun. destruct (IH _ Hrun) as [Hdom Hval]. split.
  - intros k. rewrite Hdom. split.
    + intros [Hs|(n & o & Hin & Hc)].
      * destruct (Hstep k) as [[Hc Hk]|[Hc Hk]].
        -- right. exists name, obj. split; [by left|done].
        -- left. by rewrite <-Hk.
      * right. exists n, o. split; [by right|done].
    + intros [Hs|(n & o & Hin & Hc)].
      * destruct (Hstep k) as [[Hc Hk]|[Hc Hk]].
        -- left. by rewrite Hk.
        -- left. by rewrite Hk.
      * apply elem_of_cons in Hin as [[= -> ->]|Hin].
        -- left. destruct (Hstep k) as [[_ Hk]|[? _]]; [|done].
           by rewrite Hk.
        -- right. by exists n, o.
  - intros k v Hk. destruct (Hval k v Hk) as [Hk2|(n & Hin & Hc)].
    + destruct (Hstep k) as [[Hc Hk']|[Hc Hk']].
      * right. exists name. split; [|done].
        rewrite Hk' in Hk2. injection Hk2 as <-. by left.
      * left. by rewrite <-Hk'.
    + right. exists n. split; [by right|done].
Qed.

Lemma renameRules_total (name : string) (obj : V)
    (rnm : list (string * string)) (oom : gmap string V) (b : bool) :
  Forall (λ r, patternCompiles r.1 ∧ threeComponents r.2) rnm →
  threeComponents name →
  ∃ r, renameRules name obj rnm oom b = inr r.
Proof.
  intros Hrules Hname. revert oom b.
  induction Hrules as [|[f t] rnm [[re Hre] Ht] _ IH]; intros oom b; simpl.
  { eauto. }
  simpl in Hre. rewrite Hre. destruct (MatchString re name); [|apply IH].
  destruct (renamedKey_total name t Hname Ht) as [tk ->]. apply IH.
Qed.

Lemma renameResource_loop_total (iom : list (string * V))
    (rnm : list (string * string)) (oom : gmap string V) :
  Forall (λ r, patternCompiles r.1 ∧ threeComponents r.2) rnm →
  Forall threeComponents iom.*1 →
  ∃ oom', renameResource_loop iom rnm oom = inr oom'.
Proof.
  intros Hrules. revert oom.
  induction iom as [|[name obj] iom IH]; intros oom Hkeys; simpl.
  { eauto. }
  rewrite fmap_cons in Hkeys. apply Forall_cons in Hkeys as [Hname Hkeys].
  destruct (renameRules_total name obj rnm oom false Hrules Hname)
    as [[oom1 b1] ->].
  by apply IH.
Qed.

(** C3, as the code has it.  With rules whose patterns compile and keys
    and targets of three components, [renameResource] returns, and the
    keys of its result are: for every key of the index, the key each
    matching rule rewrites it to (every matching rule, not the first
    only; each rewrites the original key, a "to" component that is empty
    or [*] keeping the original component), or the key itself when no
    rule matches.  The object under an output key is the object of a key
    of the index that puts it there. *)
Theorem renameResource_every_matching_rule (iom : list (string * V))
    (rnm : list (string * string)) :
  Forall (λ r, patternCompiles r.1 ∧ threeComponents r.2) rnm →
  Forall threeComponents iom.*1 →
  ∃ oom,
    renameResource iom rnm = inr oom
    ∧ (∀ k, is_Some (oom !! k)
            ↔ ∃ name obj, (name, obj) ∈ iom ∧ contributes rnm name k)
    ∧ (∀ k v, oom !! k = Some v →
              ∃ name, (name, v) ∈ iom ∧ contributes rnm name k)
    ∧ (∀ name toPat k ns n k' ns' n',
         strings_Split name ":" = [k; ns; n] →
         strings_Split toPat ":" = [k'; ns'; n'] →
         renamedKey name toPat
         = inr (strings_Join [pick k k'; pick ns ns'; pick n n'] ":")).
Proof.
  intros Hrules Hkeys.
  destruct (renameResource_loop_total iom rnm ∅ Hrules Hkeys)
    as [oom Hrun].
  exists oom. split; [done|].
  destruct (renameResource_loop_run _ _ _ _ Hrun) as [Hdom Hval].
  split; [|split].
  - intros k. rewrite Hdom, lookup_empty. split.
    + intros [[? Hx]|?]; [discriminate Hx|done].
    + intros ?. by right.
  - intros k v Hk. destruct (Hval k v Hk) as [Hx|?]; [|done].
    rewrite lookup_empty in Hx. discriminate Hx.
  - intros. by apply renamedKey_components.
Qed.
End RenameFacts.

(** C3 as stated fails on "only the first matching rule rewrites the key":
    both rules match [Deployment:ns:old], both rewrite it, and the one input
    key gives two output keys, where the first matching rule alone would
    give [Deployment:ns:new] only. *)
Lemma renameResource_applies_every_matching_rule :
  renameResource (H := fragRegexp)
    [("Deployment:ns:old", "the deployment")] overlappingRules
  = inr {[ "Deployment:ns:new" := "the deployment";
           "Deployment:other:old" := "the deployment" ]}
  ∧ firstMatchKey (H := fragRegexp) "Deployment:ns:old" overlappingRules
    = inr "Deployment:ns:new"
  ∧ size ({[ "Deployment:ns:new" := "the deployment";
             "Deployment:other:old" := "the deployment" ]}
            : gmap string string) = 2%nat.
Proof. repeat split; vm_compute; reflexivity. Qed.

Lemma renameResource_every_matching_rule_witness :
  ∃ oom,
    renameResource (H := fragRegexp)
      [("Deployment:ns:old", "the deployment");
       ("Service:ns:web", "the service")]
      [("Deployment:*:old", "Deployment:*:new")] = inr oom
    ∧ (∀ k, is_Some (oom !! k)
            ↔ ∃ name obj,
                (name, obj) ∈ [("Deployment:ns:old", "the deployment");
                               ("Service:ns:web", "the service")]
                ∧ contributes [("Deployment:*:old", "Deployment:*:new")]
                              name k)
    ∧ (∀ k v, oom !! k = Some v →
              ∃ name,
                (name, v) ∈ [("Deployment:ns:old", "the deployment");
                             ("Service:ns:web", "the service")]
                ∧ contributes [("Deployment:*:old", "Deployment:*:new")]
                              name k)
    ∧ (∀ name toPat k ns n k' ns' n',
         strings_Split name ":" = [k; ns; n] →
         strings_Split toPat ":" = [k'; ns'; n'] →
         renamedKey name toPat
         = inr (strings_Join [pick k k'; pick ns ns'; pick n n'] ":")).
Proof.
  apply (renameResource_every_matching_rule (H := fragRegexp)
           [("Deployment:ns:old", "the deployment");
            ("Service:ns:web", "the service")]
           [("Deployment:*:old", "Deployment:*:new")]).
  - repeat constructor. eexists. vm_compute. reflexivity.
  - repeat constructor.
Defined.

(** The scenario of the rename rule [Deployment:*:old->Deployment:*:new]:
    [Deployment:ns:old] becomes [Deployment:ns:new], a key the rule does
    not match is untouched. *)
Example rename_scenario :
  let rnm := map_to_list (getKeyValueMap "Deployment:*:old->Deployment:*:new") in
  rnm = [("Deployment:*:old", "Deployment:*:new")]
  ∧ renameResource (H := fragRegexp)
      [("Deployment:ns:old", "the deployment");
       ("Service:ns:web", "the service")] rnm
    = inr {[ "Deployment:ns:new" := "the deployment";
             "Service:ns:web" := "the service" ]}.
Proof. cbn zeta. split; vm_compute; reflexivity. Qed.

(** * Further properties of the code *)

(** ** The set-based controller: every run *)

Section SetRunFacts.
Context `{Cluster}.

(** Every run of the set-based [Reconcile] returns, and is one of six
    runs. *)
Lemma set_Reconcile_runs (w : World) :
  ∃ (r : option Error) (w' : World) (tr : list Event),
    SetController.Reconcile w = (Done r, w', tr) ∧ SetRun tr r.
Proof.
  unfold SetController.Reconcile.
  unfold bind at 1. unfold Get at 1.
  destruct (client_Get w) as [[err|icp] w1] eqn:Hget.
  { cbn iota beta. pose proof (SetRun_fetch_failed err) as Hr.
    destruct (IsNotFound err); eexists _, _, _; (split; [reflexivity|done]). }
  cbn iota beta. fold (isDeleting icp).
  rewrite sets_Has_NewString.
  destruct (isDeleting icp) eqn:Hdel;
    destruct (decide (finalizer ∈ finalizers icp)) as [Htok|Htok].
  - rewrite bool_decide_true by done. cbn [negb].
    set (u0 := SetFinalizers icp
                 (sets_List (sets_Delete (sets_NewString (finalizers icp))
                                         finalizer))).
    unfold bind at 1. unfold New at 1.
    destruct (factory_New icp w1) as [[e|rc] w2] eqn:Hnew.
    + unfold bind at 1, ret at 1.
      destruct (set_persist_removal u0 (Some e) w2)
        as (e0 & rounds & w' & Hrun & Hfin & Hlen & Hconf & Hlast).
      cbn zeta in Hrun. rewrite Hrun.
      eexists _, _, _. split; [reflexivity|].
      apply (SetRun_finalize icp u0 [EvNew icp (Some e)] (Some e) e0 rounds);
        [done..|constructor|done|].
      constructor; [apply sets_List_Delete_absent|done].
    + unfold bind at 1, Delete at 1.
      destruct (reconciler_Delete rc w2) as [derr w3] eqn:Hd.
      destruct (set_persist_removal u0 derr w3)
        as (e0 & rounds & w' & Hrun & Hfin & Hlen & Hconf & Hlast).
      cbn zeta in Hrun. rewrite Hrun.
      eexists _, _, _. split; [reflexivity|].
      apply (SetRun_finalize icp u0 [EvNew icp None; EvDelete derr]
               derr e0 rounds); [done..|constructor|done|].
      constructor; [apply sets_List_Delete_absent|done].
  - rewrite bool_decide_false by done. cbn [negb].
    eexists _, _, _. split; [reflexivity|]. by apply SetRun_finalized.
  - rewrite bool_decide_true by done. cbn [negb].
    unfold bind at 1, ret at 1. cbn [fst snd].
    destruct (updateStep_run icp w1) as (steps & result & w3 & Hrun & Hsteps).
    rewrite Hrun. eexists _, _, _. split; [reflexivity|].
    by apply SetRun_updated.
  - rewrite bool_decide_false by done. cbn [negb].
    set (u := SetFinalizers icp
                (sets_List (sets_Insert (sets_NewString (finalizers icp))
                                        finalizer))).
    assert (occurrences finalizer (finalizers u) = 1%nat) as Hocc.
    { apply occurrences_NoDup; [apply NoDup_sets_List|].
      apply sets_List_Insert_present. }
    unfold bind at 1. unfold bind at 1. unfold Update at 1.
    destruct (client_Update u w1) as [[e|] w2] eqn:Hupd.
    + unfold ret at 1. cbn [fst snd]. eexists _, _, _.
      split; [reflexivity|]. by apply SetRun_add_failed.
    + unfold ret at 1. cbn [fst snd].
      destruct (updateStep_run u w2) as (steps & result & w3 & Hrun & Hsteps).
      rewrite Hrun. eexists _, _, _. split; [reflexivity|].
      by apply SetRun_added.
Qed.

Lemma countEvents_app (p : Event → bool) (t1 t2 : list Event) :
  countEvents p (t1 ++ t2) = (countEvents p t1 + countEvents p t2)%nat.
Proof. unfold countEvents. by rewrite filter_app, length_app. Qed.

Lemma countEvents_cons (p : Event → bool) (e : Event) (tr : list Event) :
  countEvents p (e :: tr)
  = ((if p e then 1 else 0) + countEvents p tr)%nat.
Proof.
  unfold countEvents. destruct (p e) eqn:Hp.
  - by rewrite filter_cons_True.
  - rewrite filter_cons_False; [done|]. congruence.
Qed.

Lemma countEvents_nil (p : Event → bool) : countEvents p [] = 0%nat.
Proof. reflexivity. Qed.

Ltac count_events :=
  repeat first [rewrite countEvents_app | rewrite countEvents_cons
               | rewrite countEvents_nil];
  cbn [isGetEvent isUpdateEvent isNewEvent isDeleteEvent isReconcileEvent].

Lemma rounds_counts (rounds : list Round) :
  countEvents isUpdateEvent (concat (roundEvents <$> rounds)) = length rounds
  ∧ countEvents isGetEvent (concat (roundEvents <$> rounds)) = length rounds
  ∧ countEvents isNewEvent (concat (roundEvents <$> rounds)) = 0%nat
  ∧ countEvents isDeleteEvent (concat (roundEvents <$> rounds)) = 0%nat
  ∧ countEvents isReconcileEvent (concat (roundEvents <$> rounds)) = 0%nat.
Proof.
  induction rounds as [|r rounds (IH1 & IH2 & IH3 & IH4 & IH5)]; [done|].
  rewrite fmap_cons. cbn [concat]. unfold roundEvents at 1 3 5 7 9.
  cbn [app]. count_events.
  rewrite IH1, IH2, IH3, IH4, IH5. cbn [length]. repeat split; lia.
Qed.

Lemma deleteStep_counts (icp : Resource Spec) (steps : list Event)
    (err : option Error) :
  DeleteStep icp steps err →
  countEvents isUpdateEvent steps = 0%nat
  ∧ countEvents isGetEvent steps = 0%nat
  ∧ countEvents isNewEvent steps = 1%nat
  ∧ countEvents isReconcileEvent steps = 0%nat.
Proof. destruct 1; count_events; repeat split; lia. Qed.

Lemma updateStep_counts (icp : Resource Spec) (steps : list Event)
    (result : option Error) :
  UpdateStep icp steps result →
  countEvents isUpdateEvent steps = 0%nat
  ∧ countEvents isGetEvent steps = 0%nat
  ∧ countEvents isNewEvent steps = 1%nat
  ∧ countEvents isDeleteEvent steps = 0%nat.
Proof. destruct 1; count_events; repeat split; lia. Qed.

(** Whatever the cluster answers, the set-based [Reconcile] returns: it
    makes at most eleven fetches and eleven [Update]s (one and ten retries),
    asks the factory for a reconciler at most once, and never both deletes
    and reconciles. *)
Theorem set_Reconcile_bounded (w : World) :
  ∃ (r : option Error) (w' : World) (tr : list Event),
    SetController.Reconcile w = (Done r, w', tr)
    ∧ (countEvents isGetEvent tr ≤ 1 + finalizerMaxRetries)%nat
    ∧ (countEvents isUpdateEvent tr ≤ 1 + finalizerMaxRetries)%nat
    ∧ (countEvents isNewEvent tr ≤ 1)%nat
    ∧ (countEvents isDeleteEvent tr = 0%nat
       ∨ countEvents isReconcileEvent tr = 0%nat).
Proof.
  destruct (set_Reconcile_runs w) as (r & w' & tr & Hrun & Hshape).
  exists r, w', tr. split; [done|]. unfold finalizerMaxRetries.
  destruct Hshape as [err|icp ? ?|icp u0 steps err e0 rounds ? ? Hsteps Hlen ?
                      |icp u e ? ? ?|icp u steps result ? ? ? Hsteps
                      |icp steps result ? ? Hsteps].
  - count_events. repeat split; lia.
  - count_events. repeat split; lia.
  - destruct (deleteStep_counts _ _ _ Hsteps) as (Hu & Hg & Hn & Hr).
    destruct (rounds_counts rounds) as (Ru & Rg & Rn & Rd & Rr).
    count_events. rewrite ?Hu, ?Hg, ?Hn, ?Hr, ?Ru, ?Rg, ?Rn, ?Rd, ?Rr.
    unfold finalizerMaxRetries in Hlen.
    repeat split; lia.
  - count_events. repeat split; lia.
  - destruct (updateStep_counts _ _ _ Hsteps) as (Hu & Hg & Hn & Hd).
    count_events. rewrite ?Hu, ?Hg, ?Hn, ?Hd.
    repeat split; lia.
  - destruct (updateStep_counts _ _ _ Hsteps) as (Hu & Hg & Hn & Hd).
    count_events. rewrite ?Hu, ?Hg, ?Hn, ?Hd.
    repeat split; lia.
Qed.

(** The set-based [Reconcile] sends an [Update] only to change whether the
    resource holds the token.  Fetched without deletion marker and with the
    token, or with deletion marker and without it, the resource is left
    alone: no [Update] is made (and in the second case nothing at all is
    called after the fetch, the result being nil).  Every [Update] of a
    resource being deleted is sent without the token, every [Update] of a
    live resource with exactly one occurrence of it. *)
Theorem set_Reconcile_updates_only_the_token (w w1 : World)
    (icp : Resource Spec) :
  client_Get w = (inr icp, w1) →
  ∃ (r : option Error) (w' : World) (tr : list Event),
    SetController.Reconcile w = (Done r, w', EvGet (inr icp) :: tr)
    ∧ (isDeleting icp = true → finalizer ∉ finalizers icp →
       tr = [] ∧ r = None ∧ w' = w1)
    ∧ (isDeleting icp = false → finalizer ∈ finalizers icp →
       countEvents isUpdateEvent tr = 0%nat ∧ UpdateStep icp tr r)
    ∧ (∀ obj e, EvUpdate obj e ∈ tr →
         if isDeleting icp then finalizer ∉ finalizers obj
         else occurrences finalizer (finalizers obj) = 1%nat).
Proof.
  intros Hget.
  destruct (set_Reconcile_runs w) as (r & w' & tr & Hrun & Hshape).
  assert (Hw : (isDeleting icp = true → finalizer ∉ finalizers icp →
                w' = w1)).
  { intros Hdel Htok. revert Hrun. unfold SetController.Reconcile.
    unfold bind at 1. unfold Get at 1. rewrite Hget. cbn iota beta.
    fold (isDeleting icp). rewrite Hdel, sets_Has_NewString.
    rewrite bool_decide_false by done. cbn [negb]. unfold ret.
    by intros [= _ <- _]. }
  assert (Hfirst : ∃ tr', tr = EvGet (inr icp) :: tr') .
  { revert Hrun. unfold SetController.Reconcile.
    unfold bind at 1. unfold Get at 1. rewrite Hget.
    destruct (_ w1) as [[o w2] t2]. intros [= _ _ <-]. by eexists. }
  destruct Hfirst as [tr' ->].
  exists r, w', tr'. split; [done|].
  assert (Hnoupd : ∀ obj e (rounds : list Round),
            EvUpdate obj e ∈ concat (roundEvents <$> rounds) →
            obj ∈ rounds.*1.*2).
  { intros obj e rounds. induction rounds as [|rd rounds IH]; simpl.
    { by intros ?%elem_of_nil. }
    intros Hin. apply elem_of_cons in Hin as [Hin|Hin]; [discriminate Hin|].
    apply elem_of_cons in Hin as [Hin|Hin].
    - injection Hin as -> _. by left.
    - right. by apply IH. }
  inversion Hshape as [err|icp' Hd Ht|icp' u0 steps err e0 rounds Hd Ht Hsteps
                         Hlen Hfin|icp' u e Hd Ht Hocc
                       |icp' u steps result Hd Ht Hocc Hsteps
                       |icp' steps result Hd Ht Hsteps]; subst.
  - split; [intros; split; [done|split; [done|by apply Hw]]|].
    split; [intros Hd' ?; congruence|].
    intros obj e Hin. by apply elem_of_nil in Hin.
  - split; [done|]. split; [intros Hd' ?; congruence|].
    intros obj e Hin. rewrite Hd.
    apply elem_of_app in Hin as [Hin|Hin].
    { destruct Hsteps;
        repeat (apply elem_of_cons in Hin as [Hin|Hin]; [discriminate Hin|]);
        by apply elem_of_nil in Hin. }
    rewrite Forall_forall in Hfin. apply Hfin.
    apply elem_of_cons in Hin as [Hin|Hin].
    + injection Hin as -> _. by left.
    + right. by eapply Hnoupd.
  - split; [intros Hd' ?; congruence|]. split; [done|].
    intros obj e' Hin. rewrite Hd.
    apply elem_of_cons in Hin as [Hin|Hin]; [|by apply elem_of_nil in Hin].
    by injection Hin as -> _.
  - split; [intros Hd' ?; congruence|]. split; [done|].
    intros obj e' Hin. rewrite Hd.
    apply elem_of_cons in Hin as [Hin|Hin]; [by injection Hin as -> _|].
    destruct Hsteps;
      repeat (apply elem_of_cons in Hin as [Hin|Hin]; [discriminate Hin|]);
      by apply elem_of_nil in Hin.
  - split; [intros Hd' ?; congruence|].
    split; [intros _ _; split;
            [by destruct (updateStep_counts _ _ _ Hsteps)|done]|].
    intros obj e Hin.
    destruct Hsteps;
      repeat (apply elem_of_cons in Hin as [Hin|Hin]; [discriminate Hin|]);
      by apply elem_of_nil in Hin.
Qed.
End SetRunFacts.

Lemma set_Reconcile_updates_only_the_token_witness :
  ∃ (r : option Error) (w' : World) (tr : list Event),
    SetController.Reconcile conflictWorld
      = (Done r, w', EvGet (inr deletingResource) :: tr)
    ∧ (isDeleting deletingResource = true →
       finalizer ∉ finalizers deletingResource →
       tr = [] ∧ r = None ∧ w' = afterGets 1 conflictWorld)
    ∧ (isDeleting deletingResource = false →
       finalizer ∈ finalizers deletingResource →
       countEvents isUpdateEvent tr = 0%nat
       ∧ UpdateStep deletingResource tr r)
    ∧ (∀ obj e, EvUpdate obj e ∈ tr →
         if isDeleting deletingResource then finalizer ∉ finalizers obj
         else occurrences finalizer (finalizers obj) = 1%nat).
Proof.
  apply (set_Reconcile_updates_only_the_token (H := simCluster)
           conflictWorld (afterGets 1 conflictWorld) deletingResource).
  reflexivity.
Defined.

(** ** The slice-based controller: when it panics *)

(** [indexOf] answers [-1] exactly for an absent string, and otherwise the
    index of the first occurrence. *)
Theorem indexOf_first_occurrence (l : list string) (s : string) :
  (indexOf l s = -1 ∧ s ∉ l)
  ∨ (0 ≤ indexOf l s < Z.of_nat (length l)
     ∧ l !! Z.to_nat (indexOf l s) = Some s
     ∧ s ∉ take (Z.to_nat (indexOf l s)) l).
Proof.
  destruct (decide (s ∈ l)) as [Hin|Hnin].
  - right. destruct (indexOf_from_present l s 0 Hin) as (k & Hk & Hl & Ht).
    unfold indexOf. rewrite Hk. rewrite Z.add_0_l, Nat2Z.id.
    apply lookup_lt_Some in Hl as Hlt. split; [lia|done].
  - left. split; [by apply indexOf_absent|done].
Qed.

Section RemovalFacts.
Context `{Cluster}.

(** What removing the token does to the resource that is sent.  In the
    deletion path of the set-based [Reconcile] the first [Update], which
    follows the delete step, sends the fetched resource with its finalizers
    replaced by their set without the token: sorted, without duplicates,
    every occurrence of the token gone, the other fields kept.  In the
    deletion path of the slice-based [Reconcile] the first [Update] sends
    the resource with the first occurrence of the token cut out and nothing
    else changed: the finalizers before it and after it stay as they are, in
    place, and a later occurrence of the token stays too. *)
Theorem finalizer_removal_effect :
  (∀ (w w1 : World) (icp : Resource Spec) (t : Z),
     client_Get w = (inr icp, w1) →
     deletionTimestamp icp = Some t →
     finalizer ∈ finalizers icp →
     ∃ (steps : list Event) (err : option Error) (u0 : Resource Spec)
       (e0 : option Error) (rest : list Event) (r : option Error)
       (w' : World),
       SetController.Reconcile w
         = (Done r, w',
            EvGet (inr icp) :: steps ++ EvUpdate u0 e0 :: rest)
       ∧ DeleteStep icp steps err
       ∧ deletionTimestamp u0 = deletionTimestamp icp
       ∧ spec u0 = spec icp
       ∧ (∀ x, x ∈ finalizers u0 ↔ x ∈ finalizers icp ∧ x ≠ finalizer)
       ∧ NoDup (finalizers u0)
       ∧ Sorted String.le (finalizers u0))
  ∧ (∀ (w w1 w2 : World) (u : Resource Spec) (r2 : Error + Resource Spec)
       (os : string) (sp : Spec) (t : Z),
       client_Get w = (inr u, w1) →
       client_Get w1 = (r2, w2) →
       deletionTimestamp u = Some t →
       finalizer ∈ finalizers u →
       let icp := match r2 with
                  | inr o => o
                  | inl _ => mkResource None [] emptySpec
                  end in
       yaml_Marshal (spec u) = inr os →
       UnmarshalWithJSONPB os (spec icp) = inr sp →
       ∃ (pre post : list string) (steps : list Event)
         (err e0 : option Error) (rest : list Event)
         (out : Outcome (option Error)) (w' : World),
         finalizers u = pre ++ finalizer :: post
         ∧ (finalizer ∉ pre)
         ∧ SliceController.Reconcile w
           = (out, w',
              EvGet (inr u) :: EvGet r2 :: steps
                ++ EvUpdate (SetFinalizers u (pre ++ post)) e0 :: rest)
         ∧ DeleteStep (SetSpec icp sp) steps err).
Proof.
  split.
  - intros w w1 icp t Hget Hdel Htok.
    assert (Hu0 : ∀ u0,
              u0 = SetFinalizers icp
                     (sets_List (sets_Delete (sets_NewString (finalizers icp))
                                             finalizer)) →
              deletionTimestamp u0 = deletionTimestamp icp
              ∧ spec u0 = spec icp
              ∧ (∀ x, x ∈ finalizers u0 ↔ x ∈ finalizers icp ∧ x ≠ finalizer)
              ∧ NoDup (finalizers u0)
              ∧ Sorted String.le (finalizers u0)).
    { intros u0 ->. simpl. split; [done|]. split; [done|].
      split; [|split].
      - intros x. rewrite elem_of_sets_List.
        unfold sets_Delete, sets_NewString.
        rewrite elem_of_difference, elem_of_list_to_set, elem_of_singleton.
        done.
      - apply NoDup_sets_List.
      - apply Sorted_merge_sort. apply _. }
    unfold SetController.Reconcile.
    unfold bind at 1. unfold Get at 1. rewrite Hget. cbn iota beta.
    rewrite Hdel. rewrite sets_Has_NewString, bool_decide_true by done.
    cbn [negb].
    set (u0 := SetFinalizers icp
                 (sets_List (sets_Delete (sets_NewString (finalizers icp))
                                         finalizer))).
    unfold bind at 1. unfold New at 1.
    destruct (factory_New icp w1) as [[e|rc] w2] eqn:Hnew.
    + unfold bind at 1, ret at 1.
      destruct (set_persist_removal u0 (Some e) w2)
        as (e0 & rounds & w' & Hrun & _).
      cbn zeta in Hrun. rewrite Hrun.
      exists [EvNew icp (Some e)], (Some e), u0, e0,
             (concat (roundEvents <$> rounds)).
      eexists _, w'. split; [reflexivity|]. split; [constructor|].
      rewrite <-Hdel. by apply Hu0.
    + unfold bind at 1, Delete at 1.
      destruct (reconciler_Delete rc w2) as [derr w3] eqn:Hd.
      destruct (set_persist_removal u0 derr w3)
        as (e0 & rounds & w' & Hrun & _).
      cbn zeta in Hrun. rewrite Hrun.
      exists [EvNew icp None; EvDelete derr], derr, u0, e0,
             (concat (roundEvents <$> rounds)).
      eexists _, w'. split; [reflexivity|]. split; [constructor|].
      rewrite <-Hdel. by apply Hu0.
  - intros w w1 w2 u r2 os sp t Hget Hget2 Hdel Htok icp Hos Hsp.
    destruct (removeAt_present _ _ Htok) as (k & Hk & Hbefore & Hrm).
    exists (take k (finalizers u)), (drop (S k) (finalizers u)).
    unfold SliceController.Reconcile.
    unfold bind at 1. unfold Get at 1. rewrite Hget. cbn iota beta.
    unfold bind at 1. unfold Get at 1. rewrite Hget2. cbn iota beta.
    fold icp. rewrite Hos, Hsp, Hdel.
    rewrite bool_decide_false by (rewrite indexOf_negative; tauto).
    rewrite Hrm. unfold lift.
    unfold bind at 1. unfold New at 1.
    destruct (factory_New _ w2) as [[e|rc] w3].
    + unfold bind at 1, ret at 1. unfold bind at 1, ret at 1.
      unfold bind at 1, Update at 1.
      destruct (client_Update _ w3) as [e0 w4].
      match goal with
      | |- context [bind (SliceController.retryLoop ?n ?x ?fe) ?f ?w0] =>
          destruct (bind (SliceController.retryLoop n x fe) f w0)
            as [[out w'] rest]
      end.
      exists [EvNew (SetSpec icp sp) (Some e)], (Some e), e0, rest, out, w'.
      split; [symmetry; by apply take_drop_middle|].
      split; [done|]. split; [reflexivity|constructor].
    + unfold bind at 1, Delete at 1.
      destruct (reconciler_Delete rc w3) as [derr w4].
      unfold bind at 1, ret at 1. unfold bind at 1, Update at 1.
      destruct (client_Update _ w4) as [e0 w5].
      match goal with
      | |- context [bind (SliceController.retryLoop ?n ?x ?fe) ?f ?w0] =>
          destruct (bind (SliceController.retryLoop n x fe) f w0)
            as [[out w'] rest]
      end.
      exists [EvNew (SetSpec icp sp) None; EvDelete derr], derr, e0, rest,
             out, w'.
      split; [symmetry; by apply take_drop_middle|].
      split; [done|]. split; [reflexivity|constructor].
Qed.
End RemovalFacts.

Lemma finalizer_removal_effect_witness :
  ∃ (pre post : list string) (steps : list Event)
    (err e0 : option Error) (rest : list Event)
    (out : Outcome (option Error)) (w' : World),
    finalizers doubledResource = pre ++ finalizer :: post
    ∧ (finalizer ∉ pre)
    ∧ SliceController.Reconcile doubledWorld
      = (out, w',
         EvGet (inr doubledResource) :: EvGet (inr doubledResource) :: steps
           ++ EvUpdate (SetFinalizers doubledResource (pre ++ post)) e0
           :: rest)
    ∧ DeleteStep (SetSpec doubledResource tt) steps err.
Proof.
  apply (proj2 (finalizer_removal_effect (H := simCluster))
           doubledWorld (afterGets 1 doubledWorld) (afterGets 2 doubledWorld)
           doubledResource (inr doubledResource) EmptyString tt 1).
  - reflexivity.
  - reflexivity.
  - reflexivity.
  - right. left.
  - reflexivity.
  - reflexivity.
Defined.

(** The same resource through both controllers: the set-based one sends
    the other finalizers sorted and once each, the slice-based one cuts the
    first occurrence of the token and leaves the rest in place. *)
Example finalizer_removal_both_controllers :
  (SetController.Reconcile doubledWorld).2
  = [EvGet (inr doubledResource);
     EvNew doubledResource None; EvDelete None;
     EvUpdate (SetFinalizers doubledResource ["a"; "b"]) None]
  ∧ (SliceController.Reconcile doubledWorld).2
    = [EvGet (inr doubledResource); EvGet (inr doubledResource);
       EvNew doubledResource None; EvDelete None;
       EvUpdate (SetFinalizers doubledResource ["b"; "a"; finalizer; "a"])
                None].
Proof. split; vm_compute; reflexivity. Qed.

Section SliceRunFacts.
Context `{Cluster}.

Lemma slice_retryLoop_panic_shape (n : nat) (u : Resource Spec)
    (finalizerError : option Error) (w w' : World) (tr : list Event) :
  SliceController.retryLoop n u finalizerError w = (Panicked, w', tr) →
  isConflict finalizerError = true ∧ ∃ tr0 g, tr = tr0 ++ [EvGet g].
Proof.
  revert u finalizerError w w' tr.
  induction n as [|n IH]; intros u ferr w w' tr; simpl; [done|].
  destruct (isConflict ferr); [|done].
  unfold bind at 1. unfold Get at 1.
  destruct (client_Get w) as [g w1].
  destruct (removeAt _ _) as [fs|].
  - unfold lift, bind at 1, ret at 1. unfold bind at 1, Update at 1.
    destruct (client_Update _ w1) as [e w2].
    destruct (SliceController.retryLoop n _ e w2) as [[o3 w3] t3] eqn:Hloop.
    intros [= -> <- <-].
    destruct (IH _ _ _ _ _ Hloop) as (_ & tr0 & g' & ->).
    split; [done|]. eexists (_ :: _ :: tr0), g'. reflexivity.
  - unfold lift, bind, panic. intros [= <- <-].
    split; [done|]. by exists [], g.
Qed.

(** The slice-based [Reconcile] panics only in the retry loop: a run that
    panics ends with a re-fetch, after an [Update] that met a conflict.  A
    run in which no [Update] meets a conflict returns. *)
Theorem slice_Reconcile_panics_only_after_conflict (w w' : World)
    (out : Outcome (option Error)) (tr : list Event) :
  SliceController.Reconcile w = (out, w', tr) →
  (out = Panicked →
   ∃ tr0 obj e g, tr = tr0 ++ [EvGet g]
                  ∧ EvUpdate obj e ∈ tr0 ∧ isConflict e = true)
  ∧ ((∀ obj e, EvUpdate obj e ∈ tr → isConflict e = false) →
     ∃ r, out = Done r).
Proof.
  intros Hrun.
  assert (Hpanic : out = Panicked →
            ∃ tr0 obj e g, tr = tr0 ++ [EvGet g]
                           ∧ EvUpdate obj e ∈ tr0 ∧ isConflict e = true).
  { intros ->. revert Hrun. unfold SliceController.Reconcile.
    unfold bind at 1. unfold Get at 1.
    destruct (client_Get w) as [[err|u] w1].
    { by destruct (IsNotFound err). }
    cbn iota beta. unfold bind at 1. unfold Get at 1.
    destruct (client_Get w1) as [r2 w2]. cbn iota beta.
    destruct (yaml_Marshal (spec u)) as [err|os]; [done|].
    destruct (UnmarshalWithJSONPB os _) as [err|sp]; [done|].
    destruct (deletionTimestamp u).
    - case_bool_decide as Hidx; [done|].
      assert (finalizer ∈ finalizers u) as Htok.
      { destruct (decide (finalizer ∈ finalizers u)); [done|].
        exfalso. apply Hidx. by apply indexOf_negative. }
      destruct (removeAt_present _ _ Htok) as (k & _ & _ & Hrm).
      rewrite Hrm. unfold lift.
      unfold bind at 1. unfold New at 1.
      destruct (factory_New _ w2) as [[e|rc] w3].
      + unfold bind at 1, ret at 1. unfold bind at 1, ret at 1.
        unfold bind at 1, Update at 1.
        destruct (client_Update _ w3) as [e0 w4].
        unfold bind at 1.
        destruct (SliceController.retryLoop _ _ e0 w4)
          as [[[fe|] w5] t5] eqn:Hloop.
        { by destruct fe. }
        destruct (slice_retryLoop_panic_shape _ _ _ _ _ _ Hloop)
          as (Hc & tr0 & g & ->).
        intros [= <- <-].
        eexists (_ :: _ :: _ :: _ :: tr0), _, e0, g.
        split; [reflexivity|]. split; [|done].
        do 3 right. left.
      + unfold bind at 1, Delete at 1.
        destruct (reconciler_Delete rc w3) as [derr w4].
        unfold bind at 1, ret at 1. unfold bind at 1, Update at 1.
        destruct (client_Update _ w4) as [e0 w5].
        unfold bind at 1.
        destruct (SliceController.retryLoop _ _ e0 w5)
          as [[[fe|] w6] t6] eqn:Hloop.
        { by destruct fe. }
        destruct (slice_retryLoop_panic_shape _ _ _ _ _ _ Hloop)
          as (Hc & tr0 & g & ->).
        intros [= <- <-].
        eexists (_ :: _ :: _ :: _ :: _ :: tr0), _, e0, g.
        split; [reflexivity|]. split; [|done].
        do 4 right. left.
    - unfold bind at 1.
      destruct (bool_decide (indexOf (finalizers u) finalizer < 0)).
      + unfold Update at 1. destruct (client_Update _ w2) as [[e|] w3];
          [done|].
        unfold bind, New. destruct (factory_New _ w3) as [[e|rc] w4]; [done|].
        unfold DoReconcile. by destruct (reconciler_Reconcile rc w4).
      + unfold ret at 1.
        unfold bind, New. destruct (factory_New _ w2) as [[e|rc] w4]; [done|].
        unfold DoReconcile. by destruct (reconciler_Reconcile rc w4). }
  split; [done|].
  intros Hnoconf. destruct out as [r|]; [eauto|].
  destruct (Hpanic eq_refl) as (tr0 & obj & e & g & -> & Hin & Hc).
  rewrite (Hnoconf obj e) in Hc; [done|].
  apply elem_of_app. by left.
Qed.
End SliceRunFacts.

Lemma slice_Reconcile_panics_only_after_conflict_witness :
  ∃ r, (SliceController.Reconcile (H := simCluster) (freshWorld None)).1.1
       = Done r.
Proof.
  destruct (SliceController.Reconcile (H := simCluster) (freshWorld None))
    as [[out w'] tr] eqn:Hrun.
  apply (proj2 (slice_Reconcile_panics_only_after_conflict
                  (H := simCluster) (freshWorld None) w' out tr Hrun)).
  vm_compute in Hrun. injection Hrun as <- <- <-.
  intros obj e Hin.
  repeat (apply elem_of_cons in Hin as [Hin|Hin];
          [first [discriminate Hin
                 |injection Hin as _ ->; reflexivity]|]).
  by apply elem_of_nil in Hin.
Defined.

(** ** Package [object]: rendering and its caches *)

Section RenderFacts.
Context `{UnstructuredAPI} `{!Encoder}.

(** [YAML] is idempotent.  Whether the first call succeeds or fails, a
    second call on the object as the first left it gives the same answer and
    changes nothing more; [JSON] answers after it as before it; the object
    and its identity are untouched; and the text returned is the text the
    cache then holds (after a failure the YAML cache is still empty). *)
Theorem YAML_idempotent (o : K8sObject) :
  YAML (YAML o).2 = YAML o
  ∧ JSON (YAML o).2 = JSON o
  ∧ object (YAML o).2 = object o
  ∧ K8sObject_Hash (YAML o).2 = K8sObject_Hash o
  ∧ yaml (YAML o).2
    = match (YAML o).1 with inr y => Some y | inl _ => None end.
Proof.
  unfold YAML, JSON. destruct o as [u g k n ns j y]. simpl.
  destruct y as [y|]; simpl.
  { done. }
  destruct j as [j|]; simpl.
  - destruct (yaml_JSONToYAML j) as [err|y] eqn:Hy; simpl.
    + by rewrite Hy.
    + done.
  - destruct (u_MarshalJSON u) as [err|oj] eqn:Hj; simpl.
    + by rewrite Hj.
    + destruct (yaml_JSONToYAML oj) as [err|y] eqn:Hy; simpl.
      * by rewrite Hy.
      * done.
Qed.

Lemma YAML_cached (o : K8sObject) (y : string) :
  yaml o = Some y → YAML o = (inr y, o).
Proof. intros Hy. unfold YAML. by rewrite Hy. Qed.

Lemma Join_cons (sep x : string) (xs : list string) :
  strings_Join (x :: xs) sep
  = x +:+ String.concat EmptyString ((λ y, sep +:+ y) <$> xs).
Proof.
  unfold strings_Join. revert x.
  induction xs as [|y xs IH]; intros x.
  { cbn [String.concat fmap list_fmap]. by rewrite String_append_empty_r. }
  rewrite fmap_cons.
  change (String.concat sep (x :: y :: xs))
    with (x +:+ sep +:+ String.concat sep (y :: xs)).
  rewrite IH.
  destruct xs as [|z xs].
  - cbn [String.concat fmap list_fmap].
    by rewrite !String_append_empty_r.
  - rewrite fmap_cons.
    change (String.concat EmptyString
              ((sep +:+ y) :: (sep +:+ z) :: ((λ y0, sep +:+ y0) <$> xs)))
      with ((sep +:+ y) +:+ EmptyString +:+
            String.concat EmptyString
              ((sep +:+ z) :: ((λ y0, sep +:+ y0) <$> xs))).
    by rewrite String_append_empty_l, String_append_assoc.
Qed.

Lemma concat_empty_cons (x : string) (xs : list string) :
  String.concat EmptyString (x :: xs) = x +:+ String.concat EmptyString xs.
Proof.
  destruct xs as [|y xs].
  - cbn [String.concat]. by rewrite String_append_empty_r.
  - reflexivity.
Qed.

Lemma YAMLManifest_loop_cached (os : list K8sObject) (texts : list string)
    (b : string) (done : list K8sObject) :
  Forall2 (λ o t, yaml o = Some t) os texts →
  YAMLManifest_loop os false b done
  = (inr (b +:+ String.concat EmptyString
                  ((λ y, String "010" (String "010" "") +:+ y)
                     <$> ((λ t, t +:+ YAMLSeparator) <$> texts))),
     done ++ os).
Proof.
  intros Hc. revert b done.
  induction Hc as [|o t os texts Ho Hc IH]; intros b done.
  { simpl. by rewrite String_append_empty_r, app_nil_r. }
  cbn [YAMLManifest_loop]. rewrite (YAML_cached o t Ho).
  rewrite IH. rewrite !fmap_cons, concat_empty_cons.
  rewrite <-(app_assoc done [o] os). simpl.
  by rewrite !String_append_assoc.
Qed.

Lemma YAMLManifest_cached (os : list K8sObject) (texts : list string) :
  Forall2 (λ o t, yaml o = Some t) os texts →
  YAMLManifest os
  = (inr (strings_Join ((λ t, t +:+ YAMLSeparator) <$> texts)
            (String "010" (String "010" ""))),
     os).
Proof.
  intros Hc. destruct Hc as [|o t os texts Ho Hc]; [done|].
  unfold YAMLManifest. cbn [YAMLManifest_loop].
  rewrite (YAML_cached o t Ho).
  rewrite (YAMLManifest_loop_cached os texts _ _ Hc).
  by rewrite fmap_cons, Join_cons.
Qed.
End RenderFacts.

Section RoundTripFacts.
Context `{UnstructuredAPI} `{!Encoder} `{!Decoder}.

Lemma parsedOf_text (chunk : string) (o : K8sObject) :
  parsedOf chunk = Some o → yaml o = Some (removeNonYAMLLines chunk).
Proof.
  unfold parsedOf, fateOf, ParseYAMLToK8sObject.
  case_bool_decide; [done|].
  destruct (decoder_Decode _); [done|]. by intros [= <-].
Qed.

Lemma parsed_texts (chunks : list string) :
  Forall2 (λ o t, yaml o = Some t)
    (omap parsedOf chunks)
    (removeNonYAMLLines <$> filter (λ c, isSkipped c = false) chunks).
Proof.
  induction chunks as [|c chunks IH]; [constructor|].
  cbn [omap list_omap].
  destruct (fateOf c) as [|err|o] eqn:Hf.
  - rewrite filter_cons_False by (unfold isSkipped; by rewrite Hf).
    unfold parsedOf at 1. by rewrite Hf.
  - rewrite filter_cons_False by (unfold isSkipped; by rewrite Hf).
    unfold parsedOf at 1. by rewrite Hf.
  - rewrite filter_cons_True by (unfold isSkipped; by rewrite Hf).
    assert (parsedOf c = Some o) as Hp by (unfold parsedOf; by rewrite Hf).
    rewrite Hp, fmap_cons. constructor; [|done].
    by apply parsedOf_text.
Qed.

(** Parsing and rendering compose to a normalisation of the manifest.
    [ParseYAMLToK8sObject] keeps the text it was given, so [YAML] answers
    that very text, whatever the encoder would write.  Hence
    [YAMLManifest] of a parsed set never fails, never calls the encoder and
    changes no object: it gives the chunks that were parsed, each stripped
    of its comment lines and trimmed and followed by the separator, with an
    empty line between two of them. *)
Theorem parse_then_render (y : string) (manifest : string) :
  (∀ o, ParseYAMLToK8sObject y = inr o → YAML o = (inr y, o))
  ∧ (let chunks := unlines <$> groupsOf (scanLines manifest) in
     let kept := filter (λ c, isSkipped c = false) chunks in
     let os := (ParseK8sObjectsFromYAMLManifest manifest).1.1 in
     YAMLManifest os
     = (inr (strings_Join
               ((λ c, removeNonYAMLLines c +:+ YAMLSeparator) <$> kept)
               (String "010" (String "010" ""))),
        os)).
Proof.
  split.
  - intros o. unfold ParseYAMLToK8sObject.
    destruct (decoder_Decode y); [done|]. by intros [= <-].
  - cbn zeta. rewrite ParseK8sObjectsFromYAMLManifest_fates. simpl.
    rewrite (YAMLManifest_cached _ _
               (parsed_texts (unlines <$> groupsOf (scanLines manifest)))).
    by rewrite <-list_fmap_compose.
Qed.
End RoundTripFacts.

Lemma parse_then_render_witness :
  ∃ o, ParseYAMLToK8sObject (H := treeUnstructured) deploymentText = inr o
       ∧ YAML (H0 := treeEncoder) o = (inr deploymentText, o).
Proof.
  eexists. split; [vm_compute; reflexivity|].
  apply (proj1 (parse_then_render (H := treeUnstructured)
                  deploymentText EmptyString)).
  vm_compute; reflexivity.
Defined.

(** ** Package [object]: identity keys and the index *)

Lemma rev_app_rev_app (s a b : string) :
  String.rev_app (String.rev_app s a) b = String.rev_app a (s +:+ b).
Proof.
  revert a b. induction s as [|c s IH]; intros a b; [done|].
  cbn [String.rev_app]. rewrite IH. by rewrite String_append_cons.
Qed.

Lemma rev_app_append (a b : string) :
  String.rev_app a b = String.rev_app a EmptyString +:+ b.
Proof.
  revert b. induction a as [|c a IH]; intros b; [done|].
  cbn [String.rev_app]. rewrite (IH (String c b)), (IH (String c EmptyString)).
  by rewrite String_append_assoc.
Qed.

Lemma rev_rev_app (s cur : string) :
  String.rev (String.rev_app s cur) = String.rev cur +:+ s.
Proof.
  unfold String.rev. rewrite rev_app_rev_app, String_append_empty_r.
  apply rev_app_append.
Qed.

Lemma prefix_colon_cons (c : ascii) (s : string) :
  String.prefix ":" (String c s) = bool_decide (":"%char = c).
Proof.
  change (String.prefix ":" (String c s))
    with (match ascii_dec ":" c with
          | left _ => String.prefix EmptyString s
          | right _ => false
          end).
  destruct (ascii_dec ":" c) as [Heq|Hne].
  - rewrite prefix_empty. by rewrite bool_decide_true.
  - by rewrite bool_decide_false.
Qed.

Lemma colonFree_cons (c : ascii) (s : string) :
  colonFree (String c s) ↔ ":"%char ≠ c ∧ colonFree s.
Proof.
  unfold colonFree, bytes. cbn [String.list_ascii_of_string].
  rewrite not_elem_of_cons. done.
Qed.

Lemma split_go_piece (s rest cur : string) :
  colonFree s →
  split_go ":" cur 0 (s +:+ String ":" rest)
  = (String.rev cur +:+ s) :: split_go ":" EmptyString 0 rest.
Proof.
  revert cur. induction s as [|c s IH]; intros cur Hs.
  - rewrite String_append_empty_l. cbn [split_go].
    rewrite prefix_colon_cons, bool_decide_true by done.
    by rewrite String_append_empty_r.
  - apply colonFree_cons in Hs as [Hc Hs].
    rewrite String_append_cons. cbn [split_go].
    rewrite prefix_colon_cons, bool_decide_false by done.
    rewrite IH by done. f_equal.
    change (String.rev (String c cur)) with (String.rev_app cur (String c "")).
    rewrite rev_app_append. fold (String.rev cur).
    by rewrite String_append_assoc.
Qed.

Lemma split_go_last (s cur : string) :
  colonFree s →
  split_go ":" cur 0 s = [String.rev cur +:+ s].
Proof.
  revert cur. induction s as [|c s IH]; intros cur Hs.
  - cbn [split_go]. by rewrite String_append_empty_r.
  - apply colonFree_cons in Hs as [Hc Hs]. cbn [split_go].
    rewrite prefix_colon_cons, bool_decide_false by done.
    rewrite IH by done. f_equal.
    change (String.rev (String c cur)) with (String.rev_app cur (String c "")).
    rewrite rev_app_append. fold (String.rev cur).
    by rewrite String_append_assoc.
Qed.

Lemma Split_Join_colonFree (parts : list string) :
  parts ≠ [] → Forall colonFree parts →
  strings_Split (strings_Join parts ":") ":" = parts.
Proof.
  intros Hne Hall. unfold strings_Split, strings_Join.
  induction Hall as [|p parts Hp Hall IH]; [done|].
  destruct parts as [|q parts].
  - cbn [String.concat]. by rewrite split_go_last.
  - change (String.concat ":" (p :: q :: parts))
      with (p +:+ String ":" (String.concat ":" (q :: parts))).
    rewrite split_go_piece by done. rewrite IH by done. done.
Qed.

Section IndexFacts.
Context `{UnstructuredAPI}.

(** The identity key of colon-free components splits back into them, and
    so tells kind, name and (except for the two cluster-wide kinds, whose
    namespace [Hash] drops) namespace apart: two such keys are equal only
    for the same kind, the same name and the same namespace as [Hash] uses
    it.  The kind:name key splits into its two components likewise. *)
Theorem Hash_components (kind namespace name : string) :
  colonFree kind → colonFree namespace → colonFree name →
  strings_Split (Hash kind namespace name) ":"
  = [kind; hashNamespace kind namespace; name]
  ∧ strings_Split (HashNameKind kind name) ":" = [kind; name]
  ∧ ∀ kind' namespace' name',
      colonFree kind' → colonFree namespace' → colonFree name' →
      Hash kind namespace name = Hash kind' namespace' name' →
      kind = kind' ∧ name = name'
      ∧ hashNamespace kind namespace = hashNamespace kind' namespace'.
Proof.
  intros Hk Hns Hn.
  assert (Hsplit : ∀ k ns n, colonFree k → colonFree ns → colonFree n →
            strings_Split (Hash k ns n) ":" = [k; hashNamespace k ns; n]).
  { intros k ns n Hk' Hns' Hn'. unfold Hash. fold (hashNamespace k ns).
    apply Split_Join_colonFree; [done|].
    repeat constructor; try done.
    unfold hashNamespace. case_bool_decide; [|done].
    unfold colonFree, bytes. simpl. apply not_elem_of_nil. }
  split; [by apply Hsplit|]. split.
  - unfold HashNameKind. apply Split_Join_colonFree; [done|].
    by repeat constructor.
  - intros k' ns' n' Hk' Hns' Hn' Heq.
    pose proof (Hsplit kind namespace name Hk Hns Hn) as H1.
    pose proof (Hsplit k' ns' n' Hk' Hns' Hn') as H2.
    rewrite Heq, H2 in H1. by injection H1 as -> -> ->.
Qed.
End IndexFacts.

Lemma Hash_components_witness :
  strings_Split (Hash "Deployment" "istio-system" "pilot") ":"
  = ["Deployment"; "istio-system"; "pilot"].
Proof.
  apply (Hash_components "Deployment" "istio-system" "pilot");
    unfold colonFree; apply (bool_decide_unpack _); by vm_compute.
Defined.

(** With a colon in a component the key no longer tells the components
    apart. *)
Example Hash_collision : Hash "Role" "a:b" "c" = Hash "Role" "a" "b:c".
Proof. reflexivity. Qed.

Section ToMapFacts.
Context `{UnstructuredAPI}.

Lemma ToMap_loop_app (os1 os2 : list K8sObject)
    (ret : gmap string K8sObject) :
  ToMap_loop (os1 ++ os2) ret = ToMap_loop os2 (ToMap_loop os1 ret).
Proof.
  revert ret. induction os1 as [|o os1 IH]; intros ret; [done|].
  simpl. apply IH.
Qed.

Lemma ToMap_loop_other (os : list K8sObject) (ret : gmap string K8sObject)
    (k : string) :
  Forall (λ o, Valid o = true → K8sObject_Hash o ≠ k) os →
  ToMap_loop os ret !! k = ret !! k.
Proof.
  intros Hos. revert ret.
  induction Hos as [|o os Ho Hos IH]; intros ret; [done|].
  simpl. rewrite IH. destruct (Valid o); [|done].
  by rewrite lookup_insert_ne by (by apply Ho).
Qed.

Lemma ToMap_loop_lookup (os : list K8sObject) (ret : gmap string K8sObject)
    (k : string) (o : K8sObject) :
  ToMap_loop os ret !! k = Some o →
  (∃ pre post, os = pre ++ o :: post
     ∧ Valid o = true ∧ K8sObject_Hash o = k
     ∧ Forall (λ o', Valid o' = true → K8sObject_Hash o' ≠ k) post)
  ∨ (ret !! k = Some o
     ∧ Forall (λ o', Valid o' = true → K8sObject_Hash o' ≠ k) os).
Proof.
  revert ret. induction os as [|a os IH]; intros ret Hl.
  { right. by split. }
  simpl in Hl. apply IH in Hl as [(pre & post & -> & Hv & Hk & Hpost)|[Hl Hos]].
  - left. by exists (a :: pre), post.
  - destruct (Valid a) eqn:Hva.
    + destruct (decide (K8sObject_Hash a = k)) as [Hka|Hka].
      * subst k. rewrite lookup_insert_eq in Hl. injection Hl as <-.
        left. by exists [], os.
      * rewrite lookup_insert_ne in Hl by done.
        right. split; [done|]. constructor; [|done]. by intros _.
    + right. split; [done|]. constructor; [|done]. intros ?; congruence.
Qed.

Lemma ToMap_loop_is_Some (os : list K8sObject)
    (ret : gmap string K8sObject) (k : string) :
  is_Some (ret !! k)
  ∨ (∃ o, o ∈ os ∧ Valid o = true ∧ K8sObject_Hash o = k) →
  is_Some (ToMap_loop os ret !! k).
Proof.
  revert ret. induction os as [|a os IH]; intros ret Hc.
  { destruct Hc as [Hr|(o & Hin & _)]; [done|]. by apply elem_of_nil in Hin. }
  simpl. apply IH. destruct Hc as [Hr|(o & Hin & Hv & Hk)].
  - left. destruct (Valid a); [|done].
    destruct (decide (K8sObject_Hash a = k)) as [->|Hne].
    + rewrite lookup_insert_eq. by eexists.
    + by rewrite lookup_insert_ne.
  - apply elem_of_cons in Hin as [->|Hin].
    + left. rewrite Hv, Hk, lookup_insert_eq. by eexists.
    + right. by exists o.
Qed.

(** The index [ToMap] builds.  A key holds an object exactly when that
    object is the last valid one of the set with that identity key: invalid
    objects (no kind or no name) are left out, and of two valid objects with
    the same key the later one replaces the earlier.  So the keys are the
    identity keys of the valid objects, and the index has no more entries
    than the set has objects. *)
Theorem ToMap_last_valid_wins (os : list K8sObject) :
  (∀ k o, ToMap os !! k = Some o
          ↔ ∃ pre post, os = pre ++ o :: post
              ∧ Valid o = true ∧ K8sObject_Hash o = k
              ∧ Forall (λ o', Valid o' = true → K8sObject_Hash o' ≠ k) post)
  ∧ (∀ k, is_Some (ToMap os !! k)
          ↔ ∃ o, o ∈ os ∧ Valid o = true ∧ K8sObject_Hash o = k)
  ∧ (size (ToMap os) ≤ length (filter (λ o, Valid o = true) os))%nat.
Proof.
  assert (Hchar : ∀ k o, ToMap os !! k = Some o
          ↔ ∃ pre post, os = pre ++ o :: post
              ∧ Valid o = true ∧ K8sObject_Hash o = k
              ∧ Forall (λ o', Valid o' = true → K8sObject_Hash o' ≠ k) post).
  { intros k o. unfold ToMap. split.
    - intros Hl. apply ToMap_loop_lookup in Hl as [Hl|[Hl _]]; [done|].
      by rewrite lookup_empty in Hl.
    - intros (pre & post & -> & Hv & Hk & Hpost).
      rewrite ToMap_loop_app. simpl. rewrite Hv.
      rewrite ToMap_loop_other by done. subst k. apply lookup_insert_eq. }
  split; [done|]. split.
  - intros k. split.
    + intros [o Ho]. apply Hchar in Ho as (pre & post & -> & Hv & Hk & _).
      exists o. split; [|done]. apply elem_of_app. right. by left.
    + intros Hex. apply ToMap_loop_is_Some. by right.
  - unfold ToMap.
    assert (Hsz : ∀ l (ret : gmap string K8sObject),
              (size (ToMap_loop l ret)
               ≤ size ret + length (filter (λ o, Valid o = true) l))%nat).
    { induction l as [|a l IH]; intros ret; simpl; [lia|].
      destruct (Valid a) eqn:Hva.
      - rewrite filter_cons_True by done. simpl.
        etrans; [apply IH|].
        destruct (ret !! K8sObject_Hash a) eqn:Hr.
        + rewrite map_size_insert_Some by done. lia.
        + rewrite map_size_insert_None by done. lia.
      - rewrite filter_cons_False by congruence. apply IH. }
    etrans; [apply Hsz|]. by rewrite map_size_empty.
Qed.
End ToMapFacts.

Section SortFacts2.
Context `{UnstructuredAPI}.

Lemma less_false_score (score : K8sObject → Z) (a b : K8sObject) :
  less score b a = false → score a ≤ score b.
Proof.
  unfold less. intros Hl.
  destruct (Z.ltb_spec (score b) (score a)) as [Hlt|Hge]; [done|lia].
Qed.

Lemma InOrder_scores (score : K8sObject → Z) (l : list K8sObject) :
  InOrder (less score) l → StronglySorted (λ a b, score a ≤ score b) l.
Proof.
  unfold InOrder. induction 1 as [|a l Hl IH Hall]; constructor; [done|].
  eapply Forall_impl; [exact Hall|]. intros b Hb.
  by apply less_false_score.
Qed.

(** [Sort] gives the deterministic order its comment promises exactly when
    no two objects of the set agree on score, group, kind and name: then
    every arrangement of the same objects is sorted to the same sequence,
    whichever algorithm [sort.Slice] runs within its contract.  In every
    case the scores never decrease along the result. *)
Theorem Sort_deterministic (S1 S2 : Sorter) (score : K8sObject → Z)
    (os os' : list K8sObject) :
  SortContract S1 → SortContract S2 →
  (∀ a b, a ∈ os → b ∈ os → sortKey score a = sortKey score b → a = b) →
  os ≡ₚ os' →
  Sort (H0 := S1) os score = Sort (H0 := S2) os' score
  ∧ StronglySorted (λ a b, score a ≤ score b) (Sort (H0 := S1) os score).
Proof.
  intros HS1 HS2 Hkeys Hperm.
  destruct (HS1 _ (less score) os (StrictWeak_less score)) as [Hp1 Ho1].
  destruct (HS2 _ (less score) os' (StrictWeak_less score)) as [Hp2 Ho2].
  split.
  - apply (InOrder_unique score); [|done|done|].
    + intros a b Ha Hb. apply Hkeys.
      * by rewrite <-Hp1.
      * by rewrite <-Hp1.
    + unfold Sort. by rewrite Hp1, Hp2.
  - unfold Sort. by apply InOrder_scores.
Qed.
End SortFacts2.

Lemma Sort_deterministic_witness :
  Sort (H0 := insertionSorter)
    [deploymentNamed "pilot"; deploymentNamed "citadel"] flatScore
  = Sort (H0 := reversingSorter)
      [deploymentNamed "citadel"; deploymentNamed "pilot"] flatScore
  ∧ StronglySorted (λ a b, flatScore a ≤ flatScore b)
      (Sort (H0 := insertionSorter)
         [deploymentNamed "pilot"; deploymentNamed "citadel"] flatScore).
Proof.
  apply (Sort_deterministic (H := treeUnstructured)
           insertionSorter reversingSorter flatScore
           [deploymentNamed "pilot"; deploymentNamed "citadel"]
           [deploymentNamed "citadel"; deploymentNamed "pilot"]
           insertionSorter_contract reversingSorter_contract).
  - intros a b Ha Hb Hkey.
    apply elem_of_cons in Ha as [->|Ha%list_elem_of_singleton];
      apply elem_of_cons in Hb as [->|Hb%list_elem_of_singleton];
      subst; try reflexivity; vm_compute in Hkey; discriminate Hkey.
  - apply Permutation_swap.
Defined.

(** ** Package [object]: the diff of two manifests *)

Section RangeFacts.
Context `{MapOrder} {V : Type}.

Lemma rangeOf_elem_of (m : gmap string V) (k : string) (v : V) :
  (k, v) ∈ rangeOf m ↔ m !! k = Some v.
Proof. rewrite (rangeOf_Permutation V m). apply elem_of_map_to_list. Qed.

Lemma rangeOf_NoDup (m : gmap string V) : NoDup (rangeOf m).*1.
Proof. rewrite (rangeOf_Permutation V m). apply NoDup_fst_map_to_list. Qed.

Lemma rangeOf_empty : rangeOf (∅ : gmap string V) = [].
Proof.
  apply Permutation_nil_r.
  by rewrite (rangeOf_Permutation V ∅), map_to_list_empty.
Qed.

Lemma assoc_rangeOf (m : gmap string V) (k : string) :
  assoc k (rangeOf m) = m !! k.
Proof.
  destruct (m !! k) as [v|] eqn:Hm.
  - apply assoc_elem_of; [apply rangeOf_NoDup|]. by apply rangeOf_elem_of.
  - destruct (assoc k (rangeOf m)) as [v|] eqn:Ha; [|done].
    apply assoc_elem_of in Ha; [|apply rangeOf_NoDup].
    apply rangeOf_elem_of in Ha. congruence.
Qed.
End RangeFacts.

Lemma assoc_not_in {V : Type} (k : string) (l : list (string * V)) :
  k ∉ l.*1 → assoc k l = None.
Proof.
  induction l as [|[k' v'] l IH]; [done|].
  rewrite fmap_cons. intros [Hne Hk]%not_elem_of_cons.
  simpl. rewrite bool_decide_false by done. by apply IH.
Qed.

Section FilterSurvivors.
Context `{RegexpEngine} {V : Type}.

Lemma ignoreLoop_survivor (ak : string) (im : list (string * string))
    (a a' : gmap string V) :
  ignoreLoop ak im a = inr a' →
  (∀ k, k ≠ ak → a' !! k = a !! k)
  ∧ (∀ k v, a' !! k = Some v → a !! k = Some v)
  ∧ (is_Some (a' !! ak) →
     Forall (λ p, patternMatches p ak = false) im.*1).
Proof.
  revert a. induction im as [|[ignored path] im IH]; intros a Hrun.
  { injection Hrun as <-. by repeat split. }
  simpl in Hrun.
  destruct (buildResourceRegexp (strings_TrimSpace ignored))
    as [err|re] eqn:Hre; [done|].
  apply IH in Hrun as (Hother & Hsub & Hsurv).
  assert (Hstep : ∀ k v,
            (if MatchString re ak then delete ak a else a) !! k = Some v →
            a !! k = Some v).
  { intros k v. destruct (MatchString re ak); [|done].
    by intros [_ ?]%lookup_delete_Some. }
  split; [|split].
  - intros k Hk. rewrite Hother by done.
    destruct (MatchString re ak); [|done]. by rewrite lookup_delete_ne.
  - intros k v Hl. by apply Hstep, Hsub.
  - intros [v Hv]. rewrite fmap_cons. constructor.
    + simpl. unfold patternMatches. rewrite Hre.
      destruct (MatchString re ak) eqn:Hm; [|done].
      apply Hsub in Hv. by rewrite lookup_delete_eq in Hv.
    + apply Hsurv. by exists v.
Qed.

Lemma selectLoop_keys (ak : string) (av : V) (sm : list (string * string))
    (a a' : gmap string V) :
  selectLoop ak av sm a = inr a' →
  (∀ k, k ≠ ak → a' !! k = a !! k)
  ∧ (∀ v, a' !! ak = Some v → v = av ∨ a !! ak = Some v).
Proof.
  revert a. induction sm as [|[selected path] sm IH]; intros a Hrun.
  { injection Hrun as <-. split; [done|]. intros v ?. by right. }
  simpl in Hrun.
  destruct (buildResourceRegexp (strings_TrimSpace selected))
    as [err|re] eqn:Hre; [done|].
  apply IH in Hrun as [Hother Hak]. split.
  - intros k Hk. rewrite Hother by done.
    destruct (MatchString re ak); [|done]. by rewrite lookup_insert_ne.
  - intros v Hv. apply Hak in Hv as [->|Hv]; [by left|].
    destruct (MatchString re ak); [|by right].
    rewrite lookup_insert_eq in Hv. injection Hv as <-. by left.
Qed.

Lemma filterResource_loop_survivors (aom : list (string * V))
    (sm im : list (string * string)) (a a' : gmap string V) :
  filterResource_loop aom sm im a = inr a' →
  (∀ k, is_Some (a !! k) →
        Forall (λ p, patternMatches p k = false) im.*1) →
  ∀ k, is_Some (a' !! k) → Forall (λ p, patternMatches p k = false) im.*1.
Proof.
  revert a. induction aom as [|[ak av] aom IH]; intros a Hrun Ha.
  { by injection Hrun as <-. }
  simpl in Hrun.
  destruct (selectLoop ak av sm a) as [err|a1] eqn:Hsel; [done|].
  destruct (ignoreLoop ak im a1) as [err|a2] eqn:Hign; [done|].
  apply selectLoop_keys in Hsel as [Hsel _].
  apply ignoreLoop_survivor in Hign as (Hign & _ & Hsurv).
  apply (IH a2 Hrun). intros k Hk.
  destruct (decide (k = ak)) as [->|Hne]; [by apply Hsurv|].
  apply Ha. by rewrite <-Hsel, <-Hign.
Qed.

Lemma filterResource_loop_subset (aom : list (string * V))
    (sm im : list (string * string)) (a a' : gmap string V) :
  filterResource_loop aom sm im a = inr a' →
  ∀ k v, a' !! k = Some v → (k, v) ∈ aom ∨ a !! k = Some v.
Proof.
  revert a. induction aom as [|[ak av] aom IH]; intros a Hrun k v Hl.
  { injection Hrun as <-. by right. }
  simpl in Hrun.
  destruct (selectLoop ak av sm a) as [err|a1] eqn:Hsel; [done|].
  destruct (ignoreLoop ak im a1) as [err|a2] eqn:Hign; [done|].
  apply selectLoop_keys in Hsel as [Hsel Hsel'].
  apply ignoreLoop_survivor in Hign as (_ & Hsub & _).
  destruct (IH a2 Hrun k v Hl) as [Hin|Hl2]; [left; by right|].
  apply Hsub in Hl2.
  destruct (decide (k = ak)) as [->|Hne].
  - apply Hsel' in Hl2 as [->|Hl2]; [left; by left|by right].
  - right. by rewrite <-Hsel.
Qed.

Lemma filterResource_loop_no_select (aom : list (string * V))
    (im : list (string * string)) (a' : gmap string V) :
  filterResource_loop aom [] im ∅ = inr a' → a' = ∅.
Proof.
  assert (Hgen : ∀ a : gmap string V,
            filterResource_loop aom [] im a = inr a' → a = ∅ → a' = ∅).
  { induction aom as [|[ak av] aom IH]; intros a Hrun ->.
    { by injection Hrun as <-. }
    simpl in Hrun.
    destruct (ignoreLoop ak im ∅) as [err|a2] eqn:Hign; [done|].
    apply (IH a2 Hrun).
    apply ignoreLoop_survivor in Hign as (_ & Hsub & _).
    apply map_eq. intros k. rewrite lookup_empty.
    destruct (a2 !! k) as [v|] eqn:Hk; [|done].
    apply Hsub in Hk. by rewrite lookup_empty in Hk. }
  intros Hrun. by apply (Hgen ∅).
Qed.

Lemma objectIgnorePaths_loop_none (name : string)
    (im : list (string * string)) (acc : list string) :
  Forall (λ p, patternMatches p name = false) im.*1 →
  objectIgnorePaths_loop name im acc = acc.
Proof.
  revert acc. induction im as [|[obj path] im IH]; intros acc Hall; [done|].
  rewrite fmap_cons in Hall. apply Forall_cons in Hall as [Hobj Hall].
  simpl. case_bool_decide; [by apply IH|].
  unfold patternMatches in Hobj. simpl in Hobj.
  destruct (buildResourceRegexp (strings_TrimSpace obj)) as [err|re];
    [by apply IH|].
  rewrite Hobj. by apply IH.
Qed.

(** What the filter keeps matches no ignore pattern, so no ignore path
    applies to it, in whatever order the ignore map is visited. *)
Lemma survivors_have_no_ignore_paths (aom : list (string * V))
    (sm im im' : list (string * string)) (aosm : gmap string V)
    (ak : string) :
  filterResourceWithSelectAndIgnore aom sm im = inr aosm →
  is_Some (aosm !! ak) → im' ≡ₚ im →
  objectIgnorePaths ak im' = [].
Proof.
  intros Hrun Hak Hperm. unfold objectIgnorePaths.
  apply objectIgnorePaths_loop_none. rewrite Hperm.
  apply (filterResource_loop_survivors aom sm im ∅ aosm Hrun); [|done].
  intros k [v Hv]. by rewrite lookup_empty in Hv.
Qed.
End FilterSurvivors.

Section DiffFacts.
Context `{UnstructuredAPI} `{!Encoder} `{!Decoder} `{RegexpEngine}
        `{MapOrder} {D : Differ}.

Lemma manifestDiff_loopA_spec (l : list (string * K8sObject))
    (bom : gmap string K8sObject) (im : list (string * string))
    (verbose : bool) (out : gmap string string) :
  NoDup l.*1 →
  match manifestDiff_loopA l bom im verbose out with
  | inr out' =>
      ∀ k, out' !! k
           = match assoc k l with
             | Some av =>
                 match reportFor k im verbose (Some av) (bom !! k) with
                 | Some r => Some r
                 | None => out !! k
                 end
             | None => out !! k
             end
  | inl err =>
      ∃ k av, (k, av) ∈ l
        ∧ ((YAML av).1 = inl err
           ∨ ∃ bo, bom !! k = Some bo ∧ (YAML bo).1 = inl err)
  end.
Proof.
  revert out. induction l as [|[ak av] l IH]; intros out Hnd.
  { done. }
  rewrite fmap_cons in Hnd. apply NoDup_cons in Hnd as [Hak Hnd].
  cbn [manifestDiff_loopA].
  destruct (YAML av).1 as [err|ay] eqn:Hay.
  { exists ak, av. split; [by left|]. by left. }
  assert (Hfwd : ∀ out1 : gmap string string,
    (∀ k, out1 !! k
          = if bool_decide (ak = k)
            then match reportFor ak im verbose (Some av) (bom !! ak) with
                 | Some r => Some r
                 | None => out !! ak
                 end
            else out !! k) →
    match manifestDiff_loopA l bom im verbose out1 with
    | inr out' =>
        ∀ k, out' !! k
             = match assoc k ((ak, av) :: l) with
               | Some av0 =>
                   match reportFor k im verbose (Some av0) (bom !! k) with
                   | Some r => Some r
                   | None => out !! k
                   end
               | None => out !! k
               end
    | inl err =>
        ∃ k av0, (k, av0) ∈ (ak, av) :: l
          ∧ ((YAML av0).1 = inl err
             ∨ ∃ bo, bom !! k = Some bo ∧ (YAML bo).1 = inl err)
    end).
  { intros out1 Hout1. specialize (IH out1 Hnd).
    destruct (manifestDiff_loopA l bom im verbose out1) as [err|out'].
    - destruct IH as (k & av0 & Hin & Herr). exists k, av0.
      split; [by right|done].
    - intros k. rewrite IH. cbn [assoc]. rewrite Hout1.
      case_bool_decide as Hk.
      + subst k. by rewrite (assoc_not_in ak l Hak).
      + done. }
  destruct (bom !! ak) as [bo|] eqn:Hbo.
  - destruct (YAML bo).1 as [err|by_] eqn:Hby.
    { exists ak, av. split; [by left|]. right. by exists bo. }
    apply Hfwd. intros k. unfold reportFor. rewrite Hay, Hby. cbn zeta.
    destruct (decide (ak = k)) as [<-|Hk].
    + rewrite (bool_decide_true (ak = ak)) by done.
      case_bool_decide; [by rewrite lookup_insert_eq|done].
    + rewrite (bool_decide_false (ak = k)) by done.
      case_bool_decide; [by rewrite lookup_insert_ne|done].
  - apply Hfwd. intros k. unfold reportFor.
    destruct (decide (ak = k)) as [<-|Hk].
    + rewrite (bool_decide_true (ak = ak)) by done.
      by rewrite lookup_insert_eq.
    + rewrite (bool_decide_false (ak = k)) by done.
      by rewrite lookup_insert_ne.
Qed.

Lemma manifestDiff_loopB_spec (l : list (string * K8sObject))
    (aom : gmap string K8sObject) (out : gmap string string) (k : string) :
  manifestDiff_loopB l aom out !! k
  = match assoc k l, aom !! k with
    | Some _, None => Some (missingInA k)
    | _, _ => out !! k
    end.
Proof.
  revert out. induction l as [|[bk bv] l IH]; intros out; [done|].
  cbn [manifestDiff_loopB assoc]. rewrite IH.
  case_bool_decide as Hk.
  - subst bk. destruct (aom !! k) eqn:Ha.
    + by destruct (assoc k l).
    + rewrite lookup_insert_eq. by destruct (assoc k l).
  - destruct (aom !! bk); [done|].
    by rewrite lookup_insert_ne.
Qed.

(** The reports by key, and the objects a failure can come from. *)
Lemma manifestDiff_reports_spec (aom bom : gmap string K8sObject)
    (im : list (string * string)) (verbose : bool) :
  match manifestDiff_reports aom bom im verbose with
  | inr out =>
      ∀ k, out !! k = reportFor k im verbose (aom !! k) (bom !! k)
  | inl err =>
      ∃ k av, aom !! k = Some av
        ∧ ((YAML av).1 = inl err
           ∨ ∃ bo, bom !! k = Some bo ∧ (YAML bo).1 = inl err)
  end.
Proof.
  unfold manifestDiff_reports.
  pose proof (manifestDiff_loopA_spec (rangeOf aom) bom im verbose ∅
                (rangeOf_NoDup aom)) as HA.
  destruct (manifestDiff_loopA (rangeOf aom) bom im verbose ∅)
    as [err|out].
  - destruct HA as (k & av & Hin & Herr). exists k, av.
    split; [by apply rangeOf_elem_of|done].
  - intros k. rewrite manifestDiff_loopB_spec, HA, !assoc_rangeOf.
    rewrite lookup_empty.
    destruct (aom !! k) as [av|] eqn:Ha, (bom !! k) as [bo|] eqn:Hb;
      try done.
    by destruct (reportFor k im verbose (Some av) (Some bo)).
Qed.

Lemma sort_Strings_keys {V : Type} (m : gmap string V) :
  sort_Strings (rangeOf m).*1 = sort_Strings (map_to_list m).*1.
Proof.
  unfold sort_Strings.
  apply (Sorted_unique String.le); try apply Sorted_merge_sort; try apply _.
  by rewrite !merge_sort_Permutation, (rangeOf_Permutation V m).
Qed.

Lemma foldl_append (f : string → string) (keys : list string) (b : string) :
  foldl (λ sb k, sb +:+ f k) b keys
  = b +:+ String.concat EmptyString (f <$> keys).
Proof.
  revert b. induction keys as [|k keys IH]; intros b.
  { simpl. by rewrite String_append_empty_r. }
  cbn [foldl]. rewrite IH, fmap_cons, concat_empty_cons.
  by rewrite String_append_assoc.
Qed.

Lemma manifestDiff_text (aom bom : gmap string K8sObject)
    (im : list (string * string)) (verbose : bool)
    (out : gmap string string) :
  manifestDiff_reports aom bom im verbose = inr out →
  manifestDiff aom bom im verbose
  = inr (String.concat EmptyString
           ((λ k, default EmptyString (out !! k))
              <$> sort_Strings (map_to_list out).*1)).
Proof.
  intros Hout. unfold manifestDiff. rewrite Hout.
  by rewrite foldl_append, String_append_empty_l, sort_Strings_keys.
Qed.

Lemma manifestDiff_renders (aom bom : gmap string K8sObject)
    (im : list (string * string)) (verbose : bool) :
  (∀ k av, aom !! k = Some av →
           renders av ∧ ∀ bo, bom !! k = Some bo → renders bo) →
  ∃ out, manifestDiff_reports aom bom im verbose = inr out.
Proof.
  intros Hr.
  pose proof (manifestDiff_reports_spec aom bom im verbose) as Hspec.
  destruct (manifestDiff_reports aom bom im verbose) as [err|out];
    [|by exists out].
  destruct Hspec as (k & av & Ha & Herr).
  destruct (Hr k av Ha) as [[y Hy] Hb].
  destruct Herr as [Herr|(bo & Hbo & Herr)]; [congruence|].
  destruct (Hb bo Hbo) as [y' Hy']. congruence.
Qed.

(** [manifestDiff], key by key.  When it returns, a key has a report
    exactly as the two indexes hold it: missing in B, missing in A, or the
    difference of the two renderings when that is not empty; the text is
    the reports in byte order of their keys, whatever order the maps are
    visited in.  It can fail only with the rendering error of an object of A
    or of the object of B under a key of A: an object only in B is never
    rendered.  When those objects can be rendered it does return. *)
Theorem manifestDiff_by_key (aom bom : gmap string K8sObject)
    (im : list (string * string)) (verbose : bool) :
  match manifestDiff_reports aom bom im verbose with
  | inr out =>
      (∀ k, out !! k = reportFor k im verbose (aom !! k) (bom !! k))
      ∧ manifestDiff aom bom im verbose
        = inr (String.concat EmptyString
                 ((λ k, default EmptyString (out !! k))
                    <$> sort_Strings (map_to_list out).*1))
  | inl err =>
      manifestDiff aom bom im verbose = inl err
      ∧ ∃ k av, aom !! k = Some av
          ∧ ((YAML av).1 = inl err
             ∨ ∃ bo, bom !! k = Some bo ∧ (YAML bo).1 = inl err)
  end
  ∧ ((∀ k av, aom !! k = Some av →
              renders av ∧ ∀ bo, bom !! k = Some bo → renders bo) →
     ∃ out, manifestDiff_reports aom bom im verbose = inr out).
Proof.
  split; [|apply manifestDiff_renders].
  pose proof (manifestDiff_reports_spec aom bom im verbose) as Hspec.
  pose proof (manifestDiff_text aom bom im verbose) as Htext.
  unfold manifestDiff in *.
  destruct (manifestDiff_reports aom bom im verbose) as [err|out].
  - by split.
  - split; [done|]. by apply Htext.
Qed.
End DiffFacts.

Section DiffPipeline.
Context `{UnstructuredAPI} `{!Encoder} `{!Decoder} `{RegexpEngine}
        `{MapOrder} {D : Differ}.

Lemma manifestDiff_empty (im : list (string * string)) (verbose : bool) :
  manifestDiff ∅ ∅ im verbose = inr EmptyString.
Proof.
  unfold manifestDiff, manifestDiff_reports.
  rewrite (rangeOf_empty (V := K8sObject)). cbn [manifestDiff_loopA
    manifestDiff_loopB].
  by rewrite (rangeOf_empty (V := string)).
Qed.

Lemma filterResource_loop_no_rules {V : Type} (aom : list (string * V))
    (a : gmap string V) :
  filterResource_loop aom [] [] a = inr a.
Proof. induction aom as [|[ak av] aom IH]; [done|]. simpl. apply IH. Qed.

Lemma getObjPathMap_empty : getObjPathMap EmptyString = ∅.
Proof. reflexivity. Qed.

Lemma getKeyValueMap_empty : getKeyValueMap EmptyString = ∅.
Proof. reflexivity. Qed.

(** Without a select expression the filtered diff compares nothing.  The
    select map is then empty, the filter retains nothing of either manifest,
    and the diff of the two empty indexes is the empty text: however
    different the two manifests are, the call reports no difference (or
    fails, on a rename or ignore pattern).  With no rename and no ignore
    expression either, it always returns the empty text. *)
Theorem diff_without_select_is_empty
    (a b renameResources ignoreResources : string) (verbose : bool) :
  (ManifestDiffWithRenameSelectIgnore a b renameResources EmptyString
     ignoreResources verbose = inr EmptyString
   ∨ ∃ err, ManifestDiffWithRenameSelectIgnore a b renameResources
              EmptyString ignoreResources verbose = inl err)
  ∧ ManifestDiffWithRenameSelectIgnore a b EmptyString EmptyString
      EmptyString verbose = inr EmptyString.
Proof.
  split.
  - unfold ManifestDiffWithRenameSelectIgnore.
    rewrite getObjPathMap_empty.
    destruct (ParseK8sObjectsFromYAMLManifest a) as [[ao ea] la].
    destruct (ParseK8sObjectsFromYAMLManifest b) as [[bo eb] lb].
    destruct (if bool_decide (size (getKeyValueMap renameResources) ≠ 0%nat)
              then renameResource (rangeOf (ToMap ao))
                     (rangeOf (getKeyValueMap renameResources))
              else inr (ToMap ao)) as [err|aom].
    { right. by exists err. }
    rewrite (rangeOf_empty (V := string)).
    unfold filterResourceWithSelectAndIgnore.
    destruct (filterResource_loop (rangeOf aom) []
                (rangeOf (getObjPathMap ignoreResources)) ∅)
      as [err|aosm] eqn:Ha.
    { right. by exists err. }
    destruct (filterResource_loop (rangeOf (ToMap bo)) []
                (rangeOf (getObjPathMap ignoreResources)) ∅)
      as [err|bosm] eqn:Hb.
    { right. by exists err. }
    apply filterResource_loop_no_select in Ha as ->.
    apply filterResource_loop_no_select in Hb as ->.
    left. apply manifestDiff_empty.
  - unfold ManifestDiffWithRenameSelectIgnore.
    rewrite getObjPathMap_empty, getKeyValueMap_empty.
    destruct (ParseK8sObjectsFromYAMLManifest a) as [[ao ea] la].
    destruct (ParseK8sObjectsFromYAMLManifest b) as [[bo eb] lb].
    rewrite bool_decide_false by (rewrite map_size_empty; by intros ?).
    rewrite (rangeOf_empty (V := string)).
    unfold filterResourceWithSelectAndIgnore.
    rewrite !filterResource_loop_no_rules.
    apply manifestDiff_empty.
Qed.

Lemma manifestDiff_loopA_withoutPaths (l : list (string * K8sObject))
    (bom : gmap string K8sObject) (im : list (string * string))
    (verbose : bool) (out : gmap string string) :
  (∀ k o, (k, o) ∈ l → objectIgnorePaths k im = []) →
  manifestDiff_loopA (H3 := D) l bom im verbose out
  = manifestDiff_loopA (H3 := withoutPaths D) l bom im verbose out.
Proof.
  revert out. induction l as [|[ak av] l IH]; intros out Hl; [done|].
  cbn [manifestDiff_loopA].
  assert (Hrest : ∀ k o, (k, o) ∈ l → objectIgnorePaths k im = []).
  { intros k o Hin. apply (Hl k o). by right. }
  destruct (YAML av).1 as [err|ay]; [done|].
  destruct (bom !! ak) as [bo|]; [|by apply IH].
  destruct (YAML bo).1 as [err|by_]; [done|].
  rewrite (Hl ak av) by (by left).
  destruct verbose; simpl; by apply IH.
Qed.

Lemma manifestDiff_withoutPaths (aom bom : gmap string K8sObject)
    (im : list (string * string)) (verbose : bool) :
  (∀ k, is_Some (aom !! k) → objectIgnorePaths k im = []) →
  manifestDiff (H3 := D) aom bom im verbose
  = manifestDiff (H3 := withoutPaths D) aom bom im verbose.
Proof.
  intros Hk. unfold manifestDiff, manifestDiff_reports.
  rewrite manifestDiff_loopA_withoutPaths; [done|].
  intros k o Hin%rangeOf_elem_of. apply Hk. by exists o.
Qed.

(** The ignore paths never reach the differ.  An ignore entry
    [kind:namespace:name:path] puts its first three components in the
    ignore map as a pattern, and the filter drops every object whose key
    matches a pattern of that map, with or without a path.  So an object
    the filter keeps matches no ignore pattern and [objectIgnorePaths]
    gives it no path, in whatever order the map is visited; the filtered
    diff is the same as with a differ that is never told a path: a
    path-scoped ignore removes the whole object from the comparison. *)
Theorem ignore_paths_never_reach_the_differ
    (a b renameResources selectResources ignoreResources : string)
    (verbose : bool) :
  (∀ (V : Type) (aom : list (string * V)) (sm im im' : list (string * string))
     (aosm : gmap string V) (ak : string),
     filterResourceWithSelectAndIgnore aom sm im = inr aosm →
     is_Some (aosm !! ak) → im' ≡ₚ im →
     objectIgnorePaths ak im' = [])
  ∧ ManifestDiffWithRenameSelectIgnore (H3 := D) a b renameResources
      selectResources ignoreResources verbose
    = ManifestDiffWithRenameSelectIgnore (H3 := withoutPaths D) a b
        renameResources selectResources ignoreResources verbose.
Proof.
  split.
  { intros V. apply survivors_have_no_ignore_paths. }
  unfold ManifestDiffWithRenameSelectIgnore.
  destruct (ParseK8sObjectsFromYAMLManifest a) as [[ao ea] la].
  destruct (ParseK8sObjectsFromYAMLManifest b) as [[bo eb] lb].
  destruct (if bool_decide (size (getKeyValueMap renameResources) ≠ 0%nat)
            then renameResource (rangeOf (ToMap ao))
                   (rangeOf (getKeyValueMap renameResources))
            else inr (ToMap ao)) as [err|aom]; [done|].
  destruct (filterResourceWithSelectAndIgnore (rangeOf aom)
              (rangeOf (getObjPathMap selectResources))
              (rangeOf (getObjPathMap ignoreResources)))
    as [err|aosm] eqn:Ha; [done|].
  destruct (filterResourceWithSelectAndIgnore (rangeOf (ToMap bo))
              (rangeOf (getObjPathMap selectResources))
              (rangeOf (getObjPathMap ignoreResources)))
    as [err|bosm]; [done|].
  apply manifestDiff_withoutPaths. intros k Hk.
  by apply (survivors_have_no_ignore_paths _ _ _ _ _ _ Ha Hk).
Qed.

Lemma parsed_cached (manifest : string) (o : K8sObject) :
  o ∈ (ParseK8sObjectsFromYAMLManifest manifest).1.1 →
  ∃ t, yaml o = Some t.
Proof.
  rewrite ParseK8sObjectsFromYAMLManifest_fates. simpl.
  intros (c & _ & Hc)%list_elem_of_omap.
  eexists. by apply parsedOf_text.
Qed.

Lemma ToMap_elem_of (os : list K8sObject) (k : string) (o : K8sObject) :
  ToMap os !! k = Some o → o ∈ os.
Proof.
  intros Hl. apply ToMap_loop_lookup in Hl as [Hl|[Hl _]].
  - destruct Hl as (pre & post & -> & _). apply elem_of_app. right. by left.
  - by rewrite lookup_empty in Hl.
Qed.

Lemma manifestDiff_self (m : gmap string K8sObject)
    (im : list (string * string)) (verbose : bool) :
  reflexiveDiffer →
  (∀ k o, m !! k = Some o → ∃ t, yaml o = Some t) →
  manifestDiff m m im verbose = inr EmptyString.
Proof.
  intros [Hd Hc] Hm.
  destruct (manifestDiff_renders m m im verbose) as [out Hout].
  { intros k av Ha. split.
    - destruct (Hm k av Ha) as [t Ht]. exists t.
      by rewrite (YAML_cached av t Ht).
    - intros bo Hb. destruct (Hm k bo Hb) as [t Ht]. exists t.
      by rewrite (YAML_cached bo t Ht). }
  rewrite (manifestDiff_text m m im verbose out Hout).
  pose proof (manifestDiff_reports_spec m m im verbose) as Hspec.
  rewrite Hout in Hspec.
  assert (out = ∅) as ->.
  { apply map_eq. intros k. rewrite Hspec, lookup_empty.
    destruct (m !! k) as [o|] eqn:Hk; [|done].
    destruct (Hm k o Hk) as [t Ht]. unfold reportFor.
    rewrite (YAML_cached o t Ht). simpl.
    destruct verbose; by rewrite ?Hd, ?Hc, bool_decide_false by naive_solver. }
  by rewrite map_to_list_empty.
Qed.

(** A manifest does not differ from itself, given a differ that finds no
    difference between a text and itself: [ManifestDiff] of a manifest with
    itself is the empty text, whatever the manifest holds, and with any
    select and ignore expressions the filtered diff is empty too, unless a
    pattern makes it fail. *)
Theorem manifest_never_differs_from_itself
    (a selectResources ignoreResources : string) (verbose : bool) :
  reflexiveDiffer →
  ManifestDiff a a verbose = inr EmptyString
  ∧ (ManifestDiffWithRenameSelectIgnore a a EmptyString selectResources
       ignoreResources verbose = inr EmptyString
     ∨ ∃ err, ManifestDiffWithRenameSelectIgnore a a EmptyString
                selectResources ignoreResources verbose = inl err).
Proof.
  intros Hrefl.
  assert (Hcached : ∀ k o,
            ToMap (ParseK8sObjectsFromYAMLManifest a).1.1 !! k = Some o →
            ∃ t, yaml o = Some t).
  { intros k o Hl. apply (parsed_cached a). by apply (ToMap_elem_of _ k). }
  split.
  - unfold ManifestDiff.
    destruct (ParseK8sObjectsFromYAMLManifest a) as [[ao ea] la].
    by apply manifestDiff_self.
  - unfold ManifestDiffWithRenameSelectIgnore.
    rewrite getKeyValueMap_empty.
    destruct (ParseK8sObjectsFromYAMLManifest a) as [[ao ea] la].
    rewrite bool_decide_false by (rewrite map_size_empty; by intros ?).
    unfold filterResourceWithSelectAndIgnore.
    destruct (filterResource_loop (rangeOf (ToMap ao))
                (rangeOf (getObjPathMap selectResources))
                (rangeOf (getObjPathMap ignoreResources)) ∅)
      as [err|aosm] eqn:Ha.
    { right. by exists err. }
    left. apply manifestDiff_self; [done|].
    intros k o Hl.
    apply (filterResource_loop_subset _ _ _ _ _ Ha) in Hl as [Hin|Hl].
    + apply rangeOf_elem_of in Hin. by apply (Hcached k).
    + by rewrite lookup_empty in Hl.
Qed.
End DiffPipeline.

Lemma textDiffer_reflexive : reflexiveDiffer (H2 := textDiffer).
Proof.
  split; intros; simpl; by rewrite bool_decide_true.
Qed.

Lemma manifestDiff_by_key_witness :
  ∃ out, manifestDiff_reports (H := treeUnstructured) (H0 := treeEncoder)
           (H2 := fragRegexp) (H3 := textDiffer) (H4 := listMapOrder)
           {["Deployment::pilot" := deploymentNamed "pilot"]} ∅ [] false
         = inr out.
Proof.
  apply (proj2 (manifestDiff_by_key (H := treeUnstructured)
                  (H0 := treeEncoder) (H2 := fragRegexp)
                  (H3 := listMapOrder) (D := textDiffer)
                  {["Deployment::pilot" := deploymentNamed "pilot"]}
                  ∅ [] false)).
  intros k av [_ <-]%lookup_singleton_Some. split.
  - eexists. vm_compute. reflexivity.
  - intros bo Hbo. by rewrite lookup_empty in Hbo.
Defined.

Lemma manifest_never_differs_from_itself_witness :
  ManifestDiff (H := treeUnstructured) (H0 := treeEncoder)
    (H1 := treeDecoder) (H2 := fragRegexp) (H3 := textDiffer)
    (H4 := listMapOrder) scenarioManifest scenarioManifest false
  = inr EmptyString.
Proof.
  apply (manifest_never_differs_from_itself (H := treeUnstructured)
           (H0 := treeEncoder) (H1 := treeDecoder) (H2 := fragRegexp)
           (H3 := listMapOrder) (D := textDiffer)
           scenarioManifest EmptyString EmptyString false).
  split; intros; simpl; by rewrite bool_decide_true.
Defined.

(** Two manifests whose Deployment differs in the replicas.  Selected, the
    object is reported; an ignore entry for that object, even one that names
    an unrelated path, hides the difference; and without a select expression
    nothing is reported at all. *)
Example path_ignore_hides_the_object :
  let diff := ManifestDiffWithRenameSelectIgnore (H := treeUnstructured)
                (H0 := treeEncoder) (H1 := treeDecoder) (H2 := fragRegexp)
                (H3 := textDiffer) (H4 := listMapOrder)
                (replicasManifest "one") (replicasManifest "two")
                EmptyString in
  (∃ report, diff "Deployment:*:pilot" EmptyString false = inr report
             ∧ report ≠ EmptyString)
  ∧ diff "Deployment:*:pilot" "Deployment:*:pilot:metadata.labels" false
    = inr EmptyString
  ∧ diff EmptyString EmptyString false = inr EmptyString.
Proof.
  cbn zeta. split; [|split].
  - eexists. split; [vm_compute; reflexivity|]. discriminate.
  - vm_compute; reflexivity.
  - vm_compute; reflexivity.
Qed.

(** ** Package [object]: the rename, select and ignore expressions *)

Lemma getKeyValueMap_loop_lookup (rs : list string) (rm : gmap string string)
    (k v : string) :
  getKeyValueMap_loop rs rm !! k = Some v
  ↔ (∃ pre r post, rs = pre ++ r :: post ∧ ruleEntry r = Some (k, v)
       ∧ Forall (λ r', ∀ v', ruleEntry r' ≠ Some (k, v')) post)
    ∨ (rm !! k = Some v ∧ Forall (λ r', ∀ v', ruleEntry r' ≠ Some (k, v')) rs).
Proof.
  revert rm. induction rs as [|r rs IH]; intros rm.
  { simpl. split.
    - intros Hl. right. by split.
    - intros [(pre & r & post & Heq & _)|[Hl _]]; [|done].
      by destruct pre. }
  assert (Hstep : getKeyValueMap_loop (r :: rs) rm
                  = getKeyValueMap_loop rs
                      (match ruleEntry r with
                       | Some (k0, v0) => <[k0 := v0]> rm
                       | None => rm
                       end)).
  { unfold ruleEntry. simpl.
    destruct (strings_Split r "->") as [|a [|b [|c l]]]; done. }
  rewrite Hstep, IH. clear Hstep IH. split.
  - intros [(pre & r0 & post & -> & Hr0 & Hpost)|[Hl Hrs]].
    + left. by exists (r :: pre), r0, post.
    + destruct (ruleEntry r) as [[k0 v0]|] eqn:Hr.
      * destruct (decide (k0 = k)) as [->|Hne].
        -- rewrite lookup_insert_eq in Hl. injection Hl as ->.
           left. by exists [], r, rs.
        -- rewrite lookup_insert_ne in Hl by done. right.
           split; [done|]. constructor; [|done]. intros v'. congruence.
      * right. split; [done|]. constructor; [|done]. intros v'. congruence.
  - intros [(pre & r0 & post & Heq & Hr0 & Hpost)|[Hl Hrs]].
    + destruct pre as [|p pre]; simpl in Heq.
      * injection Heq as -> ->. right. rewrite Hr0.
        split; [by rewrite lookup_insert_eq|done].
      * injection Heq as -> ->. left. by exists pre, r0, post.
    + apply Forall_cons in Hrs as [Hr Hrs]. right. split; [|done].
      destruct (ruleEntry r) as [[k0 v0]|]; [|done].
      rewrite lookup_insert_ne; [done|]. intros ->. by apply (Hr v0).
Qed.

Lemma getObjPathMap_loop_lookup (rs : list string) (rm : gmap string string)
    (k p : string) :
  getObjPathMap_loop rs rm !! k = Some p
  ↔ (∃ pre r post, rs = pre ++ r :: post ∧ objEntry r = (k, p)
       ∧ Forall (λ r', (objEntry r').1 ≠ k) post)
    ∨ (rm !! k = Some p ∧ Forall (λ r', (objEntry r').1 ≠ k) rs).
Proof.
  revert rm. induction rs as [|r rs IH]; intros rm.
  { simpl. split.
    - intros Hl. right. by split.
    - intros [(pre & r & post & Heq & _)|[Hl _]]; [|done].
      by destruct pre. }
  assert (Hstep : getObjPathMap_loop (r :: rs) rm
                  = getObjPathMap_loop rs
                      (<[(objEntry r).1 := (objEntry r).2]> rm)).
  { unfold objEntry. simpl.
    destruct (strings_Split r ":") as [|a [|b [|c [|d l]]]]; done. }
  rewrite Hstep, IH. clear Hstep IH. split.
  - intros [(pre & r0 & post & -> & Hr0 & Hpost)|[Hl Hrs]].
    + left. by exists (r :: pre), r0, post.
    + destruct (decide ((objEntry r).1 = k)) as [Hk|Hne].
      * rewrite Hk, lookup_insert_eq in Hl. injection Hl as Hp.
        left. exists [], r, rs. split; [done|]. split; [|done].
        rewrite <-Hk, <-Hp. by destruct (objEntry r).
      * rewrite lookup_insert_ne in Hl by done. right.
        split; [done|]. by constructor.
  - intros [(pre & r0 & post & Heq & Hr0 & Hpost)|[Hl Hrs]].
    + destruct pre as [|q pre]; simpl in Heq.
      * injection Heq as -> ->. right. rewrite Hr0. simpl.
        split; [by rewrite lookup_insert_eq|done].
      * injection Heq as -> ->. left. by exists pre, r0, post.
    + apply Forall_cons in Hrs as [Hr Hrs]. right. split; [|done].
      by rewrite lookup_insert_ne.
Qed.

(** How the three expressions are read.  They are cut at the commas.  In
    a rename expression an entry is a rule only if [->] cuts it in exactly
    two; any other entry is dropped without a message, and of two rules
    with the same left side the later one stays.  In a select or ignore
    expression every entry counts: with four components or more it stands
    for the key of its first three and the path in its fourth (further
    components are dropped), with fewer it stands for itself with the empty
    path; of two entries with the same key the later one stays.  The empty
    expression gives the empty map. *)
Theorem expressions_last_entry_wins (rs : string) :
  (∀ k v, getKeyValueMap rs !! k = Some v
          ↔ ∃ pre r post, strings_Split rs "," = pre ++ r :: post
              ∧ ruleEntry r = Some (k, v)
              ∧ Forall (λ r', ∀ v', ruleEntry r' ≠ Some (k, v')) post)
  ∧ (∀ k p, getObjPathMap rs !! k = Some p
            ↔ rs ≠ EmptyString
              ∧ ∃ pre r post, strings_Split rs "," = pre ++ r :: post
                  ∧ objEntry r = (k, p)
                  ∧ Forall (λ r', (objEntry r').1 ≠ k) post).
Proof.
  split.
  - intros k v. unfold getKeyValueMap. case_bool_decide as Hlen.
    + assert (rs = EmptyString) as -> by (by destruct rs).
      rewrite lookup_empty. split; [done|].
      intros (pre & r & post & Heq & Hr & _).
      destruct pre as [|q [|q' pre]]; try done.
      injection Heq as <- <-. done.
    + rewrite getKeyValueMap_loop_lookup. split.
      * intros [?|[Hl _]]; [done|]. by rewrite lookup_empty in Hl.
      * intros ?. by left.
  - intros k p. unfold getObjPathMap. case_bool_decide as Hlen.
    + assert (rs = EmptyString) as -> by (by destruct rs).
      rewrite lookup_empty. split; [done|]. by intros [? _].
    + rewrite getObjPathMap_loop_lookup. split.
      * intros [?|[Hl _]]; [|by rewrite lookup_empty in Hl].
        split; [|done]. by intros ->.
      * intros [_ ?]. by left.
Qed.

(** A rename expression with a malformed entry and a repeated left side,
    and an ignore expression with a path and a fifth component. *)
Example expressions_read :
  getKeyValueMap "a->b,junk,x->y->z,a->c" = {["a" := "c"]}
  ∧ getObjPathMap "Deployment:*:pilot:spec.replicas:more,Service"
    = {["Deployment:*:pilot" := "spec.replicas"; "Service" := ""]}.
Proof. split; vm_compute; reflexivity. Qed.

(** ** Package [mesh]: the overlay built from [--set] arguments *)

Section SetOverlayFacts.
Context `{SetOverlay.API}.

Lemma setLoop_success (setOverlay : list string) (force : bool)
    (tree tree' : SetOverlay.Tree) (log log' : list string) :
  SetOverlay.setLoop setOverlay force tree log = (inr tree', log') →
  log' = log
  ∧ Forall (λ kv, length (strings_Split kv "=") = 2%nat) setOverlay
  ∧ SetOverlay.writes setOverlay tree = Some tree'
  ∧ SetOverlay.setLoop setOverlay true tree log = (inr tree', log).
Proof.
  revert tree. induction setOverlay as [|kv rest IH]; intros tree Hrun.
  { simpl in Hrun. injection Hrun as <- <-. by repeat split. }
  cbn [SetOverlay.setLoop SetOverlay.writes] in *.
  destruct (strings_Split kv "=") as [|k [|v [|x l]]] eqn:Hkv; try done.
  destruct (SetOverlay.tpath_WriteNode tree (SetOverlay.util_PathFromString k)
              (SetOverlay.util_ParseValue v)) as [err|tree1]; [done|].
  destruct (SetOverlay.yaml_Marshal tree1) as [err|testTree]; [done|].
  destruct (SetOverlay.util_UnmarshalWithJSONPB testTree) as [err|icps];
    [done|].
  cbn zeta in *.
  destruct (bool_decide
              (length (SetOverlay.validate_CheckIstioControlPlaneSpec
                         icps true) ≠ 0%nat) && negb force) eqn:Hcheck;
    [done|].
  rewrite andb_false_r.
  apply IH in Hrun as (-> & Hwf & Hw & Hforce).
  repeat split; try done. constructor; [|done]. by rewrite Hkv.
Qed.

(** When [makeTreeFromSetList] succeeds.  Every argument was cut by [=] in
    exactly two, so a value that itself holds an [=] is refused; nothing
    was logged; with [--force] the call succeeds as well, with the same
    text; and the text is the empty one for no argument, and otherwise the
    marshalled tree after the write of [defaultNamespace] and the writes of
    the arguments in order. *)
Theorem makeTreeFromSetList_success (setOverlay : list string)
    (force : bool) (out : string) (log : list string) :
  SetOverlay.makeTreeFromSetList setOverlay force = (inr out, log) →
  log = []
  ∧ Forall (λ kv, length (strings_Split kv "=") = 2%nat) setOverlay
  ∧ SetOverlay.makeTreeFromSetList setOverlay true = (inr out, [])
  ∧ ((setOverlay = [] ∧ out = EmptyString)
     ∨ ∃ t0 tree,
         SetOverlay.tpath_WriteNode SetOverlay.emptyTree
           (SetOverlay.util_PathFromString "defaultNamespace")
           (SetOverlay.stringNode "istio-system") = inr t0
         ∧ SetOverlay.writes setOverlay t0 = Some tree
         ∧ SetOverlay.yaml_Marshal tree = inr out).
Proof.
  unfold SetOverlay.makeTreeFromSetList. case_bool_decide as Hlen.
  { intros [= <- <-]. destruct setOverlay; [|done].
    repeat split; try done. by left. }
  destruct (SetOverlay.tpath_WriteNode SetOverlay.emptyTree
              (SetOverlay.util_PathFromString "defaultNamespace")
              (SetOverlay.stringNode "istio-system")) as [err|t0] eqn:Ht0;
    [done|].
  destruct (SetOverlay.setLoop setOverlay force t0 []) as [[err|tree] log0]
    eqn:Hloop; [done|].
  apply setLoop_success in Hloop as (-> & Hwf & Hw & Hforce).
  rewrite Hforce.
  destruct (SetOverlay.yaml_Marshal tree) as [err|out0] eqn:Hm; [done|].
  intros [= <- <-]. repeat split; try done.
  right. by exists t0, tree.
Qed.
End SetOverlayFacts.

Lemma makeTreeFromSetList_success_witness :
  Forall (λ kv, length (strings_Split kv "=") = 2%nat)
    ["profile=demo"; "hub=docker.io/istio"]
  ∧ SetOverlay.makeTreeFromSetList (H := SetOverlay.flatAPI)
      ["profile=demo"; "hub=docker.io/istio"] true
    = (inr ("defaultNamespace: istio-system" +:+ String "010" (
            "profile: demo" +:+ String "010" (
            "hub: docker.io/istio" +:+ String "010" ""))), []).
Proof.
  destruct (makeTreeFromSetList_success (H := SetOverlay.flatAPI)
              ["profile=demo"; "hub=docker.io/istio"] false
              ("defaultNamespace: istio-system" +:+ String "010" (
               "profile: demo" +:+ String "010" (
               "hub: docker.io/istio" +:+ String "010" ""))) [])
    as (_ & Hwf & Hforce & _).
  - vm_compute. reflexivity.
  - by split.
Defined.

(** A value that holds an [=] is refused, and a validation error stops the
    call unless [--force] is given. *)
Example makeTreeFromSetList_refusals :
  (SetOverlay.makeTreeFromSetList (H := SetOverlay.flatAPI)
     ["values=a=b"] false).1
  = inl "bad argument values=a=b: expect format key=value"
  ∧ SetOverlay.makeTreeFromSetList (H := SetOverlay.flatAPI)
      ["bad=x"] false
    = (inl "bad path=value (bad=x): unknown field bad",
       ["Run the command with the --force flag if you want to ignore the validation error and proceed."])
  ∧ (SetOverlay.makeTreeFromSetList (H := SetOverlay.flatAPI)
       ["bad=x"] true).1
    = inr ("defaultNamespace: istio-system" +:+ String "010" (
           "bad: x" +:+ String "010" "")).
Proof. repeat split; vm_compute; reflexivity. Qed.

(** ** Package [mesh]: what counts as an error of [kubectl] *)

Lemma rev_app_app (a b c : string) :
  String.rev_app (a +:+ b) c = String.rev_app b (String.rev_app a c).
Proof.
  revert c. induction a as [|x a IH]; intros c; [done|].
  rewrite String_append_cons. cbn [String.rev_app]. apply IH.
Qed.

Lemma String_rev_append (a b : string) :
  String.rev (a +:+ b) = String.rev b +:+ String.rev a.
Proof. unfold String.rev. by rewrite rev_app_app, rev_app_append. Qed.

Lemma String_rev_involutive (s : string) : String.rev (String.rev s) = s.
Proof. unfold String.rev at 2. by rewrite rev_rev_app. Qed.

Lemma prefix_cons (a c : ascii) (r s : string) :
  String.prefix (String a r) (String c s)
  = if decide (a = c) then String.prefix r s else false.
Proof.
  change (String.prefix (String a r) (String c s))
    with (match ascii_dec a c with
          | left _ => String.prefix r s
          | right _ => false
          end).
  destruct (ascii_dec a c), (decide (a = c)); done.
Qed.

Lemma prefix_append (a b : string) : String.prefix a (a +:+ b) = true.
Proof.
  induction a as [|x a IH]; [apply prefix_empty|].
  rewrite String_append_cons, prefix_cons. by rewrite decide_True.
Qed.

Lemma prefix_within (y : ascii) (t r u : string) :
  String.prefix r (u +:+ String y t) = true → y ∉ bytes r →
  (String.length r ≤ String.length u)%nat.
Proof.
  revert r. induction u as [|c u IH]; intros r Hp Hy.
  - destruct r as [|a r]; [done|].
    rewrite String_append_empty_l, prefix_cons in Hp.
    destruct (decide (a = y)) as [->|]; [|done].
    exfalso. apply Hy. unfold bytes. simpl. by left.
  - destruct r as [|a r]; [simpl; lia|].
    rewrite String_append_cons, prefix_cons in Hp.
    destruct (decide (a = c)); [|done].
    simpl. apply le_n_S, IH; [done|].
    intros Hin. apply Hy. unfold bytes in *. simpl. by right.
Qed.

Lemma leadingSpace_rune (R : list string) (s : string) (k : nat) :
  leadingSpace R s = S k →
  ∃ r, r ∈ R ∧ String.prefix r s = true ∧ String.length r = S k.
Proof.
  unfold leadingSpace.
  destruct (filter (λ r, String.prefix r s = true) R) as [|r l] eqn:Hf;
    [done|].
  intros Hlen. exists r.
  assert (r ∈ filter (λ r, String.prefix r s = true) R) as Hin
    by (rewrite Hf; by left).
  apply list_elem_of_filter in Hin as [Hp Hin]. done.
Qed.

(** Trimming stops at a byte that no white-space rune holds. *)
Lemma trimLeft_go_stops (R : list string) (y : ascii) (t u : string)
    (skip : nat) :
  Forall (λ r, y ∉ bytes r) R →
  leadingSpace R (String y t) = 0%nat →
  (skip ≤ String.length u)%nat →
  ∃ u', trimLeft_go R skip (u +:+ String y t) = u' +:+ String y t.
Proof.
  intros HR Hy. revert skip. induction u as [|c u IH]; intros skip Hskip.
  - simpl in Hskip. assert (skip = 0%nat) as -> by lia.
    exists EmptyString. rewrite !String_append_empty_l.
    cbn [trimLeft_go]. by rewrite Hy.
  - rewrite String_append_cons. cbn [trimLeft_go].
    destruct skip as [|k].
    + destruct (leadingSpace R (String c (u +:+ String y t))) as [|k] eqn:Hl.
      * exists (String c u). by rewrite String_append_cons.
      * apply leadingSpace_rune in Hl as (r & Hin & Hp & Hlen).
        apply IH.
        rewrite <-String_append_cons in Hp.
        apply prefix_within in Hp.
        -- simpl in Hp. lia.
        -- by apply (proj1 (Forall_forall _ _) HR).
    + apply IH. simpl in Hskip. lia.
Qed.

(** An error after the known warning goes unnoticed.  Standard error that
    begins with an entry of [ignoreStdErrList] is ignorable whatever
    follows the entry, so a component whose [kubectl] run returned no error
    value but printed the warning and then an error message does not count
    as failed: it is logged as installed, and neither its standard error nor
    its standard output is printed. *)
Theorem ignoreError_prefix_hides_the_rest {E : Type} (warning rest : string)
    (cn stdout : string) :
  warning ∈ ignoreStdErrList →
  ignoreError (warning +:+ rest) = true
  ∧ componentFailed (E := E) (mkApplyOutput stdout (warning +:+ rest) None)
    = false
  ∧ componentLog (E := E) cn (mkApplyOutput stdout (warning +:+ rest) None)
    = [LogComponentInstalled cn].
Proof.
  intros Hw.
  assert (Hig : ignoreError (warning +:+ rest) = true).
  { apply ignoreError_iff. right. exists warning. split; [done|].
    apply list_elem_of_singleton in Hw. subst warning.
    unfold strings_TrimSpace, strings_HasPrefix.
    match goal with
    | |- context [trimLeft_go spaceRunes 0 (?w +:+ rest)] =>
        assert (trimLeft_go spaceRunes 0 (w +:+ rest) = w +:+ rest) as ->
          by reflexivity;
        set (W := w)
    end.
    rewrite String_rev_append.
    destruct (trimLeft_go_stops (String.rev <$> spaceRunes) "y"
                (String.rev (String.substring 0 112 W))
                (String.rev rest) 0) as [u' Hu'].
    - apply (bool_decide_unpack _). by vm_compute.
    - by vm_compute.
    - lia.
    - change (String.rev W)
        with (String "y" (String.rev (String.substring 0 112 W))).
      rewrite Hu'.
      change (String "y" (String.rev (String.substring 0 112 W)))
        with (String.rev W).
      rewrite String_rev_append, String_rev_involutive.
      apply prefix_append. }
  split; [done|].
  unfold componentFailed, componentLog. simpl. rewrite Hig. simpl.
  split; [|done].
  rewrite ?bool_decide_false by (by intros [? ?]). done.
Qed.

Lemma ignoreError_prefix_hides_the_rest_witness :
  ignoreError warningThenError = true.
Proof.
  apply (ignoreError_prefix_hides_the_rest (E := unit)
           "Warning: kubectl apply should be used on resource created by either kubectl create --save-config or kubectl apply"
           (String "010" "error: unable to recognize the manifest")
           "Pilot" EmptyString).
  by left.
Defined.

(** ** Package [object]: a line the scanner cannot hold *)

Lemma scanLines_go_full (cur s : string) :
  MaxScanTokenSize ≤ len cur → scanLines_go cur s = [].
Proof.
  revert cur. induction s as [|c s IH]; intros cur Hlen.
  - cbn [scanLines_go].
    rewrite bool_decide_false.
    + by rewrite bool_decide_false by lia.
    + intros ->. unfold len, MaxScanTokenSize in Hlen. simpl in Hlen. lia.
  - cbn [scanLines_go]. case_bool_decide.
    + by rewrite bool_decide_false by lia.
    + apply IH. unfold len in *. cbn [String.length]. lia.
Qed.

Lemma scanLines_go_long (cur long rest : string) :
  MaxScanTokenSize ≤ len cur + len long →
  "010"%char ∉ bytes long →
  scanLines_go cur (long +:+ rest) = [].
Proof.
  revert cur. induction long as [|c long IH]; intros cur Hlen Hnl.
  - rewrite String_append_empty_l. apply scanLines_go_full.
    unfold len in *. simpl in Hlen. lia.
  - rewrite String_append_cons. cbn [scanLines_go].
    unfold bytes in Hnl. cbn [String.list_ascii_of_string] in Hnl.
    apply not_elem_of_cons in Hnl as [Hc Hnl].
    rewrite bool_decide_false by done.
    apply IH; [|done]. unfold len in *. cbn [String.length] in *. lia.
Qed.

Lemma scanLines_go_cut (pre s cur : string) :
  (pre = EmptyString ∧ cur = EmptyString)
  ∨ (∃ p0, pre = p0 +:+ String "010" "") →
  scanLines_go EmptyString s = [] →
  scanLines_go cur (pre +:+ s) = scanLines_go cur pre.
Proof.
  intros Hpre Hs. revert cur Hpre.
  induction pre as [|c pre IH]; intros cur Hpre.
  - destruct Hpre as [[_ ->]|[p0 Hp0]].
    + by rewrite String_append_empty_l, Hs.
    + by destruct p0.
  - rewrite String_append_cons. cbn [scanLines_go].
    assert (Hnext : ∀ cur', c = "010"%char ∧ cur' = EmptyString
                            ∨ c ≠ "010"%char →
              (pre = EmptyString ∧ cur' = EmptyString)
              ∨ (∃ p0, pre = p0 +:+ String "010" "")).
    { intros cur' Hc. destruct Hpre as [[? _]|[p0 Hp0]]; [done|].
      destruct p0 as [|x p0].
      - rewrite String_append_empty_l in Hp0. injection Hp0 as -> ->.
        left. destruct Hc as [[_ ->]|Hc]; done.
      - rewrite String_append_cons in Hp0. injection Hp0 as -> ->.
        right. by exists p0. }
    case_bool_decide as Hc.
    + case_bool_decide; [|done]. f_equal. apply IH, Hnext. by left.
    + apply IH, (Hnext (String c cur)). by right.
Qed.

Section LongLineFacts.
Context `{UnstructuredAPI} `{!Decoder}.

(** A line of 64 KiB or more ends the parse without a word.  The scanner
    gives up at such a line and its error is never looked at, so everything
    from that line on (the line, and every object after it) is dropped: the
    manifest parses as the text before the line does, with the same objects,
    the same messages and a nil error. *)
Theorem long_line_truncates_manifest (pre long rest : string) :
  pre = EmptyString ∨ (∃ p0, pre = p0 +:+ String "010" "") →
  MaxScanTokenSize ≤ len long →
  "010"%char ∉ bytes long →
  ParseK8sObjectsFromYAMLManifest (pre +:+ long +:+ rest)
  = ParseK8sObjectsFromYAMLManifest pre.
Proof.
  intros Hpre Hlen Hnl. unfold ParseK8sObjectsFromYAMLManifest, scanLines.
  rewrite scanLines_go_cut; [done| |].
  - destruct Hpre as [->|?]; [by left|by right].
  - apply scanLines_go_long; [|done]. unfold len at 1. simpl. lia.
Qed.
End LongLineFacts.

Lemma long_line_truncates_manifest_witness :
  ParseK8sObjectsFromYAMLManifest (H := treeUnstructured)
    (scenarioManifest +:+ longLine +:+ String "010" deploymentText)
  = ParseK8sObjectsFromYAMLManifest (H := treeUnstructured)
      scenarioManifest.
Proof.
  apply (long_line_truncates_manifest (H := treeUnstructured)
           scenarioManifest longLine (String "010" deploymentText)).
  - right.
    exists ("kind: Deployment" +:+ String "010" (
            "metadata:" +:+ String "010" (
            "  name: x" +:+ String "010" (
            "---" +:+ String "010" "# disabled")))).
    reflexivity.
  - vm_compute. discriminate.
  - apply (bool_decide_unpack _). by vm_compute.
Defined.
